(** * Pearl TS SDK: the quoting engine of [QuoterManager.ts] and the bin
    price helper of the package's entry module, embedded in Rocq.

    The embedding follows the TypeScript source function by function.

    Conventions of the model.
    - A JavaScript [number] is [NaN], an infinity, or a finite binary64
      value, kept as the rational it denotes ([Qc]).  Every operation rounds
      its exact result to binary64, to nearest with ties to even, and
      overflows to an infinity; numbers are printed with the fewest digits
      that read back.  The sign of zero is not represented, and [Math.pow]
      is taken as correctly rounded.
    - A JavaScript string is a [string] of bytes; only ASCII white space is
      recognised by [parseInt] and [parseFloat].
    - A value of static type [any] (the dev-inspect response and what is read
      out of it) is a [value]: JSON data plus [undefined].  Objects are plain
      data objects without own [toString] or [valueOf] members.
    - [async] methods run in the monad [M]: state passing over the quote cache,
      the console and the outside world, with JavaScript exceptions. *)

From Stdlib Require Import ZArith QArith Qcanon Qround Qpower Qabs Lqa.
From Stdlib Require Import Floats Ascii String.
From stdpp Require Import base numbers list strings gmap.

Local Open Scope Z_scope.

(** ** JavaScript numbers *)

Module JS.

(** *** Rounding to binary64

    A finite Number is a rational of the form [m * 2^e] with [|m| < 2^53]
    and [e >= -1074].  Every arithmetic operation returns the exact result
    rounded to the nearest such value, ties going to the even [m]. *)

Definition pow2 (e : Z) : Q := (2 ^ e)%Q.

(** [e] with [2^e <= x < 2^(e+1)], for positive [x]. *)
Definition ilog2 (x : Q) : Z :=
  let e := Z.log2 (Qnum x) - Z.log2 (Zpos (Qden x)) in
  if Qle_bool (pow2 e) x then e else e - 1.

(** The nearest integer, a half going to the even neighbour. *)
Definition rne (t : Q) : Z :=
  let f := Qfloor t in
  match Qcompare (t - inject_Z f) (1 # 2) with
  | Lt => f
  | Gt => f + 1
  | Eq => if Z.even f then f else f + 1
  end.

(** The exponent of the last place of the binary64 values around [x]; the
    subnormal values share the exponent [-1074]. *)
Definition ulp_exponent (x : Q) : Z := Z.max (ilog2 (Qabs x) - 52) (-1074).

Definition round53 (x : Q) : Q :=
  if Qeq_bool x 0 then 0%Q
  else (inject_Z (rne (x / pow2 (ulp_exponent x))) * pow2 (ulp_exponent x))%Q.

(** The rational a binary64 of the machine denotes, and whether it is [x]:
    the machine's arithmetic is what [round53] is tested against. *)
Definition binary64_value (f : float) : option Q :=
  match Prim2SF f with
  | S754_zero _ => Some 0%Q
  | S754_finite negative m e =>
      Some (inject_Z (if negative then Z.neg m else Z.pos m) * pow2 e)%Q
  | _ => None
  end.

Definition binary64_is (f : float) (x : Q) : bool :=
  match binary64_value f with
  | Some y => Qeq_bool y x
  | None => false
  end.

(** The Number type, without the sign of zero. *)
Inductive number : Type :=
  | NaN
  | Infinity (negative : bool)
  | Num (q : Qc).

(** An integer literal; it is a Number as it stands below [2^53]. *)
Definition of_Z (z : Z) : number := Num (Qc_of_Z z).

(** The Number for a real result: the rounded value, or an infinity when
    its magnitude reaches [2^1024]. *)
Definition Number_of (x : Q) : number :=
  let r := round53 x in
  if Qle_bool (pow2 1024) r then Infinity false
  else if Qle_bool r (- pow2 1024) then Infinity true
  else Num (Q2Qc r).

Definition Qc_is_zero (q : Qc) : bool := bool_decide (q = Qc_of_Z 0).
Definition Qc_is_neg (q : Qc) : bool := bool_decide (q < Qc_of_Z 0)%Qc.

Definition Number_neg (a : number) : number :=
  match a with
  | NaN => NaN
  | Infinity s => Infinity (negb s)
  | Num q => Num (- q)%Qc
  end.

(** [a + b] *)
Definition Number_add (a b : number) : number :=
  match a, b with
  | NaN, _ | _, NaN => NaN
  | Infinity s, Infinity t => if Bool.eqb s t then Infinity s else NaN
  | Infinity s, Num _ | Num _, Infinity s => Infinity s
  | Num p, Num q => Number_of (this p + this q)
  end.

(** [a - b] *)
Definition Number_sub (a b : number) : number := Number_add a (Number_neg b).

(** [a * b] *)
Definition Number_mul (a b : number) : number :=
  match a, b with
  | NaN, _ | _, NaN => NaN
  | Infinity s, Infinity t => Infinity (xorb s t)
  | Infinity s, Num q | Num q, Infinity s =>
      if Qc_is_zero q then NaN else Infinity (xorb s (Qc_is_neg q))
  | Num p, Num q => Number_of (this p * this q)
  end.

(** [a / b] *)
Definition Number_div (a b : number) : number :=
  match a, b with
  | NaN, _ | _, NaN => NaN
  | Infinity _, Infinity _ => NaN
  | Infinity s, Num q => Infinity (xorb s (Qc_is_neg q))
  | Num _, Infinity _ => Num (Qc_of_Z 0)
  | Num p, Num q =>
      if Qc_is_zero q
      then (if Qc_is_zero p then NaN else Infinity (Qc_is_neg p))
      else Number_of (this p / this q)
  end.

(** [a < b]; every comparison with [NaN] is false. *)
Definition Number_lt (a b : number) : bool :=
  match a, b with
  | NaN, _ | _, NaN => false
  | Infinity s, Infinity t => s && negb t
  | Infinity s, Num _ => s
  | Num _, Infinity t => negb t
  | Num p, Num q => bool_decide (p < q)%Qc
  end.

Definition is_NaN (a : number) : bool :=
  match a with NaN => true | _ => false end.

(** [a > b], [a <= b], [a >= b], [a === b] *)
Definition Number_gt (a b : number) : bool := Number_lt b a.
Definition Number_le (a b : number) : bool :=
  negb (is_NaN a) && negb (is_NaN b) && negb (Number_lt b a).
Definition Number_ge (a b : number) : bool := Number_le b a.
Definition Number_strict_eq (a b : number) : bool :=
  Number_le a b && Number_le b a.

Definition Math_max (a b : number) : number :=
  if is_NaN a || is_NaN b then NaN else if Number_lt a b then b else a.

Definition Math_min (a b : number) : number :=
  if is_NaN a || is_NaN b then NaN else if Number_lt b a then b else a.

Definition Math_floor (a : number) : number :=
  match a with
  | Num q => of_Z (Qfloor q)
  | _ => a
  end.

(** [Math.round]: the nearest integer, halves going up. *)
Definition Math_round (a : number) : number :=
  match a with
  | Num q => of_Z (Qfloor (q + Q2Qc (1 # 2))%Qc)
  | _ => a
  end.

(** [Math.pow] with an integer exponent, taken as correctly rounded. *)
Definition Math_pow (base : number) (exponent : Z) : number :=
  if exponent =? 0 then of_Z 1 else
  match base with
  | NaN => NaN
  | Infinity s =>
      if exponent <? 0 then of_Z 0 else Infinity (s && Z.odd exponent)
  | Num q =>
      if Qc_is_zero q
      then (if 0 <? exponent then of_Z 0 else Infinity false)
      else Number_of (this q ^ exponent)
  end.

(** *** Numbers and strings *)

Definition digit_char (d : Z) : ascii := ascii_of_nat (Z.to_nat (48 + d)).

Fixpoint decimal_digits (fuel : nat) (n : Z) (acc : string) : string :=
  match fuel with
  | O => acc
  | S fuel' =>
      let acc' := String (digit_char (n mod 10)) acc in
      if n / 10 =? 0 then acc' else decimal_digits fuel' (n / 10) acc'
  end.

(** The decimal numeral of a non-negative integer. *)
Definition nat_numeral (n : Z) : string :=
  decimal_digits (S (Z.to_nat (Z.log2 n))) n "".

(** The decimal numeral of an integer, as [BigInt] or a safe integer prints. *)
Definition numeral (z : Z) : string :=
  if z <? 0 then String "-" (nat_numeral (- z)) else nat_numeral z.

Fixpoint string_length (s : string) : Z :=
  match s with
  | String _ s' => 1 + string_length s'
  | EmptyString => 0
  end.

Definition pow10 (e : Z) : Q := (10 ^ e)%Q.

(** [n] with [10^(n-1) <= x < 10^n], for positive [x]. *)
Definition decimal_exponent (x : Q) : Z :=
  let estimate := ilog2 x * 30103 / 100000 in
  if Qle_bool (pow10 (estimate + 1)) x then estimate + 2
  else if Qle_bool (pow10 estimate) x then estimate + 1
  else estimate.

(** The digits [s] of the shortest decimal [s * 10^(n-k)] that reads back as
    [x], the closest one when several of that length do, trying [k] digits
    and then more; the result is [s] with the exponent [n - k]. *)
Fixpoint shortest_digits (fuel : nat) (k : Z) (x : Q) (n : Z) : Z * Z :=
  let scale := pow10 (n - k) in
  let t := (x / scale)%Q in
  let reads_back s := Qeq_bool (round53 (inject_Z s * scale)) x in
  match fuel with
  | O => (rne t, n - k)
  | S fuel' =>
      if reads_back (rne t) then (rne t, n - k)
      else if reads_back (Qfloor t) then (Qfloor t, n - k)
      else if reads_back (Qfloor t + 1) then (Qfloor t + 1, n - k)
      else shortest_digits fuel' (k + 1) x n
  end.

Fixpoint strip_zeros (fuel : nat) (s p : Z) : Z * Z :=
  match fuel with
  | O => (s, p)
  | S fuel' =>
      if (s mod 10 =? 0) && negb (s =? 0)
      then strip_zeros fuel' (s / 10) (p + 1) else (s, p)
  end.

Fixpoint zeros (n : nat) : string :=
  match n with
  | O => ""
  | S n' => String "0" (zeros n')
  end.

(** [digits] with a point after its first [n] characters. *)
Fixpoint insert_point (n : nat) (digits : string) : string :=
  match n, digits with
  | O, _ => String "." digits
  | S n', String c rest => String c (insert_point n' rest)
  | S _, EmptyString => ""
  end.

(** The notation of [s * 10^p], [s] without trailing zeros: positional
    when the point falls within 21 digits to the right or 6 to the left of
    the first digit, with an exponent otherwise. *)
Definition format_decimal (s p : Z) : string :=
  let digits := nat_numeral s in
  let k := string_length digits in
  let n := k + p in
  if (k <=? n) && (n <=? 21) then digits +:+ zeros (Z.to_nat (n - k))
  else if (0 <? n) && (n <=? 21) then insert_point (Z.to_nat n) digits
  else if (-6 <? n) && (n <=? 0)
  then "0." +:+ zeros (Z.to_nat (- n)) +:+ digits
  else
    (if k =? 1 then digits else insert_point 1 digits) +:+ "e" +:+
    (if n - 1 <? 0 then "-" else "+") +:+ nat_numeral (Z.abs (n - 1)).

(** The decimal notation of a positive Number. *)
Definition shortest_decimal (x : Q) : string :=
  let (s, p) := shortest_digits 17 1 x (decimal_exponent x) in
  let (s', p') := strip_zeros 17 s p in
  format_decimal s' p'.

Definition is_safe_integer (q : Qc) : bool :=
  (Zpos (Qden q) =? 1) && (Z.abs (Qnum q) <? 2 ^ 53).

(** [Number.prototype.toString]: an integer below [2^53] prints as its
    numeral, any other value with the fewest digits that read back as it. *)
Definition Number_toString (a : number) : string :=
  match a with
  | NaN => "NaN"
  | Infinity false => "Infinity"
  | Infinity true => "-Infinity"
  | Num q =>
      if is_safe_integer q then numeral (Qnum q)
      else (if Qc_is_neg q then "-" else "") +:+ shortest_decimal (Qabs q)
  end.

Definition is_white_space (c : ascii) : bool :=
  let n := nat_of_ascii c in
  ((9 <=? n) && (n <=? 13))%nat || (n =? 32)%nat.

Fixpoint trim_start (s : string) : string :=
  match s with
  | String c s' => if is_white_space c then trim_start s' else s
  | EmptyString => s
  end.

(** The value of [c] as a digit, when it is one in some radix up to 16. *)
Definition digit_value (c : ascii) : option Z :=
  let n := Z.of_nat (nat_of_ascii c) in
  if (48 <=? n) && (n <=? 57) then Some (n - 48)
  else if (97 <=? n) && (n <=? 102) then Some (n - 87)
  else if (65 <=? n) && (n <=? 70) then Some (n - 55)
  else None.

Definition radix_digit (radix : Z) (c : ascii) : option Z :=
  match digit_value c with
  | Some d => if d <? radix then Some d else None
  | None => None
  end.

(** Reads the longest prefix of digits: the value so far ([None] while no
    digit was read) and the rest of the string. *)
Fixpoint read_digits (radix : Z) (s : string) (acc : option Z)
  : option Z * string :=
  match s with
  | String c s' =>
      match radix_digit radix c with
      | Some d => read_digits radix s' (Some (default 0 acc * radix + d))
      | None => (acc, s)
      end
  | EmptyString => (acc, s)
  end.

Definition read_sign (s : string) : bool * string :=
  match s with
  | String c s' =>
      if Ascii.eqb c "-" then (true, s')
      else if Ascii.eqb c "+" then (false, s')
      else (false, s)
  | EmptyString => (false, s)
  end.

Definition apply_sign (negative : bool) (z : Z) : Z :=
  if negative then - z else z.

(** [parseInt(s)] without a radix argument: radix 10, or 16 after [0x]. *)
Definition read_radix (s : string) : Z * string :=
  match s with
  | String c1 (String c2 s') =>
      if Ascii.eqb c1 "0" && (Ascii.eqb c2 "x" || Ascii.eqb c2 "X")
      then (16, s') else (10, s)
  | _ => (10, s)
  end.

Definition parseInt_string (s : string) : number :=
  let (negative, s1) := read_sign (trim_start s) in
  let (radix, s2) := read_radix s1 in
  match fst (read_digits radix s2 None) with
  | Some z => Number_of (inject_Z (apply_sign negative z))
  | None => NaN
  end.

(** The Number of the decimal literal [m * 10^e]. *)
Definition decimal (m e : Z) : number := Number_of (inject_Z m * pow10 e).

(** The exponent part [e[+-]digits] of a decimal literal, when present. *)
Definition read_exponent (s : string) : Z :=
  match s with
  | String "e" s' | String "E" s' =>
      let (negative, s1) := read_sign s' in
      match fst (read_digits 10 s1 None) with
      | Some e => apply_sign negative e
      | None => 0
      end
  | _ => 0
  end.

Definition starts_with_Infinity (s : string) : bool :=
  match s with
  | String "I" (String "n" (String "f" (String "i" (String "n"
      (String "i" (String "t" (String "y" _))))))) => true
  | _ => false
  end.

(** [parseFloat(s)]: the longest prefix that is a decimal literal. *)
Definition parseFloat_string (s : string) : number :=
  let (negative, s1) := read_sign (trim_start s) in
  if starts_with_Infinity s1 then Infinity negative else
  let (int_part, s2) := read_digits 10 s1 None in
  let '(frac_part, frac_len, s3) :=
    match s2 with
    | String "." s' =>
        let (f, rest) := read_digits 10 s' None in
        (f, string_length s' - string_length rest, rest)
    | _ => (None, 0, s2)
    end in
  match int_part, frac_part with
  | None, None => NaN
  | _, _ =>
      let mantissa := default 0 int_part * 10 ^ frac_len + default 0 frac_part in
      decimal (apply_sign negative mantissa) (read_exponent s3 - frac_len)
  end.

(** *** Values of type [any] *)

#[warnings="-register-all"]
Inductive value : Type :=
  | VUndefined
  | VNull
  | VBool (b : bool)
  | VNumber (n : number)
  | VString (s : string)
  | VArray (elements : list value)
  | VObject (members : list (string * value)).

(** The abstract operation ToString; array elements are joined with commas,
    [undefined] and [null] elements printing as nothing. *)
Fixpoint ToString (v : value) : string :=
  match v with
  | VUndefined => "undefined"
  | VNull => "null"
  | VBool b => if b then "true" else "false"
  | VNumber n => Number_toString n
  | VString s => s
  | VArray elements =>
      let element e :=
        match e with VUndefined | VNull => "" | _ => ToString e end in
      (fix join (l : list value) : string :=
         match l with
         | [] => ""
         | [e] => element e
         | e :: l' => element e +:+ "," +:+ join l'
         end) elements
  | VObject _ => "[object Object]"
  end.

(** ToBoolean *)
Definition truthy (v : value) : bool :=
  match v with
  | VUndefined | VNull => false
  | VBool b => b
  | VNumber NaN => false
  | VNumber (Num q) => negb (Qc_is_zero q)
  | VNumber (Infinity _) => true
  | VString s => negb (bool_decide (s = ""))
  | VArray _ | VObject _ => true
  end.

Definition nullish (v : value) : bool :=
  match v with VUndefined | VNull => true | _ => false end.

(** [a || b] *)
Definition or_else (a b : value) : value := if truthy a then a else b.

Inductive key : Type :=
  | Name (s : string)
  | Index (i : nat).

Fixpoint char_at (s : string) (i : nat) : value :=
  match s, i with
  | String c _, O => VString (String c "")
  | String _ s', S i' => char_at s' i'
  | EmptyString, _ => VUndefined
  end.

Fixpoint member (members : list (string * value)) (name : string) : value :=
  match members with
  | (n, v) :: rest => if bool_decide (n = name) then v else member rest name
  | [] => VUndefined
  end.

(** [v[k]] on a value that is neither [undefined] nor [null].  Of the members
    every array and string has ([length] and the methods) none is read by the
    code, so a name selects nothing there. *)
Definition property (v : value) (k : key) : value :=
  match v, k with
  | VArray elements, Index i => nth i elements VUndefined
  | VString s, Index i => char_at s i
  | VObject members, Name n => member members n
  | VObject members, Index i => member members (numeral (Z.of_nat i))
  | _, _ => VUndefined
  end.

Record exn : Type := Exn { exn_name : string; message : string }.

Definition Error (message : string) : exn := Exn "Error" message.
Definition TypeError (message : string) : exn := Exn "TypeError" message.

(** An error in a template literal *)
Definition exn_toString (e : exn) : string :=
  exn_name e +:+ ": " +:+ message e.

(** How the evaluation of an expression or a call ends. *)
Inductive Completion (A : Type) : Type :=
  | Normal (a : A)
  | Throw (e : exn).
Arguments Normal {A} a.
Arguments Throw {A} e.

(** [v[k]]: reading a member of [undefined] or [null] throws. *)
Definition get (v : value) (k : key) : Completion value :=
  match v with
  | VUndefined | VNull =>
      Throw (TypeError ("Cannot read properties of " +:+ ToString v))
  | _ => Normal (property v k)
  end.

(** [v?.[k]] *)
Definition optional_get (v : value) (k : key) : value :=
  match v with
  | VUndefined | VNull => VUndefined
  | _ => property v k
  end.

Definition parseInt (v : value) : number := parseInt_string (ToString v).
Definition parseFloat (v : value) : number := parseFloat_string (ToString v).

(** [try { body } catch (error) { handler }] around an expression *)
Definition try_catch {A : Type} (body : Completion A) (handler : exn -> Completion A)
  : Completion A :=
  match body with
  | Normal a => Normal a
  | Throw e => handler e
  end.

Definition bind {A B : Type} (c : Completion A) (k : A -> Completion B)
  : Completion B :=
  match c with
  | Normal a => k a
  | Throw e => Throw e
  end.

(** [array.sort(compare)]: a stable sort; [x] goes behind [y] when
    [compare(x, y) > 0]. *)
Fixpoint sort_insert {A : Type} (compare : A -> A -> number) (x : A) (l : list A)
  : list A :=
  match l with
  | [] => [x]
  | y :: l' =>
      if Number_gt (compare x y) (of_Z 0) then y :: sort_insert compare x l'
      else x :: y :: l'
  end.

Definition Array_sort {A : Type} (compare : A -> A -> number) (l : list A)
  : list A :=
  foldr (sort_insert compare) [] l.

(** [optional ? [optional] : []] *)
Definition spread_optional {A : Type} (o : option A) : list A :=
  match o with Some a => [a] | None => [] end.

(** [routes.reduce(f)] without an initial value, on a non-empty array. *)
Definition reduce {A : Type} (f : A -> A -> A) (first : A) (rest : list A) : A :=
  fold_left f rest first.

(** *** Strings in order *)

(** [a < b] on strings: the order of their code units. *)
Definition String_lt (a b : string) : bool := String.ltb a b.

(** The comparison [array.sort()] uses without a comparator, on strings. *)
Definition default_compare (x y : string) : number :=
  if String_lt x y then of_Z (-1)
  else if String_lt y x then of_Z 1
  else of_Z 0.

(** *** [toFixed] *)

(** [a.toFixed(fractionDigits)], for the [0 <= fractionDigits <= 100] it
    accepts: the exact value of the Number rounded to that many places, a
    half going up in magnitude; from [10^21] on, and for what is not finite,
    the notation of [toString]. *)
Definition Number_toFixed (a : number) (fractionDigits : nat) : string :=
  match a with
  | Num q =>
      let f := Z.of_nat fractionDigits in
      let x := Qabs q in
      (if Qc_is_neg q then "-" else "") +:+
      (if Qle_bool (pow10 21) x
       then Number_toString (Num (if Qc_is_neg q then - q else q)%Qc)
       else
         let n := Qfloor (x * pow10 f + (1 # 2))%Q in
         let m := nat_numeral n in
         if f =? 0 then m
         else
           let m := if string_length m <=? f
                    then zeros (Z.to_nat (f + 1 - string_length m)) +:+ m
                    else m in
           insert_point (Z.to_nat (string_length m - f)) m)
  | _ => Number_toString a
  end.

(** *** [split] *)

Fixpoint starts_with (prefix s : string) : bool :=
  match prefix, s with
  | EmptyString, _ => true
  | String c prefix', String d s' => Ascii.eqb c d && starts_with prefix' s'
  | String _ _, EmptyString => false
  end.

(** [s.split(separator)] for a separator that is not empty, from left to
    right: [piece] is the piece read so far, and the next [skip] characters
    belong to a separator already found. *)
Fixpoint split_from (separator : string) (skip : nat) (piece s : string)
  : list string :=
  match s with
  | EmptyString => [piece]
  | String c s' =>
      match skip with
      | S skip' => split_from separator skip' piece s'
      | O =>
          if starts_with separator s
          then piece :: split_from separator (String.length separator - 1) "" s'
          else split_from separator 0 (piece +:+ String c "") s'
      end
  end.

Definition String_split (separator s : string) : list string :=
  split_from separator 0 "" s.

(** *** Regular expressions

    The expressions of the source are built from character classes,
    sequence and repetition; [Nothing] and [Alt] arise in derivatives. *)

Inductive RegExp : Type :=
  | Nothing
  | Epsilon
  | Class (member : ascii -> bool)
  | Seq (r1 r2 : RegExp)
  | Alt (r1 r2 : RegExp)
  | Star (r : RegExp).

Fixpoint nullable (r : RegExp) : bool :=
  match r with
  | Nothing | Class _ => false
  | Epsilon | Star _ => true
  | Seq r1 r2 => nullable r1 && nullable r2
  | Alt r1 r2 => nullable r1 || nullable r2
  end.

(** What may follow a first character [c]. *)
Fixpoint derivative (c : ascii) (r : RegExp) : RegExp :=
  match r with
  | Nothing | Epsilon => Nothing
  | Class member => if member c then Epsilon else Nothing
  | Seq r1 r2 =>
      if nullable r1
      then Alt (Seq (derivative c r1) r2) (derivative c r2)
      else Seq (derivative c r1) r2
  | Alt r1 r2 => Alt (derivative c r1) (derivative c r2)
  | Star r' => Seq (derivative c r') (Star r')
  end.

(** [/^r$/.test(s)]: the whole of [s] matches [r]. *)
Fixpoint RegExp_test (r : RegExp) (s : string) : bool :=
  match s with
  | EmptyString => nullable r
  | String c s' => RegExp_test (derivative c r) s'
  end.

(** The characters of [s] one after the other. *)
Fixpoint Literal (s : string) : RegExp :=
  match s with
  | EmptyString => Epsilon
  | String c s' => Seq (Class (Ascii.eqb c)) (Literal s')
  end.

(** [r+] and [r{n}] *)
Definition Plus (r : RegExp) : RegExp := Seq r (Star r).

Fixpoint Repeat (n : nat) (r : RegExp) : RegExp :=
  match n with
  | O => Epsilon
  | S n' => Seq r (Repeat n' r)
  end.

Definition in_range (lo hi c : ascii) : bool :=
  (nat_of_ascii lo <=? nat_of_ascii c)%nat && (nat_of_ascii c <=? nat_of_ascii hi)%nat.

(** [[a-fA-F0-9]], [[a-zA-Z_]] and [[a-zA-Z0-9_]] *)
Definition hex_digit (c : ascii) : bool :=
  in_range "a" "f" c || in_range "A" "F" c || in_range "0" "9" c.

Definition identifier_start (c : ascii) : bool :=
  in_range "a" "z" c || in_range "A" "Z" c || Ascii.eqb c "_".

Definition identifier_part (c : ascii) : bool :=
  in_range "a" "z" c || in_range "A" "Z" c || in_range "0" "9" c || Ascii.eqb c "_".

End JS.

Import JS.

(** ** Types of [types/pools/swap] *)

Module QuoteParams.
Record t : Type := make {
  tokenIn : string;
  tokenOut : string;
  amountIn : string;
  poolId : option string
}.
End QuoteParams.

Module RouteHop.
(** The amounts are copied from the dev-inspect response unconverted, hence
    [value]s where the interface says [string]. *)
Record t : Type := make {
  poolId : string;
  tokenIn : string;
  tokenOut : string;
  binStep : number;
  expectedAmountIn : value;
  expectedAmountOut : value;
  expectedFee : value;
  priceImpact : string
}.
End RouteHop.

Inductive RouteType : Type := direct | multi_hop.

Module SwapRoute.
Record t : Type := make {
  hops : list RouteHop.t;
  totalFee : value;
  estimatedGas : value;
  priceImpact : string;
  routeType : RouteType
}.
End SwapRoute.

Module QuoteResult.
(** As in [RouteHop], the amounts read from a response are [value]s. *)
Record t : Type := make {
  amountOut : value;
  amountIn : value;
  priceImpact : string;
  feeAmount : value;
  gasEstimate : value;
  poolId : string;
  route : SwapRoute.t;
  isValid : bool;
  slippageTolerance : number
}.
End QuoteResult.

Module SlippageConfig.
Record t : Type := make {
  tolerance : number;
  autoSlippage : bool;
  maxSlippage : number
}.
End SlippageConfig.

(** ** Types of [types/positions/position] *)

Inductive ImpactLevel : Type := low | medium | high | extreme.

Module PriceImpactWarning.
Record t : Type := make {
  level : ImpactLevel;
  percentage : string;
  message : string;
  shouldWarn : bool
}.
End PriceImpactWarning.

(** ** [QuoterManager.ts] *)

Module QuoterManager.

Module QuoteOptions.
Record t : Type := make {
  maxHops : option number;
  slippageTolerance : option number;
  includeGasEstimate : option bool
}.
Definition empty : t := make None None None.
End QuoteOptions.

Module MultiRouteQuote.
Record t : Type := make {
  directRoute : option QuoteResult.t;
  singleHopRoutes : list QuoteResult.t;
  multiHopRoutes : list QuoteResult.t;
  bestRoute : QuoteResult.t;
  alternativeRoutes : list QuoteResult.t
}.
End MultiRouteQuote.

Module CacheEntry.
Record t : Type := make {
  quote : QuoteResult.t;
  timestamp : Z
}.
End CacheEntry.

Definition CACHE_TTL : Z := 10000.

Definition createEmptyQuote : QuoteResult.t :=
  {| QuoteResult.amountOut := VString "0";
     QuoteResult.amountIn := VString "0";
     QuoteResult.priceImpact := "0";
     QuoteResult.feeAmount := VString "0";
     QuoteResult.gasEstimate := VString "0";
     QuoteResult.poolId := "";
     QuoteResult.route :=
       {| SwapRoute.hops := [];
          SwapRoute.totalFee := VString "0";
          SwapRoute.estimatedGas := VString "0";
          SwapRoute.priceImpact := "0";
          SwapRoute.routeType := direct |};
     QuoteResult.isValid := false;
     QuoteResult.slippageTolerance := of_Z 50 |}.

Definition combineHops (originalParams : QuoteParams.t)
    (firstHop secondHop : QuoteResult.t) (intermediate : string)
  : QuoteResult.t :=
  let totalFee :=
    Number_toString (Number_add (parseInt (QuoteResult.feeAmount firstHop))
                                (parseInt (QuoteResult.feeAmount secondHop))) in
  let totalPriceImpact :=
    Number_toString
      (Number_add (parseFloat_string (QuoteResult.priceImpact firstHop))
                  (parseFloat_string (QuoteResult.priceImpact secondHop))) in
  let totalGas :=
    Number_toString (Number_add (parseInt (QuoteResult.gasEstimate firstHop))
                                (parseInt (QuoteResult.gasEstimate secondHop))) in
  let combinedRoute :=
    {| SwapRoute.hops :=
         SwapRoute.hops (QuoteResult.route firstHop) ++
         SwapRoute.hops (QuoteResult.route secondHop);
       SwapRoute.totalFee := VString totalFee;
       SwapRoute.estimatedGas := VString totalGas;
       SwapRoute.priceImpact := totalPriceImpact;
       SwapRoute.routeType := multi_hop |} in
  {| QuoteResult.amountOut := QuoteResult.amountOut secondHop;
     QuoteResult.amountIn := VString (QuoteParams.amountIn originalParams);
     QuoteResult.priceImpact := totalPriceImpact;
     QuoteResult.feeAmount := VString totalFee;
     QuoteResult.gasEstimate := VString totalGas;
     QuoteResult.poolId := "";
     QuoteResult.route := combinedRoute;
     QuoteResult.isValid := true;
     QuoteResult.slippageTolerance :=
       Math_max (QuoteResult.slippageTolerance firstHop)
                (QuoteResult.slippageTolerance secondHop) |}.

Definition calculateOptimalSlippage (quote : QuoteResult.t) : SlippageConfig.t :=
  let priceImpact := parseFloat_string (QuoteResult.priceImpact quote) in
  let baseSlippage := of_Z 50 in
  let tolerance :=
    if Number_gt priceImpact (of_Z 1)
    then Math_min (Number_add baseSlippage (Number_mul priceImpact (of_Z 10)))
                  (of_Z 500)
    else baseSlippage in
  {| SlippageConfig.tolerance := Math_round tolerance;
     SlippageConfig.autoSlippage := true;
     SlippageConfig.maxSlippage := of_Z 1000 |}.

Definition calculateRouteScore (quote : QuoteResult.t) : number :=
  let amountOut := parseInt (QuoteResult.amountOut quote) in
  let fees := parseInt (QuoteResult.feeAmount quote) in
  let gas := parseInt (QuoteResult.gasEstimate quote) in
  let priceImpact := parseFloat_string (QuoteResult.priceImpact quote) in
  let outputScore := amountOut in
  let costScore := Number_add fees (Number_mul gas (decimal 1 (-3))) in
  let impactPenalty := Number_mul priceImpact (of_Z 1000) in
  Number_sub (Number_sub outputScore costScore) impactPenalty.

Definition selectBestRoute (multiRoute : MultiRouteQuote.t) : QuoteResult.t :=
  let allRoutes :=
    List.filter (fun route => QuoteResult.isValid route)
      (spread_optional (MultiRouteQuote.directRoute multiRoute) ++
       MultiRouteQuote.singleHopRoutes multiRoute ++
       MultiRouteQuote.multiHopRoutes multiRoute) in
  match allRoutes with
  | [] => createEmptyQuote
  | first :: rest =>
      reduce (fun best current =>
                let bestScore := calculateRouteScore best in
                let currentScore := calculateRouteScore current in
                if Number_gt currentScore bestScore then current else best)
             first rest
  end.

Definition estimateGasForRoute (route : SwapRoute.t) : string :=
  let baseGas := of_Z 100000 in
  let gasPerHop := of_Z 150000 in
  let totalGas :=
    Number_add baseGas
      (Number_mul (of_Z (Z.of_nat (length (SwapRoute.hops route)))) gasPerHop) in
  Number_toString totalGas.

(** [enhanceQuote] awaits nothing; its options are those [getBestQuote]
    passes, with the defaults filled in. *)
Definition enhanceQuote (quote : QuoteResult.t)
    (slippageTolerance : number) (includeGasEstimate : bool) : QuoteResult.t :=
  let optimalSlippage := calculateOptimalSlippage quote in
  let gasEstimate :=
    if includeGasEstimate && negb (truthy (QuoteResult.gasEstimate quote))
    then VString (estimateGasForRoute (QuoteResult.route quote))
    else QuoteResult.gasEstimate quote in
  {| QuoteResult.amountOut := QuoteResult.amountOut quote;
     QuoteResult.amountIn := QuoteResult.amountIn quote;
     QuoteResult.priceImpact := QuoteResult.priceImpact quote;
     QuoteResult.feeAmount := QuoteResult.feeAmount quote;
     QuoteResult.gasEstimate := gasEstimate;
     QuoteResult.poolId := QuoteResult.poolId quote;
     QuoteResult.route := QuoteResult.route quote;
     QuoteResult.isValid := QuoteResult.isValid quote;
     QuoteResult.slippageTolerance :=
       Math_max slippageTolerance (SlippageConfig.tolerance optimalSlippage) |}.

Definition calculateMinimumOutput (quote : QuoteResult.t) (slippageBps : number)
  : string :=
  let amountOut := parseInt (QuoteResult.amountOut quote) in
  let slippageMultiplier :=
    Number_div (Number_sub (of_Z 10000) slippageBps) (of_Z 10000) in
  Number_toString (Math_floor (Number_mul amountOut slippageMultiplier)).

(** [returnValues[i]?.[0] || fallback] *)
Definition returned (returnValues : value) (i : nat) (fallback : string) : value :=
  or_else (optional_get (property returnValues (Index i)) (Index 0))
          (VString fallback).

Definition parseContractQuoteResult (result : value)
    (tokenIn tokenOut : string) (amountIn : value) : Completion QuoteResult.t :=
  try_catch
    (bind (get result (Name "results")) (fun results =>
     if truthy (optional_get (optional_get results (Index 0)) (Name "returnValues"))
     then
       bind (get result (Name "results")) (fun results =>
       bind (get results (Index 0)) (fun first =>
       bind (get first (Name "returnValues")) (fun returnValues =>
       let amountOut := returned returnValues 0 "0" in
       let priceImpact := returned returnValues 1 "0" in
       let feeAmount := returned returnValues 2 "0" in
       let gasEstimate := returned returnValues 3 "150000" in
       let route :=
         {| SwapRoute.hops :=
              [ {| RouteHop.poolId := "";
                   RouteHop.tokenIn := tokenIn;
                   RouteHop.tokenOut := tokenOut;
                   RouteHop.binStep := of_Z 25;
                   RouteHop.expectedAmountIn := amountIn;
                   RouteHop.expectedAmountOut := amountOut;
                   RouteHop.expectedFee := feeAmount;
                   RouteHop.priceImpact := ToString priceImpact |} ];
            SwapRoute.totalFee := feeAmount;
            SwapRoute.estimatedGas := gasEstimate;
            SwapRoute.priceImpact := ToString priceImpact;
            SwapRoute.routeType := direct |} in
       Normal
         {| QuoteResult.amountOut := amountOut;
            QuoteResult.amountIn := amountIn;
            QuoteResult.priceImpact := ToString priceImpact;
            QuoteResult.feeAmount := feeAmount;
            QuoteResult.gasEstimate := gasEstimate;
            QuoteResult.poolId := "";
            QuoteResult.route := route;
            QuoteResult.isValid := Number_gt (parseInt amountOut) (of_Z 0);
            QuoteResult.slippageTolerance := of_Z 50 |})))
     else Normal createEmptyQuote))
    (fun error => Normal createEmptyQuote).

(** [analyzePriceImpact] awaits nothing. *)
Definition analyzePriceImpact (quote : QuoteResult.t) : PriceImpactWarning.t :=
  let impactPercent := parseFloat_string (QuoteResult.priceImpact quote) in
  let '(level, message, shouldWarn) :=
    if Number_lt impactPercent (decimal 1 (-1))
    then (low, "Minimal price impact", false)
    else if Number_lt impactPercent (of_Z 1)
    then (medium, "Moderate price impact", true)
    else if Number_lt impactPercent (of_Z 5)
    then (high, "High price impact - consider smaller trade size", true)
    else (extreme, "Extreme price impact - trade may not be profitable", true) in
  {| PriceImpactWarning.level := level;
     PriceImpactWarning.percentage := QuoteResult.priceImpact quote;
     PriceImpactWarning.message := message;
     PriceImpactWarning.shouldWarn := shouldWarn |}.

(** What [simulateSwap] and [getDetailedQuote] return. *)
Module SwapSimulation.
Record t : Type := make {
  canExecute : bool;
  quote : QuoteResult.t;
  warnings : list string;
  errors : list string
}.
End SwapSimulation.

Module DetailedQuote.
Record t : Type := make {
  quote : QuoteResult.t;
  priceImpactAnalysis : PriceImpactWarning.t;
  slippageRecommendation : SlippageConfig.t;
  alternativeRoutes : list QuoteResult.t
}.
End DetailedQuote.

(** *** The stateful part *)

Definition MODULES_QUOTER : string := "quoter".
Definition FUNCTIONS_GET_QUOTE : string := "get_quote".

(** The argument of [txb.moveCall]. *)
Module MoveCall.
Record t : Type := make {
  target : string;
  typeArguments : list string;
  arguments : list value
}.
End MoveCall.

(** [(a, b) => parseInt(b.amountOut) - parseInt(a.amountOut)] *)
Definition by_amountOut_descending (a b : QuoteResult.t) : number :=
  Number_sub (parseInt (QuoteResult.amountOut b))
             (parseInt (QuoteResult.amountOut a)).

(** The position in [routes] of the object [selectBestRoute] returns for
    them: the elements of [routes] are distinct objects, so
    [route !== bestRoute] drops that position and nothing else. *)
Definition selected_position (routes : list QuoteResult.t) : option nat :=
  match List.filter (fun entry : nat * QuoteResult.t => QuoteResult.isValid entry.2)
                    (imap pair routes) with
  | [] => None
  | first :: rest =>
      Some (reduce (fun best current : nat * QuoteResult.t =>
                      if Number_gt (calculateRouteScore current.2)
                                   (calculateRouteScore best.2)
                      then current else best) first rest).1
  end.

Section methods.

(** What lies outside the class: the world [W] the Sui client talks to, its
    clock, and [devInspectTransactionBlock] together with the construction of
    the transaction it is given, both of [@mysten/sui]. *)
Context {W : Type}.
Variable Date_now : W -> Z.
Variable devInspectTransactionBlock : MoveCall.t -> W -> Completion value * W.

(** The constructor's arguments. *)
Variables packageId factoryId : string.

Record state : Type := State {
  quoteCache : gmap string CacheEntry.t;
  console : list string;
  world : W
}.

(** An [async] method: it reads and writes the state and returns or throws. *)
Definition M (A : Type) : Type := state -> Completion A * state.

Definition ret {A : Type} (a : A) : M A := fun s => (Normal a, s).

Definition throw {A : Type} (e : exn) : M A := fun s => (Throw e, s).

Definition bindM {A B : Type} (m : M A) (k : A -> M B) : M B :=
  fun s =>
    match m s with
    | (Normal a, s') => k a s'
    | (Throw e, s') => (Throw e, s')
    end.

Notation "x <- m ;; k" := (bindM m (fun x => k))
  (at level 100, m at next level, right associativity).
Notation "m ;;; k" := (bindM m (fun _ => k))
  (at level 100, right associativity).

(** [try { body } catch (error) { handler }] *)
Definition try_catchM {A : Type} (body : M A) (handler : exn -> M A) : M A :=
  fun s =>
    match body s with
    | (Normal a, s') => (Normal a, s')
    | (Throw e, s') => handler e s'
    end.

Definition lift {A : Type} (c : Completion A) : M A := fun s => (c, s).

(** [console.error(label, error)] and [console.warn(label, error)] *)
Definition console_log (label : string) (error : exn) : M unit :=
  fun s =>
    (Normal tt,
     {| quoteCache := quoteCache s;
        console := console s ++ [label +:+ " " +:+ exn_toString error];
        world := world s |}).

Definition devInspect (call : MoveCall.t) : M value :=
  fun s =>
    let (result, w) := devInspectTransactionBlock call (world s) in
    (result, {| quoteCache := quoteCache s; console := console s; world := w |}).

Definition getCacheKey (params : QuoteParams.t) : string :=
  QuoteParams.tokenIn params +:+ "-" +:+ QuoteParams.tokenOut params +:+ "-" +:+
  QuoteParams.amountIn params.

Definition getCachedQuote (key : string) : M (option QuoteResult.t) :=
  fun s =>
    match quoteCache s !! key with
    | Some cached =>
        if Date_now (world s) - CacheEntry.timestamp cached <? CACHE_TTL
        then (Normal (Some (CacheEntry.quote cached)), s)
        else (Normal None, s)
    | None => (Normal None, s)
    end.

Definition cacheQuote (key : string) (quote : QuoteResult.t) : M unit :=
  fun s =>
    (Normal tt,
     {| quoteCache :=
          <[key := {| CacheEntry.quote := quote;
                      CacheEntry.timestamp := Date_now (world s) |}]>
            (quoteCache s);
        console := console s;
        world := world s |}).

Definition clearCache : M unit :=
  fun s => (Normal tt, {| quoteCache := ∅; console := console s; world := world s |}).

(** The call [txb.moveCall] records.  At run time [amountIn] is whatever the
    caller holds: the second hop is asked with the first hop's [amountOut]. *)
Definition get_quote_call (tokenIn tokenOut : string) (amountIn : value)
  : MoveCall.t :=
  {| MoveCall.target :=
       packageId +:+ "::" +:+ MODULES_QUOTER +:+ "::" +:+ FUNCTIONS_GET_QUOTE;
     MoveCall.typeArguments := [tokenIn; tokenOut];
     MoveCall.arguments := [VString factoryId; amountIn; VString "0x6"] |}.

Definition getContractQuote (tokenIn tokenOut : string) (amountIn : value)
  : M QuoteResult.t :=
  try_catchM
    (result <- devInspect (get_quote_call tokenIn tokenOut amountIn) ;;
     lift (parseContractQuoteResult result tokenIn tokenOut amountIn))
    (fun error =>
       console_log "Error getting contract quote:" error ;;;
       throw (Error ("Contract quote failed: " +:+ exn_toString error))).

Definition getCommonIntermediateTokens : list string :=
  [packageId +:+ "::test_usdc::TEST_USDC"].

(** One turn of the loop of [getSingleHopQuotes]: the combined route, or
    nothing after a [continue]. *)
Definition singleHopQuote (params : QuoteParams.t) (intermediate : string)
  : M (option QuoteResult.t) :=
  firstHopQuote <- getContractQuote (QuoteParams.tokenIn params) intermediate
                     (VString (QuoteParams.amountIn params)) ;;
  if negb (QuoteResult.isValid firstHopQuote) ||
     Number_strict_eq (parseInt (QuoteResult.amountOut firstHopQuote)) (of_Z 0)
  then ret None
  else
    secondHopQuote <- getContractQuote intermediate (QuoteParams.tokenOut params)
                        (QuoteResult.amountOut firstHopQuote) ;;
    if negb (QuoteResult.isValid secondHopQuote) ||
       Number_strict_eq (parseInt (QuoteResult.amountOut secondHopQuote)) (of_Z 0)
    then ret None
    else ret (Some (combineHops params firstHopQuote secondHopQuote intermediate)).

Fixpoint singleHopQuotes_loop (params : QuoteParams.t)
    (intermediateTokens : list string) (routes : list QuoteResult.t)
  : M (list QuoteResult.t) :=
  match intermediateTokens with
  | [] => ret routes
  | intermediate :: rest =>
      if bool_decide (intermediate = QuoteParams.tokenIn params) ||
         bool_decide (intermediate = QuoteParams.tokenOut params)
      then singleHopQuotes_loop params rest routes
      else
        combinedRoute <-
          try_catchM (singleHopQuote params intermediate)
            (fun error =>
               console_log ("Single-hop route through " +:+ intermediate +:+
                            " failed:") error ;;;
               ret None) ;;
        singleHopQuotes_loop params rest (routes ++ spread_optional combinedRoute)
  end.

Definition getSingleHopQuotes (params : QuoteParams.t) : M (list QuoteResult.t) :=
  routes <- singleHopQuotes_loop params getCommonIntermediateTokens [] ;;
  ret (Array_sort by_amountOut_descending routes).

Definition getMultiRouteQuotes (params : QuoteParams.t) (maxHops : number)
  : M MultiRouteQuote.t :=
  try_catchM
    (let results :=
       {| MultiRouteQuote.directRoute := None;
          MultiRouteQuote.singleHopRoutes := [];
          MultiRouteQuote.multiHopRoutes := [];
          MultiRouteQuote.bestRoute := createEmptyQuote;
          MultiRouteQuote.alternativeRoutes := [] |} in
     directRoute <-
       try_catchM
         (directQuote <- getContractQuote (QuoteParams.tokenIn params)
                           (QuoteParams.tokenOut params)
                           (VString (QuoteParams.amountIn params)) ;;
          ret (if QuoteResult.isValid directQuote then Some directQuote else None))
         (fun error => console_log "Direct route failed:" error ;;; ret None) ;;
     singleHopQuotes <-
       (if Number_ge maxHops (of_Z 2) then getSingleHopQuotes params else ret []) ;;
     let singleHopRoutes := spread_optional directRoute ++ singleHopQuotes in
     let allRoutes := singleHopRoutes ++ MultiRouteQuote.multiHopRoutes results in
     ret (if (0 <? length allRoutes)%nat
          then
            {| MultiRouteQuote.directRoute := directRoute;
               MultiRouteQuote.singleHopRoutes := singleHopRoutes;
               MultiRouteQuote.multiHopRoutes := [];
               MultiRouteQuote.bestRoute :=
                 selectBestRoute
                   {| MultiRouteQuote.directRoute := None;
                      MultiRouteQuote.singleHopRoutes := allRoutes;
                      MultiRouteQuote.multiHopRoutes := [];
                      MultiRouteQuote.bestRoute := createEmptyQuote;
                      MultiRouteQuote.alternativeRoutes := [] |};
               MultiRouteQuote.alternativeRoutes :=
                 Array_sort by_amountOut_descending
                   (match selected_position allRoutes with
                    | Some i => delete i allRoutes
                    | None => allRoutes
                    end) |}
          else
            {| MultiRouteQuote.directRoute := directRoute;
               MultiRouteQuote.singleHopRoutes := singleHopRoutes;
               MultiRouteQuote.multiHopRoutes := [];
               MultiRouteQuote.bestRoute := createEmptyQuote;
               MultiRouteQuote.alternativeRoutes := [] |}))
    (fun error =>
       console_log "Error getting multi-route quotes:" error ;;;
       throw (Error ("Multi-route quote failed: " +:+ exn_toString error))).

Definition getBestQuote (params : QuoteParams.t) (options : QuoteOptions.t)
  : M QuoteResult.t :=
  try_catchM
    (let maxHops := default (of_Z 3) (QuoteOptions.maxHops options) in
     let slippageTolerance :=
       default (of_Z 50) (QuoteOptions.slippageTolerance options) in
     let includeGasEstimate :=
       default true (QuoteOptions.includeGasEstimate options) in
     let cacheKey := getCacheKey params in
     cached <- getCachedQuote cacheKey ;;
     match cached with
     | Some cached => ret cached
     | None =>
         multiRouteQuote <- getMultiRouteQuotes params maxHops ;;
         let bestQuote := selectBestRoute multiRouteQuote in
         let enhancedQuote :=
           enhanceQuote bestQuote slippageTolerance includeGasEstimate in
         cacheQuote cacheKey enhancedQuote ;;;
         ret enhancedQuote
     end)
    (fun error =>
       console_log "Error getting best quote:" error ;;;
       throw (Error ("Failed to get quote: " +:+ exn_toString error))).

Definition getDetailedQuote (params : QuoteParams.t) : M DetailedQuote.t :=
  quote <- getBestQuote params QuoteOptions.empty ;;
  let priceImpactAnalysis := analyzePriceImpact quote in
  let slippageRecommendation := calculateOptimalSlippage quote in
  multiRouteQuote <- getMultiRouteQuotes params (of_Z 3) ;;
  let alternativeRoutes := MultiRouteQuote.alternativeRoutes multiRouteQuote in
  ret {| DetailedQuote.quote := quote;
         DetailedQuote.priceImpactAnalysis := priceImpactAnalysis;
         DetailedQuote.slippageRecommendation := slippageRecommendation;
         DetailedQuote.alternativeRoutes := alternativeRoutes |}.

(** The checks of [simulateSwap] push onto [warnings] and [errors] and clear
    [canExecute] one after the other; the pair below is [errors] with
    [canExecute]. *)
Definition simulateSwap (params : QuoteParams.t) : M SwapSimulation.t :=
  try_catchM
    (quote <- getBestQuote params QuoteOptions.empty ;;
     let checked : list string * bool := ([], true) in
     let checked :=
       if negb (QuoteResult.isValid quote)
       then (checked.1 ++ ["No valid route found"], false) else checked in
     let checked :=
       if Number_strict_eq (parseInt (QuoteResult.amountOut quote)) (of_Z 0)
       then (checked.1 ++ ["Output amount would be zero"], false) else checked in
     let priceImpact := parseFloat_string (QuoteResult.priceImpact quote) in
     let warnings :=
       if Number_gt priceImpact (of_Z 5)
       then ["High price impact detected"] else [] in
     let checked :=
       if Number_gt priceImpact (of_Z 15)
       then (checked.1 ++ ["Price impact too high - trade may fail"], false)
       else checked in
     ret {| SwapSimulation.canExecute := checked.2;
            SwapSimulation.quote := quote;
            SwapSimulation.warnings := warnings;
            SwapSimulation.errors := checked.1 |})
    (fun error =>
       ret {| SwapSimulation.canExecute := false;
              SwapSimulation.quote := createEmptyQuote;
              SwapSimulation.warnings := [];
              SwapSimulation.errors :=
                ["Simulation failed: " +:+ exn_toString error] |}).

(** [await new Promise(resolve => setTimeout(resolve, ms))]: the world after
    the timer has run out. *)
Variable setTimeout : number -> W -> W.

Definition sleep (ms : number) : M unit :=
  fun s =>
    (Normal tt,
     {| quoteCache := quoteCache s; console := console s;
        world := setTimeout ms (world s) |}).

(** The loop of [getQuoteWithRetry] from turn [i] on; [fuel] bounds the turns
    taken, and [None] is returned when it runs out.  The counter is an
    integer, as the Number is while below [2^53]. *)
Fixpoint getQuoteWithRetry_loop (fuel : nat) (params : QuoteParams.t)
    (maxRetries : number) (i : Z) (lastError : option exn)
  : M (option QuoteResult.t) :=
  match fuel with
  | O => ret None
  | S fuel' =>
      if Number_lt (of_Z i) maxRetries
      then
        try_catchM
          (quote <- getBestQuote params QuoteOptions.empty ;; ret (Some quote))
          (fun error =>
             (if Number_lt (of_Z i) (Number_sub maxRetries (of_Z 1))
              then sleep (Number_mul (Math_pow (of_Z 2) i) (of_Z 1000))
              else ret tt) ;;;
             getQuoteWithRetry_loop fuel' params maxRetries (i + 1) (Some error))
      else
        throw (Error ("Failed to get quote after " +:+ Number_toString maxRetries +:+
                      " retries: " +:+
                      match lastError with
                      | Some error => message error
                      | None => "undefined"
                      end))
  end.

Definition getQuoteWithRetry (fuel : nat) (params : QuoteParams.t)
    (maxRetries : number) : M (option QuoteResult.t) :=
  getQuoteWithRetry_loop fuel params maxRetries 0 None.

End methods.

Arguments State {W} _ _ _.
Arguments quoteCache {W} _.
Arguments console {W} _.
Arguments world {W} _.

End QuoterManager.

Import QuoterManager.

(** ** Helper utilities of the package's entry module *)

(** [binId] is a bin index, an integer.  No statement of the body throws:
    the call always completes normally. *)
Definition calculateBinPrice (binId : Z) (binStep : number) : Completion string :=
  let base := Number_add (of_Z 1) (Number_div binStep (of_Z 10000)) in
  let price := Math_pow base binId in
  Normal (Number_toString (Number_mul price (Math_pow (of_Z 2) 64))).

(** ** [DLMMClient.ts]: the quoter and [getQuote] *)

Module DLMMClient.

Section methods.

Context {W : Type}.
Variable Date_now : W -> Z.
Variable devInspectTransactionBlock : MoveCall.t -> W -> Completion value * W.

(** [this.addresses.PACKAGE_ID] and [this.addresses.FACTORY_ID]. *)
Variables PACKAGE_ID FACTORY_ID : string.

(** Of the client's fields [getQuote] touches [_quoterManager] only; a quoter
    is its cache. *)
Record state : Type := State {
  _quoterManager : option (gmap string CacheEntry.t);
  console : list string;
  world : W
}.

(** [get quoter()]: the quoter, made on first use. *)
Definition quoter (c : state) : gmap string CacheEntry.t * state :=
  match _quoterManager c with
  | Some quoteCache => (quoteCache, c)
  | None =>
      (∅, {| _quoterManager := Some ∅; console := console c; world := world c |})
  end.

Definition getQuote (params : QuoteParams.t) (c : state)
  : Completion QuoteResult.t * state :=
  let (quoteCache, c1) := quoter c in
  match QuoterManager.getBestQuote Date_now devInspectTransactionBlock
          PACKAGE_ID FACTORY_ID params QuoteOptions.empty
          (QuoterManager.State quoteCache (console c1) (world c1)) with
  | (Normal quote, s) =>
      (Normal quote,
       {| _quoterManager := Some (QuoterManager.quoteCache s);
          console := QuoterManager.console s;
          world := QuoterManager.world s |})
  | (Throw error, s) =>
      (Throw (Error ("Failed to get quote: " +:+ exn_toString error)),
       {| _quoterManager := Some (QuoterManager.quoteCache s);
          console :=
            QuoterManager.console s ++
            ["Error getting quote: " +:+ exn_toString error];
          world := QuoterManager.world s |})
  end.

End methods.

Arguments State {W} _ _ _.
Arguments _quoterManager {W} _.
Arguments console {W} _.
Arguments world {W} _.

End DLMMClient.

(** ** Helper utilities, continued *)

Definition bpsToPercentage (bps : number) : number := Number_div bps (of_Z 100).

Definition percentageToBps (percentage : number) : number :=
  Number_mul percentage (of_Z 100).

(** [isMinimum] defaults to [true]. *)
Definition calculateSlippageAmount (amount : string) (slippageBps : number)
    (isMinimum : option bool) : string :=
  let amountNum := parseInt_string amount in
  let slippageMultiplier :=
    if default true isMinimum
    then Number_div (Number_sub (of_Z 10000) slippageBps) (of_Z 10000)
    else Number_div (Number_add (of_Z 10000) slippageBps) (of_Z 10000) in
  Number_toString (Math_floor (Number_mul amountNum slippageMultiplier)).

(** [maxImpactBps] defaults to 500. *)
Definition isPriceImpactAcceptable (priceImpact : string)
    (maxImpactBps : option number) : bool :=
  let impact := parseFloat_string priceImpact in
  let maxImpact := Number_div (default (of_Z 500) maxImpactBps) (of_Z 100) in
  Number_le impact maxImpact.

(** [const [first, second] = [tokenA, tokenB].sort()]; an element that is
    missing would be [undefined]. *)
Definition generatePoolKey (tokenA tokenB : string) (binStep : number) : string :=
  let sorted := Array_sort default_compare [tokenA; tokenB] in
  let first := nth 0 sorted "undefined" in
  let second := nth 1 sorted "undefined" in
  first +:+ "::" +:+ second +:+ "::" +:+ Number_toString binStep.

Definition calculateTVL (reserveA reserveB : string) : string :=
  Number_toString (Number_add (parseInt_string reserveA) (parseInt_string reserveB)).

(** [decimals] is a count of decimal places, an integer; it defaults to 9. *)
Definition formatTokenAmount (amount : string) (decimals : option Z) : string :=
  let num := parseInt_string amount in
  let divisor := Math_pow (of_Z 10) (default 9 decimals) in
  Number_toFixed (Number_div num divisor) 6.

Definition parseTokenAmount (amount : string) (decimals : option Z) : string :=
  let num := parseFloat_string amount in
  let multiplier := Math_pow (of_Z 10) (default 9 decimals) in
  Number_toString (Math_floor (Number_mul num multiplier)).

(** [/^0x[a-fA-F0-9]{64}$/] *)
Definition isValidSuiAddress (address : string) : bool :=
  RegExp_test (Seq (Literal "0x") (Repeat 64 (Class hex_digit))) address.

(** [/^0x[a-fA-F0-9]+::[a-zA-Z_][a-zA-Z0-9_]*::[a-zA-Z_][a-zA-Z0-9_]*$/] *)
Definition isValidCoinType (coinType : string) : bool :=
  let identifier := Seq (Class identifier_start) (Star (Class identifier_part)) in
  RegExp_test
    (Seq (Literal "0x")
       (Seq (Plus (Class hex_digit))
          (Seq (Literal "::") (Seq identifier (Seq (Literal "::") identifier)))))
    coinType.

(** [parts[parts.length - 1] || 'UNKNOWN'] *)
Definition getTokenSymbol (coinType : string) : string :=
  let parts := String_split "::" coinType in
  match last parts with
  | Some part => if bool_decide (part = "") then "UNKNOWN" else part
  | None => "UNKNOWN"
  end.

(** ** Sample data *)

(** A dev-inspect response carrying the four positional return values. *)
Definition quote_response (amountOut priceImpact feeAmount gasEstimate : string)
  : value :=
  VObject
    [("results",
      VArray
        [VObject
           [("returnValues",
             VArray [VArray [VString amountOut; VString "u64"];
                     VArray [VString priceImpact; VString "u64"];
                     VArray [VString feeAmount; VString "u64"];
                     VArray [VString gasEstimate; VString "u64"]])]])].

(** A response without results: no pool answers the pair. *)
Definition no_results : value := VObject [("effects", VObject [])].

(** A valid quote with the given output amount. *)
Definition quote_of_amountOut (amountOut : string) : QuoteResult.t :=
  {| QuoteResult.amountOut := VString amountOut;
     QuoteResult.amountIn := VString "1000";
     QuoteResult.priceImpact := "0.1";
     QuoteResult.feeAmount := VString "3";
     QuoteResult.gasEstimate := VString "150000";
     QuoteResult.poolId := "";
     QuoteResult.route := QuoteResult.route createEmptyQuote;
     QuoteResult.isValid := true;
     QuoteResult.slippageTolerance := of_Z 50 |}.

(** Worlds for the examples: the world is the clock, in milliseconds. *)
Definition clock (w : Z) : Z := w.

(** A gateway that cannot be reached: every call fails in transport. *)
Definition unreachable (call : MoveCall.t) (w : Z) : Completion value * Z :=
  (Throw (Error "fetch failed"), w + 40).

(** A gateway with two pools, A/USDC and USDC/B, and none for A/B; every
    call takes 40 ms. *)
Definition two_pools (call : MoveCall.t) (w : Z) : Completion value * Z :=
  let usdc := "0x2::test_usdc::TEST_USDC" in
  (if bool_decide (MoveCall.typeArguments call = ["A"; usdc])
   then Normal (quote_response "90" "0.1" "1" "150000")
   else if bool_decide (MoveCall.typeArguments call = [usdc; "B"])
   then Normal (quote_response "80" "0.2" "1" "150000")
   else Normal no_results,
   w + 40).

Definition A_to_B : QuoteParams.t :=
  {| QuoteParams.tokenIn := "A"; QuoteParams.tokenOut := "B";
     QuoteParams.amountIn := "100"; QuoteParams.poolId := None |}.

Definition fresh (w : Z) : state := State ∅ [] w.

(** The quote [parseContractQuoteResult] makes of a response with these
    return values, asked for 100 of A into B. *)
Definition quote_of_response (amountOut priceImpact feeAmount gasEstimate : string)
  : QuoteResult.t :=
  match parseContractQuoteResult
          (quote_response amountOut priceImpact feeAmount gasEstimate)
          "A" "B" (VString "100") with
  | Normal quote => quote
  | Throw _ => createEmptyQuote
  end.

(** The record [selectBestRoute] is given when the candidates are [routes]. *)
Definition candidates_only (routes : list QuoteResult.t) : MultiRouteQuote.t :=
  {| MultiRouteQuote.directRoute := None;
     MultiRouteQuote.singleHopRoutes := routes;
     MultiRouteQuote.multiHopRoutes := [];
     MultiRouteQuote.bestRoute := createEmptyQuote;
     MultiRouteQuote.alternativeRoutes := [] |}.

(** The two pools behind a gateway that fails in transport when asked for
    the pair A/B itself. *)
Definition two_pools_direct_unreachable (call : MoveCall.t) (w : Z)
  : Completion value * Z :=
  if bool_decide (MoveCall.typeArguments call = ["A"; "B"])
  then (Throw (Error "fetch failed"), w + 40)
  else two_pools call w.

(** ** Predicates of the statements *)

(** The hops lead from [tokenIn] to [tokenOut], each starting where the one
    before it ended. *)
Definition route_composition_invariant (tokenIn tokenOut : string)
    (route : SwapRoute.t) : Prop :=
  (exists first, SwapRoute.hops route !! 0%nat = Some first /\
                 RouteHop.tokenIn first = tokenIn) /\
  (exists final, last (SwapRoute.hops route) = Some final /\
                 RouteHop.tokenOut final = tokenOut) /\
  (forall i a b,
     SwapRoute.hops route !! i = Some a ->
     SwapRoute.hops route !! S i = Some b ->
     RouteHop.tokenOut a = RouteHop.tokenIn b).

(** The step of the [reduce] in [selectBestRoute], for any score. *)
Definition better {A : Type} (score : A -> number) (best current : A) : A :=
  if Number_gt (score current) (score best) then current else best.

(** From [s] to [s'] the cache was left alone and the console only grew. *)
Definition cache_kept {W : Type} (s s' : @state W) : Prop :=
  quoteCache s' = quoteCache s /\
  exists logged, console s' = console s ++ logged.

(** [route] was combined by [combineHops] from a valid first hop
    [tokenIn -> intermediate] and a valid second hop [intermediate -> tokenOut],
    each a parsed direct quote. *)
Definition combined_of_valid_hops (params : QuoteParams.t) (route : QuoteResult.t)
  : Prop :=
  exists intermediate firstHop secondHop hop1 hop2,
    route = combineHops params firstHop secondHop intermediate /\
    QuoteResult.isValid firstHop = true /\
    QuoteResult.isValid secondHop = true /\
    SwapRoute.hops (QuoteResult.route firstHop) = [hop1] /\
    RouteHop.tokenIn hop1 = QuoteParams.tokenIn params /\
    RouteHop.tokenOut hop1 = intermediate /\
    SwapRoute.hops (QuoteResult.route secondHop) = [hop2] /\
    RouteHop.tokenIn hop2 = intermediate /\
    RouteHop.tokenOut hop2 = QuoteParams.tokenOut params.

(** The levels of a price impact warning, in their order. *)
Definition level_rank (level : ImpactLevel) : nat :=
  match level with low => 0 | medium => 1 | high => 2 | extreme => 3 end.

(** Whether the character [c] occurs in [s]. *)
Fixpoint has_char (c : ascii) (s : string) : bool :=
  match s with
  | EmptyString => false
  | String c' s' => Ascii.eqb c c' || has_char c s'
  end.

(** Whether every character of [s] is of the class [member]. *)
Fixpoint all_chars (member : ascii -> bool) (s : string) : bool :=
  match s with
  | EmptyString => true
  | String c s' => member c && all_chars member s'
  end.

(** The strings a regular expression stands for. *)
Inductive in_language : RegExp -> string -> Prop :=
  | in_Epsilon : in_language Epsilon ""
  | in_Class member c : member c = true -> in_language (Class member) (String c "")
  | in_Seq r1 r2 s1 s2 :
      in_language r1 s1 -> in_language r2 s2 -> in_language (Seq r1 r2) (s1 +:+ s2)
  | in_Alt_l r1 r2 s : in_language r1 s -> in_language (Alt r1 r2) s
  | in_Alt_r r1 r2 s : in_language r2 s -> in_language (Alt r1 r2) s
  | in_Star_nil r : in_language (Star r) ""
  | in_Star_cons r s1 s2 :
      in_language r s1 -> in_language (Star r) s2 -> in_language (Star r) (s1 +:+ s2).

(** [[a-zA-Z_][a-zA-Z0-9_]*] *)
Definition is_identifier (s : string) : bool :=
  match s with
  | EmptyString => false
  | String c s' => identifier_start c && all_chars identifier_part s'
  end.

(** Whether [s] starts with a decimal digit. *)
Definition starts_with_digit (s : string) : bool :=
  match s with
  | String c _ => in_range "0" "9" c
  | EmptyString => false
  end.

(** * Properties *)

(** ** Rounding *)

Section rounding.

Local Open Scope Q_scope.

Lemma pow2_pos e : 0 < pow2 e.
Proof. apply Qpower_0_lt. reflexivity. Qed.

Lemma pow2_add a b : pow2 (a + b) == pow2 a * pow2 b.
Proof. apply Qpower_plus. discriminate. Qed.

Lemma pow2_le a b : (a <= b)%Z -> pow2 a <= pow2 b.
Proof. intros H. apply Qpower_le_compat_l; [exact H | discriminate]. Qed.

Lemma pow2_lt_inv a b : pow2 a < pow2 b -> (a < b)%Z.
Proof.
  intros H. destruct (Z_lt_le_dec a b) as [Hlt | Hle]; [exact Hlt |].
  apply pow2_le in Hle. lra.
Qed.

Lemma pow2_Z n : (0 <= n)%Z -> pow2 n == inject_Z (2 ^ n).
Proof. intros Hn. unfold pow2. rewrite Zpower_Qpower by exact Hn. reflexivity. Qed.

Lemma pow2_succ a : pow2 (a + 1) == 2 * pow2 a.
Proof. rewrite pow2_add. change (pow2 1) with 2. ring. Qed.

Lemma log2_bounds n : (0 < n)%Z ->
  pow2 (Z.log2 n) <= inject_Z n /\ inject_Z n < pow2 (Z.log2 n + 1).
Proof.
  intros Hn. destruct (Z.log2_spec n Hn) as [Hlo Hhi].
  pose proof (Z.log2_nonneg n).
  rewrite !pow2_Z by lia. rewrite <- Zle_Qle, <- Zlt_Qlt.
  replace (Z.log2 n + 1)%Z with (Z.succ (Z.log2 n)) by lia. split; assumption.
Qed.

Lemma Qnum_Qden x : x * inject_Z (Zpos (Qden x)) == inject_Z (Qnum x).
Proof. destruct x as [n d]. unfold Qeq, Qmult, inject_Z. simpl. lia. Qed.

Lemma Qnum_pos x : 0 < x -> (0 < Qnum x)%Z.
Proof. destruct x as [n d]. unfold Qlt. simpl. lia. Qed.

Lemma ilog2_spec x : 0 < x -> pow2 (ilog2 x) <= x /\ x < pow2 (ilog2 x + 1).
Proof.
  intros Hx. unfold ilog2.
  set (a := Z.log2 (Qnum x)). set (b := Z.log2 (Zpos (Qden x))).
  pose proof (Qnum_pos x Hx) as Hn.
  destruct (log2_bounds (Qnum x) Hn) as [Hna Hna'].
  destruct (log2_bounds (Zpos (Qden x)) eq_refl) as [Hdb Hdb'].
  fold a in Hna, Hna'. fold b in Hdb, Hdb'.
  pose proof (Qnum_Qden x) as Hxd.
  pose proof (pow2_pos a) as HA. pose proof (pow2_pos b) as HB.
  pose proof (pow2_succ a) as HA'. pose proof (pow2_succ b) as HB'.
  pose proof (pow2_pos (a - b)) as HE.
  assert (pow2 (a - b) * pow2 b == pow2 a) as HEB.
  { rewrite <- pow2_add. replace (a - b + b)%Z with a by lia. reflexivity. }
  pose proof (pow2_succ (a - b)) as HE'.
  assert (pow2 (a - b - 1 + 1) == pow2 (a - b)) as HEm
    by (replace (a - b - 1 + 1)%Z with (a - b)%Z by lia; reflexivity).
  pose proof (pow2_succ (a - b - 1)) as HEm'. rewrite HEm in HEm'.
  pose proof (pow2_pos (a - b - 1)) as HEmp.
  destruct (Qle_bool (pow2 (a - b)) x) eqn:Hcmp.
  - apply Qle_bool_iff in Hcmp. split; [exact Hcmp |].
    rewrite HE'. nra.
  - assert (x < pow2 (a - b)) as Hlt.
    { apply Qnot_le_lt. intros Hle. apply Qle_bool_iff in Hle. congruence. }
    rewrite HEm. split; [| exact Hlt]. nra.
Qed.

Lemma rne_floor t : (Qfloor t <= rne t <= Qfloor t + 1)%Z.
Proof. unfold rne. destruct (Qcompare _ _); [destruct (Z.even _) | |]; lia. Qed.

Lemma rne_bounds t : t - (1 # 2) <= inject_Z (rne t) /\ inject_Z (rne t) <= t + (1 # 2).
Proof.
  unfold rne. pose proof (Qfloor_le t) as Hlo. pose proof (Qlt_floor t) as Hhi.
  rewrite inject_Z_plus in Hhi. change (inject_Z 1) with 1 in Hhi.
  destruct (Qcompare_spec (t - inject_Z (Qfloor t)) (1 # 2)) as [H | H | H].
  - destruct (Z.even _); rewrite ?inject_Z_plus; change (inject_Z 1) with 1; lra.
  - lra.
  - rewrite inject_Z_plus. change (inject_Z 1) with 1. lra.
Qed.

Lemma rne_mono t u : t <= u -> (rne t <= rne u)%Z.
Proof.
  intros Htu. pose proof (Qfloor_resp_le _ _ Htu) as Hf.
  pose proof (rne_floor t). pose proof (rne_floor u).
  destruct (Z.eq_dec (Qfloor t) (Qfloor u)) as [Heq | Hne]; [| lia].
  unfold rne in *. rewrite <- Heq in *.
  destruct (Qcompare_spec (t - inject_Z (Qfloor t)) (1 # 2)) as [Ht | Ht | Ht];
    destruct (Qcompare_spec (u - inject_Z (Qfloor t)) (1 # 2)) as [Hu | Hu | Hu];
    try destruct (Z.even _); try lia; lra.
Qed.

Lemma rne_Z t z : t == inject_Z z -> rne t = z.
Proof.
  intros Ht. unfold rne.
  assert (Qfloor t = z) as -> by (rewrite (Qfloor_comp _ _ Ht); apply Qfloor_Z).
  destruct (Qcompare_spec (t - inject_Z z) (1 # 2)) as [H | H | H];
    [lra | reflexivity | lra].
Qed.

Lemma round53_0 x : x == 0 -> round53 x = 0.
Proof. intros H. unfold round53. apply Qeq_bool_iff in H. rewrite H. reflexivity. Qed.

Lemma round53_eq x :
  ~ x == 0 ->
  round53 x = inject_Z (rne (x / pow2 (ulp_exponent x))) * pow2 (ulp_exponent x).
Proof.
  intros H. unfold round53.
  destruct (Qeq_bool x 0) eqn:E; [| reflexivity].
  apply Qeq_bool_iff in E. contradiction.
Qed.

Lemma round53_nonneg x : 0 <= x -> 0 <= round53 x.
Proof.
  intros Hx. unfold round53. destruct (Qeq_bool x 0); [lra |].
  pose proof (pow2_pos (ulp_exponent x)) as Hu.
  assert (0 <= x / pow2 (ulp_exponent x)) as Ht.
  { apply Qle_shift_div_l; [exact Hu | lra]. }
  apply rne_mono in Ht. rewrite (rne_Z 0 0) in Ht by reflexivity.
  apply Qmult_le_0_compat; [| lra].
  rewrite Zle_Qle in Ht. exact Ht.
Qed.

(** In the normal range the last place is 52 binary places below the first. *)
Lemma ulp_exponent_normal x :
  pow2 (-1022) <= x -> ulp_exponent x = (ilog2 x - 52)%Z.
Proof.
  intros Hx. pose proof (pow2_pos (-1022)) as Hp.
  assert (0 < x) as Hpos by lra.
  unfold ulp_exponent.
  assert (ilog2 (Qabs x) = ilog2 x) as ->.
  { destruct x as [[|n|n] d]; try reflexivity.
    unfold Qlt in Hpos. simpl in Hpos. lia. }
  destruct (ilog2_spec x Hpos) as [_ Hhi].
  assert (pow2 (-1022) < pow2 (ilog2 x + 1)) as Hlt by lra.
  apply pow2_lt_inv in Hlt. lia.
Qed.

Lemma round53_mono x y :
  x == 0 \/ pow2 (-1022) <= x -> x <= y -> round53 x <= round53 y.
Proof.
  intros [Hx | Hx] Hxy.
  { rewrite (round53_0 x Hx). apply round53_nonneg. lra. }
  pose proof (pow2_pos (-1022)) as Hp.
  assert (0 < x) as Hxpos by lra. assert (0 < y) as Hypos by lra.
  rewrite !round53_eq by lra.
  rewrite (ulp_exponent_normal x), (ulp_exponent_normal y) by lra.
  destruct (ilog2_spec x Hxpos) as [Hxlo Hxhi].
  destruct (ilog2_spec y Hypos) as [Hylo Hyhi].
  set (ex := ilog2 x) in *. set (ey := ilog2 y) in *.
  assert (ex <= ey)%Z as Hexy.
  { assert (pow2 ex < pow2 (ey + 1)) as H by lra. apply pow2_lt_inv in H. lia. }
  pose proof (pow2_pos (ex - 52)) as Hux. pose proof (pow2_pos (ey - 52)) as Huy.
  destruct (Z.eq_dec ex ey) as [Heq | Hne].
  - rewrite <- Heq in *.
    apply Qmult_le_compat_r; [| lra].
    rewrite <- Zle_Qle. apply rne_mono.
    apply Qle_shift_div_l; [exact Hux |].
    setoid_replace (x / pow2 (ex - 52) * pow2 (ex - 52)) with x
      using relation Qeq by (field; lra).
    exact Hxy.
  - (* different binades: a power of two separates the two results *)
    assert (ex + 1 <= ey)%Z as Hstep by lia.
    apply Qle_trans with (pow2 (ex + 1)).
    + assert (pow2 (ex + 1) == inject_Z (2 ^ 53) * pow2 (ex - 52)) as ->.
      { rewrite <- pow2_Z by lia. rewrite <- pow2_add. 
        replace (53 + (ex - 52))%Z with (ex + 1)%Z by lia. reflexivity. }
      apply Qmult_le_compat_r; [| lra].
      rewrite <- Zle_Qle.
      rewrite <- (rne_Z (inject_Z (2 ^ 53)) (2 ^ 53)) by reflexivity.
      apply rne_mono. apply Qle_shift_div_r; [exact Hux |].
      rewrite <- pow2_Z by lia. rewrite <- pow2_add.
      replace (53 + (ex - 52))%Z with (ex + 1)%Z by lia. lra.
    + apply Qle_trans with (pow2 ey); [apply pow2_le; lia |].
      assert (pow2 ey == inject_Z (2 ^ 52) * pow2 (ey - 52)) as ->.
      { rewrite <- pow2_Z by lia. rewrite <- pow2_add.
        replace (52 + (ey - 52))%Z with ey by lia. reflexivity. }
      apply Qmult_le_compat_r; [| lra].
      rewrite <- Zle_Qle.
      rewrite <- (rne_Z (inject_Z (2 ^ 52)) (2 ^ 52)) at 1 by reflexivity.
      apply rne_mono. apply Qle_shift_div_l; [exact Huy |].
      rewrite <- pow2_Z by lia. rewrite <- pow2_add.
      replace (52 + (ey - 52))%Z with ey by lia. lra.
Qed.

(** An integer below 2^53 is a binary64 number. *)
Lemma round53_safe_integer z :
  (0 <= z < 2 ^ 53)%Z -> round53 (inject_Z z) == inject_Z z.
Proof.
  intros Hz. destruct (Z.eq_dec z 0%Z) as [-> | Hne]; [reflexivity |].
  assert (1 <= inject_Z z) as H1 by (change 1 with (inject_Z 1); rewrite <- Zle_Qle; lia).
  assert (pow2 (-1022) <= inject_Z z) as Hnormal.
  { apply Qle_trans with (pow2 0); [apply pow2_le; lia | exact H1]. }
  rewrite round53_eq by lra. rewrite ulp_exponent_normal by exact Hnormal.
  destruct (ilog2_spec (inject_Z z)) as [Hlo Hhi]; [lra |].
  set (e := ilog2 (inject_Z z)) in *.
  assert (0 <= e <= 52)%Z as He.
  { split.
    - assert (pow2 0 < pow2 (e + 1)) as H by (change (pow2 0) with 1; lra).
      apply pow2_lt_inv in H. lia.
    - assert (inject_Z z < pow2 53) as Hz53.
      { rewrite pow2_Z by lia. rewrite <- Zlt_Qlt. lia. }
      assert (pow2 e < pow2 53) as H by lra. apply pow2_lt_inv in H. lia. }
  pose proof (pow2_pos (e - 52)) as Hu.
  assert (pow2 (52 - e) * pow2 (e - 52) == 1) as Hinv.
  { rewrite <- pow2_add. replace (52 - e + (e - 52))%Z with 0%Z by lia. reflexivity. }
  rewrite (rne_Z _ (z * 2 ^ (52 - e))).
  - rewrite inject_Z_mult, <- pow2_Z by lia.
    rewrite <- Qmult_assoc, Hinv. ring.
  - rewrite inject_Z_mult, <- pow2_Z by lia.
    apply Qmult_inj_r with (pow2 (e - 52)); [lra |].
    rewrite <- Qmult_assoc, Hinv. field. lra.
Qed.

(** In the normal range rounding raises a number by at most one part in 2^53. *)
Lemma round53_upper x :
  pow2 (-1022) <= x -> round53 x <= x * (1 + pow2 (-53)).
Proof.
  intros Hx. pose proof (pow2_pos (-1022)) as Hp.
  rewrite round53_eq by lra. rewrite ulp_exponent_normal by exact Hx.
  destruct (ilog2_spec x) as [Hlo _]; [lra |].
  set (e := ilog2 x) in *.
  pose proof (pow2_pos (e - 52)) as Hu.
  destruct (rne_bounds (x / pow2 (e - 52))) as [_ Hr].
  assert (pow2 (e - 52) == 2 * (pow2 e * pow2 (-53))) as Hulp.
  { rewrite <- pow2_add, <- pow2_succ. replace (e + -53 + 1)%Z with (e - 52)%Z by lia.
    reflexivity. }
  pose proof (pow2_pos (-53)) as H53.
  apply Qle_trans with ((x / pow2 (e - 52) + (1 # 2)) * pow2 (e - 52)).
  { apply Qmult_le_compat_r; [exact Hr | lra]. }
  setoid_replace ((x / pow2 (e - 52) + (1 # 2)) * pow2 (e - 52))
    with (x + (1 # 2) * pow2 (e - 52)) using relation Qeq by (field; lra).
  rewrite Hulp. nra.
Qed.

Lemma ilog2_unique x e :
  0 < x -> pow2 e <= x -> x < pow2 (e + 1) -> ilog2 x = e.
Proof.
  intros Hx Hlo Hhi. destruct (ilog2_spec x Hx) as [Hlo' Hhi'].
  assert (pow2 e < pow2 (ilog2 x + 1)) as H1 by lra.
  assert (pow2 (ilog2 x) < pow2 (e + 1)) as H2 by lra.
  apply pow2_lt_inv in H1, H2. lia.
Qed.

Lemma ilog2_comp x y : 0 < x -> x == y -> ilog2 x = ilog2 y.
Proof.
  intros Hx Hxy. apply ilog2_unique; [exact Hx | |];
    destruct (ilog2_spec y) as [Hlo Hhi]; lra.
Qed.

Lemma rne_comp t u : t == u -> rne t = rne u.
Proof.
  intros Htu. unfold rne. rewrite (Qfloor_comp _ _ Htu).
  assert (t - inject_Z (Qfloor u) == u - inject_Z (Qfloor u)) as H by lra.
  rewrite (Qcompare_comp _ _ H _ _ (Qeq_refl (1 # 2))). reflexivity.
Qed.

Lemma ulp_exponent_comp x y : ~ x == 0 -> x == y -> ulp_exponent x = ulp_exponent y.
Proof.
  intros Hx Hxy. unfold ulp_exponent. f_equal. f_equal.
  apply ilog2_comp; [| rewrite Hxy; reflexivity].
  apply Qabs_case; intros H;
    destruct (Qlt_le_dec 0 x), (Qlt_le_dec x 0); try lra; exfalso; apply Hx; lra.
Qed.

(** Rounding depends on the value only, not on the fraction that denotes it. *)
Lemma round53_comp x y : x == y -> round53 x == round53 y.
Proof.
  intros Hxy. destruct (Qeq_dec x 0) as [Hx | Hx].
  - rewrite (round53_0 x Hx), (round53_0 y) by lra. reflexivity.
  - rewrite (round53_eq x Hx), (round53_eq y) by lra.
    rewrite <- (ulp_exponent_comp x y Hx Hxy).
    rewrite (rne_comp (x / pow2 (ulp_exponent x)) (y / pow2 (ulp_exponent x))).
    + reflexivity.
    + unfold Qdiv. apply Qmult_comp; [exact Hxy | reflexivity].
Qed.

(** [round53] is the rounding of the machine's binary64 arithmetic, on
    samples: quotients, a sum, the two roundings of [50 * (5800 / 10000)],
    ties between subnormal values, and an integer above [2^53]. *)
Example round53_binary64 :
  binary64_is (1 / 10) (round53 (1 # 10)) = true /\
  binary64_is (1 / 3) (round53 (1 # 3)) = true /\
  binary64_is (1 / 10 + 2 / 10)
    (round53 (round53 (1 # 10) + round53 (2 # 10))) = true /\
  binary64_is (50 * (5800 / 10000))
    (round53 (50 * round53 (5800 # 10000))) = true /\
  binary64_is (0x1p-1074 / 2) (round53 (pow2 (-1075))) = true /\
  binary64_is (0x1p-1074 * 3 / 2) (round53 (3 * pow2 (-1075))) = true /\
  binary64_is (0x1p-1074 * 5 / 2) (round53 (5 * pow2 (-1075))) = true /\
  binary64_is (0x1p53 + 1) (round53 (pow2 53 + 1)) = true /\
  binary64_is (0x1p53 + 3) (round53 (pow2 53 + 3)) = true.
Proof. repeat split; vm_compute; reflexivity. Qed.

End rounding.

(** ** Numerals: printing an integer and parsing it back *)

Lemma digit_value_digit_char d : 0 <= d < 10 -> digit_value (digit_char d) = Some d.
Proof.
  intros Hd.
  assert (d = 0 \/ d = 1 \/ d = 2 \/ d = 3 \/ d = 4 \/ d = 5 \/ d = 6 \/
          d = 7 \/ d = 8 \/ d = 9) as Hcases by lia.
  repeat (destruct Hcases as [-> | Hcases]; [reflexivity |]).
  by subst.
Qed.

Lemma radix_digit_digit_char d : 0 <= d < 10 -> radix_digit 10 (digit_char d) = Some d.
Proof.
  intros Hd. unfold radix_digit. rewrite digit_value_digit_char by done.
  destruct (Z.ltb_spec d 10); [done | lia].
Qed.

Lemma read_decimal_digits fuel : forall n rest,
  0 <= n < 10 ^ Z.of_nat (S fuel) ->
  exists k, 0 < k /\ forall acc,
    read_digits 10 (decimal_digits (S fuel) n rest) acc =
    read_digits 10 rest (Some (default 0 acc * 10 ^ k + n)).
Proof.
  induction fuel as [|fuel IH]; intros n rest Hn;
    assert (0 <= n mod 10 < 10) as Hmod by (apply Z.mod_pos_bound; lia);
    pose proof (Z.div_mod n 10 ltac:(lia)) as Hdm;
    cbn [decimal_digits];
    destruct (Z.eqb_spec (n / 10) 0) as [Hq | Hq].
  1, 3: exists 1; split; [lia |]; intros acc; cbn [read_digits];
      rewrite radix_digit_digit_char by done;
      do 2 f_equal; lia.
  - change (10 ^ Z.of_nat 1) with 10 in Hn.
    assert (n / 10 = 0) by (apply Z.div_small; lia). lia.
  - destruct (IH (n / 10) (String (digit_char (n mod 10)) rest)) as (k & Hk & Hread).
    { split; [apply Z.div_pos; lia |].
      apply Z.div_lt_upper_bound; [lia |].
      rewrite Nat2Z.inj_succ, Z.pow_succ_r in Hn; lia. }
    exists (k + 1). split; [lia |]. intros acc.
    cbn [decimal_digits] in Hread. rewrite Hread. cbn [read_digits].
    rewrite radix_digit_digit_char by done.
    do 2 f_equal. cbn [default]. rewrite Z.pow_add_r, Z.pow_1_r by lia.
    generalize (default 0 acc) (10 ^ k). intros a p. unfold id. nia.
Qed.

Lemma decimal_digits_head fuel : forall n rest,
  0 <= n ->
  exists d rest', 0 <= d < 10 /\ decimal_digits (S fuel) n rest = String (digit_char d) rest'.
Proof.
  induction fuel as [|fuel IH]; intros n rest Hn; cbn [decimal_digits];
    (assert (0 <= n mod 10 < 10) as Hmod by (apply Z.mod_pos_bound; lia));
    destruct (Z.eqb_spec (n / 10) 0) as [Hq | Hq]; eauto.
  apply IH. apply Z.div_pos; lia.
Qed.

Lemma numeral_fuel n : 0 <= n -> n < 10 ^ Z.of_nat (S (Z.to_nat (Z.log2 n))).
Proof.
  intros Hn. rewrite Nat2Z.inj_succ, Z2Nat.id by apply Z.log2_nonneg.
  destruct (Z.eq_dec n 0) as [-> | Hne]; [done |].
  pose proof (Z.log2_spec n ltac:(lia)) as [_ Hlt].
  eapply Z.lt_le_trans; [exact Hlt |].
  apply Z.pow_le_mono_l. lia.
Qed.

Lemma read_nat_numeral n :
  0 <= n -> read_digits 10 (nat_numeral n) None = (Some n, "").
Proof.
  intros Hn. unfold nat_numeral.
  destruct (read_decimal_digits _ n "" (conj Hn (numeral_fuel n Hn))) as (k & _ & ->).
  cbn. done.
Qed.

Lemma digit_char_plain d :
  0 <= d < 10 ->
  is_white_space (digit_char d) = false /\
  Ascii.eqb (digit_char d) "-" = false /\
  Ascii.eqb (digit_char d) "+" = false.
Proof.
  intros Hd.
  assert (d = 0 \/ d = 1 \/ d = 2 \/ d = 3 \/ d = 4 \/ d = 5 \/ d = 6 \/
          d = 7 \/ d = 8 \/ d = 9) as Hcases by lia.
  repeat (destruct Hcases as [-> | Hcases]; [done |]).
  by subst.
Qed.

(** After a leading digit a numeral goes on with a digit, never with [x]. *)
Lemma read_radix_nat_numeral n : 0 <= n -> read_radix (nat_numeral n) = (10, nat_numeral n).
Proof.
  intros Hn.
  pose proof (read_nat_numeral n Hn) as Hread.
  destruct (nat_numeral n) as [|c1 [|c2 s]] eqn:Hs; [done | done |].
  unfold read_radix.
  destruct (Ascii.eqb_spec c1 "0") as [-> | _]; [| done].
  destruct (Ascii.eqb_spec c2 "x") as [-> | _].
  { cbn in Hread. discriminate. }
  destruct (Ascii.eqb_spec c2 "X") as [-> | _].
  { cbn in Hread. discriminate. }
  done.
Qed.

Lemma parseInt_string_nat_numeral n :
  0 <= n -> parseInt_string (nat_numeral n) = Number_of (inject_Z n).
Proof.
  intros Hn. unfold parseInt_string.
  destruct (decimal_digits_head (Z.to_nat (Z.log2 n)) n "" Hn) as (d & rest & Hd & Hs).
  fold (nat_numeral n) in Hs.
  destruct (digit_char_plain d Hd) as (Hws & Hminus & Hplus).
  assert (trim_start (nat_numeral n) = nat_numeral n) as ->.
  { rewrite Hs. cbn. by rewrite Hws. }
  assert (read_sign (nat_numeral n) = (false, nat_numeral n)) as ->.
  { rewrite Hs. cbn. by rewrite Hminus, Hplus. }
  rewrite read_radix_nat_numeral, read_nat_numeral by done. done.
Qed.

(** [parseInt] reads the numeral of an integer as the Number nearest to it. *)
Lemma parseInt_string_numeral z :
  parseInt_string (numeral z) = Number_of (inject_Z z).
Proof.
  unfold numeral. destruct (Z.ltb_spec z 0) as [Hneg | Hpos];
    [| by apply parseInt_string_nat_numeral].
  unfold parseInt_string.
  assert (forall s, trim_start (String "-" s) = String "-" s) as -> by reflexivity.
  assert (forall s, read_sign (String "-" s) = (true, s)) as -> by reflexivity.
  rewrite read_radix_nat_numeral, read_nat_numeral by lia.
  cbn [fst apply_sign]. by rewrite Z.opp_involutive.
Qed.

(** ** Numbers below [2^53] *)

Lemma is_NaN_Number_of x : is_NaN (Number_of x) = false.
Proof. unfold Number_of. by repeat case_match. Qed.

(** A result that is a non-negative integer below [2^53] is not rounded. *)
Lemma Number_of_safe x z :
  0 <= z < 2 ^ 53 -> (x == inject_Z z)%Q -> Number_of x = of_Z z.
Proof.
  intros Hz Hx.
  assert (round53 x == inject_Z z)%Q as Hr.
  { rewrite (round53_comp _ _ Hx). by apply round53_safe_integer. }
  assert (inject_Z z < pow2 1024)%Q as Hlt.
  { apply Qlt_le_trans with (pow2 53); [| apply pow2_le; lia].
    rewrite pow2_Z by lia. rewrite <- Zlt_Qlt. lia. }
  assert (0 <= inject_Z z)%Q as Hge.
  { change 0%Q with (inject_Z 0). rewrite <- Zle_Qle. lia. }
  pose proof (pow2_pos 1024) as Hp.
  unfold Number_of.
  destruct (Qle_bool (pow2 1024) (round53 x)) eqn:Hhi.
  { apply Qle_bool_iff in Hhi. lra. }
  destruct (Qle_bool (round53 x) (- pow2 1024)) eqn:Hlo.
  { apply Qle_bool_iff in Hlo. lra. }
  unfold of_Z. f_equal. apply Qc_is_canon. unfold Q2Qc, Qc_of_Z. cbn [this].
  by rewrite Qred_correct.
Qed.

Lemma this_Qc_of_Z z : (this (Qc_of_Z z) == inject_Z z)%Q.
Proof. reflexivity. Qed.

Lemma parseInt_numeral z :
  0 <= z < 2 ^ 53 -> parseInt (VString (numeral z)) = of_Z z.
Proof.
  intros Hz. unfold parseInt. cbn [ToString].
  rewrite parseInt_string_numeral. by apply Number_of_safe.
Qed.

Lemma Number_toString_of_Z z :
  Z.abs z < 2 ^ 53 -> Number_toString (of_Z z) = numeral z.
Proof.
  intros Hz. unfold Number_toString, of_Z, is_safe_integer.
  assert (Qnum (Qc_of_Z z) = z /\ Qden (Qc_of_Z z) = 1%positive) as [-> ->].
  { done. }
  destruct (Z.ltb_spec (Z.abs z) (2 ^ 53)); [done | lia].
Qed.

Lemma Number_add_of_Z a b :
  0 <= a + b < 2 ^ 53 -> Number_add (of_Z a) (of_Z b) = of_Z (a + b).
Proof.
  intros Hab. unfold of_Z at 1 2. cbn [Number_add].
  apply Number_of_safe; [done |].
  by rewrite !this_Qc_of_Z, inject_Z_plus.
Qed.

(** Printing, on samples: positional and exponent notation, the digits of a
    rounded product, the smallest Number and an overflow; integers print the
    same through the search for the shortest decimal. *)
Example Number_toString_samples :
  Number_toString (Number_div (of_Z 1) (of_Z 3)) = "0.3333333333333333" /\
  Number_toString (Number_div (of_Z (-5)) (of_Z 1000)) = "-0.005" /\
  Number_toString (Number_mul (of_Z 50) (Number_div (of_Z 5800) (of_Z 10000))) =
    "28.999999999999996" /\
  Number_toString (decimal 123456 (-3)) = "123.456" /\
  Number_toString (decimal 1 21) = "1e+21" /\
  Number_toString (decimal 1 (-7)) = "1e-7" /\
  Number_toString (decimal 5 (-324)) = "5e-324" /\
  Number_toString (decimal 18 307) = "Infinity" /\
  Number_toString (parseInt_string "9007199254740993") = "9007199254740992" /\
  shortest_decimal 1500 = numeral 1500 /\
  shortest_decimal 9007199254740991 = numeral 9007199254740991.
Proof. repeat split; vm_compute; reflexivity. Qed.


(** ** The order of numbers *)

Lemma Number_lt_irrefl a : Number_lt a a = false.
Proof.
  destruct a as [|[]|q]; try done. cbn.
  apply bool_decide_eq_false. apply Qcle_not_lt, Qcle_refl.
Qed.

(** If [c] beats [b] and [j] does not, then [j] neither beats nor ties [c]. *)
Lemma Number_gt_overtaken b c j :
  Number_gt c b = true -> Number_gt j b = false ->
  Number_gt j c = false /\ Number_ge j c = false.
Proof.
  unfold Number_ge, Number_le, Number_gt.
  destruct b as [|[]|b], c as [|[]|c], j as [|[]|j]; cbn; try done.
  rewrite bool_decide_eq_true, bool_decide_eq_false.
  intros Hbc Hbj%Qcnot_lt_le.
  assert (j < c)%Qc as Hjc by (by eapply Qcle_lt_trans).
  rewrite bool_decide_eq_false, negb_false_iff, bool_decide_eq_true.
  split; [| done]. by apply Qcle_not_lt, Qclt_le_weak.
Qed.

Section reduce.
Context {A : Type} (score : A -> number).

Lemma reduce_snoc (f : A -> A -> A) first rest x :
  reduce f first (rest ++ [x]) = f (reduce f first rest) x.
Proof. unfold reduce. by rewrite fold_left_app. Qed.

Lemma reduce_better_first_maximum first rest :
  exists i, (first :: rest) !! i = Some (reduce (better score) first rest) /\
    forall j q, (first :: rest) !! j = Some q ->
      Number_gt (score q) (score (reduce (better score) first rest)) = false /\
      ((j < i)%nat ->
       Number_ge (score q) (score (reduce (better score) first rest)) = false).
Proof.
  induction rest as [|x rest IH] using rev_ind.
  - exists 0%nat. split; [done |]. intros [|j] q Hq; [| done].
    injection Hq as <-. split; [apply Number_lt_irrefl | lia].
  - destruct IH as (i & Hi & Hall). rewrite reduce_snoc.
    set (best := reduce (better score) first rest) in *.
    pose proof (lookup_lt_Some _ _ _ Hi) as Hlen.
    change (better score best x)
      with (if Number_gt (score x) (score best) then x else best).
    destruct (Number_gt (score x) (score best)) eqn:Hgt.
    + exists (length (first :: rest)). split.
      { by rewrite app_comm_cons, list_lookup_middle. }
      intros j q Hq. rewrite app_comm_cons in Hq.
      apply lookup_app_Some in Hq as [Hq | [Hj Hq]].
      * destruct (Hall j q Hq) as [Hle _].
        destruct (Number_gt_overtaken _ _ _ Hgt Hle). done.
      * apply list_lookup_singleton_Some in Hq as [_ <-].
        split; [apply Number_lt_irrefl | lia].
    + exists i. split.
      { rewrite app_comm_cons. by apply lookup_app_l_Some. }
      intros j q Hq. rewrite app_comm_cons in Hq.
      apply lookup_app_Some in Hq as [Hq | [Hj Hq]]; [by apply Hall |].
      apply list_lookup_singleton_Some in Hq as [_ <-].
      split; [done | lia].
Qed.
End reduce.


(** ** Minimum output *)

Section minimum_output.

Local Open Scope Q_scope.

(** The slippage multiplier [(10000 - s) / 10000] as a Number *)
Local Abbreviation multiplier s := (round53 (inject_Z (10000 - s) / 10000)).

Lemma Number_of_Num x :
  - pow2 1024 < round53 x -> round53 x < pow2 1024 ->
  Number_of x = Num (Q2Qc (round53 x)).
Proof.
  intros Hlo Hhi. unfold Number_of.
  destruct (Qle_bool (pow2 1024) (round53 x)) eqn:H1.
  { apply Qle_bool_iff in H1. lra. }
  destruct (Qle_bool (round53 x) (- pow2 1024)) eqn:H2.
  { apply Qle_bool_iff in H2. lra. }
  reflexivity.
Qed.

Lemma Number_sub_of_Z a b :
  (0 <= a - b < 2 ^ 53)%Z -> Number_sub (of_Z a) (of_Z b) = of_Z (a - b).
Proof.
  intros Hab. unfold Number_sub, of_Z at 1 2. cbn [Number_neg Number_add].
  apply Number_of_safe; [done |].
  unfold Qcopp, Q2Qc. cbn [this Qc_of_Z]. rewrite Qred_correct.
  unfold Z.sub. rewrite inject_Z_plus, inject_Z_opp. reflexivity.
Qed.

Lemma round53_1 : round53 1 == 1.
Proof. apply (round53_safe_integer 1). lia. Qed.

Lemma pow2_tiny e : (-1022 <= e)%Z -> pow2 (-1022) <= pow2 e.
Proof. apply pow2_le. Qed.

Lemma inject_Z_nonneg z : (0 <= z)%Z -> 0 <= inject_Z z.
Proof. intros Hz. change 0 with (inject_Z 0). by rewrite <- Zle_Qle. Qed.

Lemma inject_Z_ge_1 z : (1 <= z)%Z -> 1 <= inject_Z z.
Proof. intros Hz. change 1 with (inject_Z 1). by rewrite <- Zle_Qle. Qed.

Lemma multiplier_10000 : multiplier 10000 == 0.
Proof. reflexivity. Qed.

Lemma multiplier_0 : multiplier 0 == 1.
Proof. rewrite <- round53_1. by apply round53_comp. Qed.

Lemma multiplier_mono s1 s2 :
  (s1 <= s2 <= 10000)%Z -> multiplier s2 <= multiplier s1.
Proof.
  intros Hs. pose proof (pow2_tiny (-14) ltac:(lia)) as Htiny.
  assert (inject_Z (10000 - s2) <= inject_Z (10000 - s1)) as Hle
    by (rewrite <- Zle_Qle; lia).
  unfold Qdiv. change (/ 10000) with (1 # 10000).
  apply round53_mono; [| lra].
  destruct (Z.eq_dec s2 10000%Z) as [-> | Hne]; [by left | right].
  pose proof (inject_Z_ge_1 (10000 - s2) ltac:(lia)).
  apply Qle_trans with (pow2 (-14)); [exact Htiny |].
  change (pow2 (-14)) with (1 # 16384). lra.
Qed.

Lemma multiplier_range s :
  (0 <= s <= 10000)%Z ->
  multiplier s <= 1 /\ (multiplier s == 0 \/ pow2 (-14) <= multiplier s).
Proof.
  intros Hs. split.
  - rewrite <- multiplier_0. apply multiplier_mono. lia.
  - destruct (Z.eq_dec s 10000%Z) as [-> | Hne]; [by left | right].
    apply Qle_trans with (multiplier 9999); [by vm_compute |].
    apply multiplier_mono. lia.
Qed.

(** What [calculateMinimumOutput] multiplies and rounds. *)
Lemma scaled_amount_range a s :
  (0 <= a < 2 ^ 53)%Z -> (0 <= s <= 10000)%Z ->
  let x := inject_Z a * multiplier s in
  (x == 0 \/ pow2 (-1022) <= x) /\ 0 <= round53 x <= inject_Z a.
Proof.
  intros Ha Hs x.
  destruct (multiplier_range s Hs) as [Hle1 Hm].
  pose proof (inject_Z_nonneg a ltac:(lia)) as Ha0.
  pose proof (pow2_tiny (-14) ltac:(lia)) as Htiny.
  pose proof (pow2_pos (-14)) as H14. pose proof (pow2_pos (-1022)) as H1022.
  assert (x == 0 \/ pow2 (-1022) <= x) as Hx.
  { destruct (Z.eq_dec a 0%Z) as [-> | Hne]; [left; subst x; ring |].
    destruct Hm as [Hm | Hm]; [left; subst x; rewrite Hm; ring | right].
    pose proof (inject_Z_ge_1 a ltac:(lia)) as Ha1. subst x.
    apply Qle_trans with (1 * multiplier s); [lra |].
    apply Qmult_le_compat_r; [exact Ha1 | lra]. }
  split; [exact Hx |]. split.
  - apply round53_nonneg. destruct Hx as [Hx | Hx]; lra.
  - rewrite <- (round53_safe_integer a Ha). apply round53_mono; [exact Hx |].
    subst x. apply Qle_trans with (inject_Z a * 1); [| lra].
    rewrite !(Qmult_comm (inject_Z a)). by apply Qmult_le_compat_r.
Qed.

Lemma calculateMinimumOutput_value (quote : QuoteResult.t) (a s : Z) :
  parseInt (QuoteResult.amountOut quote) = of_Z a ->
  (0 <= a < 2 ^ 53)%Z -> (0 <= s <= 10000)%Z ->
  calculateMinimumOutput quote (of_Z s) =
  numeral (Qfloor (round53 (inject_Z a * multiplier s))).
Proof.
  intros Hquote Ha Hs. unfold calculateMinimumOutput.
  rewrite Hquote, Number_sub_of_Z by lia.
  unfold Number_div, of_Z.
  replace (Qc_is_zero (Qc_of_Z 10000)) with false by done.
  cbn [this Qc_of_Z].
  destruct (multiplier_range s Hs) as [Hle1 Hm].
  pose proof (pow2_pos 1024) as Hbig. pose proof (pow2_pos (-14)) as H14.
  assert (1 < pow2 1024) as Hone.
  { apply Qlt_le_trans with (pow2 1); [done | apply pow2_le; lia]. }
  change (inject_Z 10000) with 10000.
  rewrite Number_of_Num by (destruct Hm; lra).
  cbn [Number_mul this Q2Qc Qc_of_Z].
  destruct (scaled_amount_range a s Ha Hs) as (_ & Hlo & Hhi).
  assert (inject_Z a < pow2 1024) as Hsafe.
  { apply Qlt_le_trans with (pow2 53); [| apply pow2_le; lia].
    rewrite pow2_Z by lia. rewrite <- Zlt_Qlt. lia. }
  assert (round53 (inject_Z a * Qred (multiplier s)) ==
          round53 (inject_Z a * multiplier s)) as Hred.
  { apply round53_comp. by rewrite Qred_correct. }
  rewrite Number_of_Num by (rewrite Hred; lra).
  cbn [Math_floor this Q2Qc Qc_of_Z].
  rewrite (Qfloor_comp _ _ (Qred_correct _)), (Qfloor_comp _ _ Hred).
  apply Number_toString_of_Z.
  pose proof (Qfloor_resp_le _ _ Hlo) as Hf0.
  pose proof (Qfloor_resp_le _ _ Hhi) as Hfa.
  rewrite Qfloor_Z in Hfa. change (Qfloor 0) with 0%Z in Hf0. lia.
Qed.

End minimum_output.


(** ** Bin price *)

Lemma Math_pow_not_NaN base exponent :
  is_NaN base = false -> is_NaN (Math_pow base exponent) = false.
Proof.
  intros Hbase. unfold Math_pow.
  destruct (exponent =? 0); [done |].
  destruct base as [|negative|q]; [done | by destruct (exponent <? 0) |].
  destruct (Qc_is_zero q); [by destruct (0 <? exponent) |].
  apply is_NaN_Number_of.
Qed.

Lemma scaled_by_2_64_not_NaN price :
  is_NaN price = false ->
  is_NaN (Number_mul price (Math_pow (of_Z 2) 64)) = false.
Proof.
  assert (exists q, Math_pow (of_Z 2) 64 = Num q /\ Qc_is_zero q = false)
    as (q & -> & Hq)
    by (eexists; split; [vm_compute; reflexivity | by vm_compute]).
  destruct price as [|negative|p]; [done | |].
  - intros _. cbn. by rewrite Hq.
  - intros _. cbn [Number_mul]. apply is_NaN_Number_of.
Qed.


(** A result of [2^1024] or more is an infinity. *)
Lemma Number_of_overflow x : (pow2 1024 <= x)%Q -> Number_of x = Infinity false.
Proof.
  intros Hx. unfold Number_of.
  assert (round53 (pow2 1024) == pow2 1024)%Q as Hmax
    by (apply Qeq_bool_iff; by vm_compute).
  assert (pow2 1024 <= round53 x)%Q as Hround.
  { rewrite <- Hmax. apply round53_mono; [| exact Hx].
    right. apply pow2_le. lia. }
  apply Qle_bool_iff in Hround. by rewrite Hround.
Qed.

(** A power of a base whose eighth power reaches 2. *)
Lemma power_above_pow2 (q : Q) (n : Z) :
  (2 <= q ^ 8)%Q -> 0 <= n -> (pow2 n <= q ^ (8 * n))%Q.
Proof.
  intros Hq Hn. rewrite Qpower_mult.
  assert (q ^ 8 == 2 * (q ^ 8 / 2))%Q as -> by (field; lra).
  rewrite Qmult_power. fold (pow2 n).
  pose proof (pow2_pos n) as Hpos.
  assert (1 <= (q ^ 8 / 2) ^ n)%Q as Hrest.
  { apply Qpower_1_le; [| exact Hn]. apply Qle_shift_div_l; lra. }
  rewrite <- (Qmult_1_r (pow2 n)) at 1.
  rewrite !(Qmult_comm (pow2 n)). apply Qmult_le_compat_r; lra.
Qed.

(** At the far end of the range of bins the price is no finite Number: with
    the bin step 1000 the base is 1.1, and bin 100000 overflows. *)
Lemma calculateBinPrice_overflows :
  calculateBinPrice 100000 (of_Z 1000) = Normal "Infinity".
Proof.
  unfold calculateBinPrice.
  assert (exists q,
            Number_add (of_Z 1) (Number_div (of_Z 1000) (of_Z 10000)) = Num q /\
            Qc_is_zero q = false /\ (2 <= this q ^ 8)%Q)
    as (q & -> & Hq & Hbase)
    by (eexists; split; [vm_compute; reflexivity | split; by vm_compute]).
  unfold Math_pow at 1. change (100000 =? 0) with false. cbv iota. rewrite Hq.
  rewrite Number_of_overflow; [by vm_compute |].
  apply Qle_trans with (pow2 12500); [apply pow2_le; lia |].
  by apply (power_above_pow2 (this q) 12500).
Qed.

(** ** Parsing a dev-inspect response *)

Lemma optional_get_nullish v k : nullish v = true -> optional_get v k = VUndefined.
Proof. by destruct v. Qed.

Lemma get_not_nullish v k : nullish v = false -> get v k = Normal (optional_get v k).
Proof. by destruct v. Qed.

Lemma get_nullish v k : nullish v = true -> exists e, get v k = Throw e.
Proof. destruct v; try done; eauto. Qed.

(** What the parser returns, for every response. *)
Lemma parseContractQuoteResult_shape
    (result : value) (tokenIn tokenOut : string) (amountIn : value) :
  let returnValues :=
    optional_get (optional_get (optional_get result (Name "results")) (Index 0))
                 (Name "returnValues") in
  exists quote,
    parseContractQuoteResult result tokenIn tokenOut amountIn = Normal quote /\
    if truthy returnValues then
      QuoteResult.amountOut quote = returned returnValues 0 "0" /\
      QuoteResult.priceImpact quote = ToString (returned returnValues 1 "0") /\
      QuoteResult.feeAmount quote = returned returnValues 2 "0" /\
      QuoteResult.gasEstimate quote = returned returnValues 3 "150000" /\
      QuoteResult.isValid quote =
        Number_gt (parseInt (returned returnValues 0 "0")) (of_Z 0) /\
      SwapRoute.routeType (QuoteResult.route quote) = direct /\
      exists hop,
        SwapRoute.hops (QuoteResult.route quote) = [hop] /\
        RouteHop.tokenIn hop = tokenIn /\ RouteHop.tokenOut hop = tokenOut
    else quote = createEmptyQuote.
Proof.
  cbn zeta. unfold parseContractQuoteResult.
  destruct (nullish result) eqn:Hresult.
  { destruct (get_nullish result (Name "results") Hresult) as [e ->].
    rewrite (optional_get_nullish result) by done. cbn. eauto. }
  rewrite (get_not_nullish result) by done. cbn [bind].
  set (results := optional_get result (Name "results")).
  destruct (truthy (optional_get (optional_get results (Index 0)) (Name "returnValues")))
    eqn:Htruthy; [| cbn; eauto].
  assert (nullish results = false) as Hresults.
  { destruct (nullish results) eqn:Hn; [| done].
    by rewrite (optional_get_nullish results) in Htruthy. }
  set (first := optional_get results (Index 0)) in *.
  assert (nullish first = false) as Hfirst.
  { destruct (nullish first) eqn:Hn; [| done].
    by rewrite (optional_get_nullish first) in Htruthy. }
  cbn [bind]. rewrite (get_not_nullish results) by done.
  cbn [bind]. rewrite (get_not_nullish first) by done.
  cbn [bind try_catch]. eexists. split; [reflexivity |].
  cbn. repeat split. eauto.
Qed.

(** C8, amended.  [parseContractQuoteResult] never raises.  When
    [result.results?.[0]?.returnValues] is missing or falsy, also because
    [result] itself is [undefined] or [null], it returns the empty quote
    ([isValid = false], amounts 0).  Otherwise position [i] is
    [returnValues[i]?.[0]] taken as it is when truthy, whether well-formed
    or not, and the default (0, and 150000 for the gas estimate) when absent
    or falsy; [isValid] is [parseInt(amountOut) > 0]. *)
Theorem parseContractQuoteResult_never_raises
    (result : value) (tokenIn tokenOut : string) (amountIn : value) :
  let returnValues :=
    optional_get (optional_get (optional_get result (Name "results")) (Index 0))
                 (Name "returnValues") in
  let position (i : nat) (fallback : string) :=
    let payload := optional_get (property returnValues (Index i)) (Index 0) in
    if truthy payload then payload else VString fallback in
  exists quote,
    parseContractQuoteResult result tokenIn tokenOut amountIn = Normal quote /\
    if truthy returnValues then
      QuoteResult.amountOut quote = position 0%nat "0" /\
      QuoteResult.priceImpact quote = ToString (position 1%nat "0") /\
      QuoteResult.feeAmount quote = position 2%nat "0" /\
      QuoteResult.gasEstimate quote = position 3%nat "150000" /\
      QuoteResult.isValid quote =
        Number_gt (parseInt (position 0%nat "0")) (of_Z 0) /\
      SwapRoute.routeType (QuoteResult.route quote) = direct
    else quote = createEmptyQuote.
Proof.
  cbn zeta.
  destruct (parseContractQuoteResult_shape result tokenIn tokenOut amountIn)
    as (quote & Hquote & Hshape).
  exists quote. split; [done |].
  destruct (truthy _); [| done].
  destruct Hshape as (? & ? & ? & ? & ? & ? & _). done.
Qed.

(** C8 as stated fails: a malformed position is kept, not replaced by its
    default; and a response whose amount is malformed gives an invalid quote
    whose [amountOut] is that text, not 0. *)
Lemma parseContractQuoteResult_keeps_malformed :
  (exists quote,
     parseContractQuoteResult (quote_response "100" "0.1" "abc" "xyz")
       "A" "B" (VString "10") = Normal quote /\
     QuoteResult.feeAmount quote = VString "abc" /\
     QuoteResult.gasEstimate quote = VString "xyz" /\
     QuoteResult.isValid quote = true) /\
  (exists quote,
     parseContractQuoteResult (quote_response "abc" "0.1" "1" "150000")
       "A" "B" (VString "10") = Normal quote /\
     QuoteResult.amountOut quote = VString "abc" /\
     QuoteResult.isValid quote = false).
Proof. split; eexists; (split; [reflexivity |]); repeat split. Qed.

(** ** The quote cache *)

Section QuoterManager_facts.

Context {W : Type} (Date_now : W -> Z).
Context (devInspectTransactionBlock : MoveCall.t -> W -> Completion value * W).
Context (packageId factoryId : string).

Local Abbreviation getCachedQuote := (getCachedQuote Date_now).
Local Abbreviation cacheQuote := (cacheQuote Date_now).
Local Abbreviation get_quote_call := (get_quote_call packageId factoryId).
Local Abbreviation getContractQuote :=
  (getContractQuote devInspectTransactionBlock packageId factoryId).
Local Abbreviation singleHopQuote :=
  (singleHopQuote devInspectTransactionBlock packageId factoryId).
Local Abbreviation singleHopQuotes_loop :=
  (singleHopQuotes_loop devInspectTransactionBlock packageId factoryId).
Local Abbreviation getSingleHopQuotes :=
  (getSingleHopQuotes devInspectTransactionBlock packageId factoryId).
Local Abbreviation getMultiRouteQuotes :=
  (getMultiRouteQuotes devInspectTransactionBlock packageId factoryId).
Local Abbreviation getBestQuote :=
  (getBestQuote Date_now devInspectTransactionBlock packageId factoryId).

Lemma getCachedQuote_state key (s : state) : (getCachedQuote key s).2 = s.
Proof.
  unfold QuoterManager.getCachedQuote. destruct (quoteCache s !! key); [| done].
  by destruct (_ <? _).
Qed.

Lemma getCachedQuote_Some key (s : state) quote :
  (getCachedQuote key s).1 = Normal (Some quote) <->
  exists entry,
    quoteCache s !! key = Some entry /\ CacheEntry.quote entry = quote /\
    Date_now (world s) - CacheEntry.timestamp entry < CACHE_TTL.
Proof.
  unfold QuoterManager.getCachedQuote. split.
  - destruct (quoteCache s !! key) as [entry|]; [| done].
    destruct (Z.ltb_spec (Date_now (world s) - CacheEntry.timestamp entry) CACHE_TTL);
      [| done].
    cbn. intros [= <-]. eauto.
  - intros (entry & -> & <- & Hfresh).
    apply Z.ltb_lt in Hfresh. by rewrite Hfresh.
Qed.

(** C7.  For the cache key of every [(tokenIn, tokenOut, amountIn)]:
    [getCachedQuote] returns a quote exactly when the cache holds an entry for
    the key with that quote and [now - timestamp < 10000] ms; an entry of age
    10000 ms or more, like no entry, gives nothing, and a look-up changes no
    state; [cacheQuote] replaces whatever the key held by the quote stamped
    with the current time, leaves the other keys alone, and a look-up right
    after it returns the quote. *)
Theorem quote_cache_contract (params : QuoteParams.t) (quote : QuoteResult.t)
    (s : state) :
  let key := getCacheKey params in
  (forall cached,
     (getCachedQuote key s).1 = Normal (Some cached) <->
     exists entry,
       quoteCache s !! key = Some entry /\ CacheEntry.quote entry = cached /\
       Date_now (world s) - CacheEntry.timestamp entry < 10000) /\
  (forall entry,
     quoteCache s !! key = Some entry ->
     10000 <= Date_now (world s) - CacheEntry.timestamp entry ->
     getCachedQuote key s = (Normal None, s)) /\
  (quoteCache s !! key = None -> getCachedQuote key s = (Normal None, s)) /\
  (getCachedQuote key s).2 = s /\
  (exists s',
     cacheQuote key quote s = (Normal tt, s') /\
     quoteCache s' !! key =
       Some {| CacheEntry.quote := quote;
               CacheEntry.timestamp := Date_now (world s) |} /\
     (forall other, other <> key -> quoteCache s' !! other = quoteCache s !! other) /\
     world s' = world s /\
     (getCachedQuote key s').1 = Normal (Some quote)).
Proof.
  cbn zeta. split; [apply getCachedQuote_Some |].
  split.
  { intros entry Hentry Hstale. unfold QuoterManager.getCachedQuote. rewrite Hentry.
    destruct (Z.ltb_spec (Date_now (world s) - CacheEntry.timestamp entry) CACHE_TTL)
      as [Hlt | _]; [unfold CACHE_TTL in Hlt; lia | done]. }
  split.
  { intros Hnone. unfold QuoterManager.getCachedQuote. by rewrite Hnone. }
  split; [apply getCachedQuote_state |].
  eexists. split; [reflexivity |]. cbn [quoteCache world].
  split; [apply lookup_insert_eq |].
  split; [intros other Hother; by apply lookup_insert_ne |].
  split; [done |].
  apply getCachedQuote_Some. eexists. split; [apply lookup_insert_eq |].
  cbn. split; [done |]. unfold CACHE_TTL. lia.
Qed.


(** ** The enumerator *)

Lemma cache_kept_refl (s : @state W) : cache_kept s s.
Proof. split; [done |]. exists []. by rewrite app_nil_r. Qed.

Lemma cache_kept_trans (s1 s2 s3 : @state W) :
  cache_kept s1 s2 -> cache_kept s2 s3 -> cache_kept s1 s3.
Proof.
  intros [Hc1 [l1 Hl1]] [Hc2 [l2 Hl2]]. split; [congruence |].
  exists (l1 ++ l2). by rewrite Hl2, Hl1, app_assoc.
Qed.

Lemma getContractQuote_cases tokenIn tokenOut amountIn (s : state) :
  match devInspectTransactionBlock (get_quote_call tokenIn tokenOut amountIn)
          (world s) with
  | (Normal result, w) =>
      exists quote,
        parseContractQuoteResult result tokenIn tokenOut amountIn = Normal quote /\
        getContractQuote tokenIn tokenOut amountIn s =
          (Normal quote, State (quoteCache s) (console s) w)
  | (Throw e, w) =>
      getContractQuote tokenIn tokenOut amountIn s =
        (Throw (Error ("Contract quote failed: " +:+ exn_toString e)),
         State (quoteCache s)
               (console s ++ ["Error getting contract quote: " +:+ exn_toString e])
               w)
  end.
Proof.
  unfold QuoterManager.getContractQuote, try_catchM, bindM, devInspect, lift.
  destruct (devInspectTransactionBlock _ _) as [[result | e] w]; [| done].
  destruct (parseContractQuoteResult_shape result tokenIn tokenOut amountIn)
    as (quote & Hquote & _).
  exists quote. by rewrite Hquote.
Qed.

Lemma getContractQuote_outcome tokenIn tokenOut amountIn (s : state) :
  exists out s',
    getContractQuote tokenIn tokenOut amountIn s = (out, s') /\
    cache_kept s s' /\
    forall quote, out = Normal quote -> QuoteResult.isValid quote = true ->
      exists hop,
        SwapRoute.hops (QuoteResult.route quote) = [hop] /\
        RouteHop.tokenIn hop = tokenIn /\ RouteHop.tokenOut hop = tokenOut.
Proof.
  pose proof (getContractQuote_cases tokenIn tokenOut amountIn s) as Hcases.
  destruct (devInspectTransactionBlock _ _) as [[result | e] w].
  - destruct Hcases as (quote & Hparse & ->).
    eexists _, _. split; [done |]. split.
    { split; [done |]. exists []. cbn. by rewrite app_nil_r. }
    intros ? [= <-] Hvalid.
    destruct (parseContractQuoteResult_shape result tokenIn tokenOut amountIn)
      as (quote' & Hquote' & Hshape).
    rewrite Hparse in Hquote'. injection Hquote' as <-.
    destruct (truthy _).
    + by destruct Hshape as (_ & _ & _ & _ & _ & _ & Hhop).
    + by rewrite Hshape in Hvalid.
  - rewrite Hcases. eexists _, _. split; [done |]. split; [| done].
    split; [done |]. by eexists.
Qed.

Lemma singleHopQuote_outcome params intermediate (s : state) :
  exists out s',
    singleHopQuote params intermediate s = (out, s') /\
    cache_kept s s' /\
    forall route, out = Normal (Some route) -> combined_of_valid_hops params route.
Proof.
  unfold QuoterManager.singleHopQuote, bindM.
  destruct (getContractQuote_outcome (QuoteParams.tokenIn params) intermediate
              (VString (QuoteParams.amountIn params)) s)
    as (out1 & s1 & -> & Hkept1 & Hhop1).
  destruct out1 as [firstHop | e]; [| by eexists _, _].
  destruct (QuoteResult.isValid firstHop) eqn:Hvalid1; cbn [negb orb];
    [| by eexists _, _].
  destruct (Number_strict_eq _ _); [by eexists _, _ |].
  destruct (getContractQuote_outcome intermediate (QuoteParams.tokenOut params)
              (QuoteResult.amountOut firstHop) s1)
    as (out2 & s2 & -> & Hkept2 & Hhop2).
  pose proof (cache_kept_trans _ _ _ Hkept1 Hkept2).
  destruct out2 as [secondHop | e]; [| by eexists _, _].
  destruct (QuoteResult.isValid secondHop) eqn:Hvalid2; cbn [negb orb];
    [| by eexists _, _].
  destruct (Number_strict_eq _ _); [by eexists _, _ |].
  eexists _, _. split; [done |]. split; [done |].
  intros route [= <-].
  destruct (Hhop1 firstHop eq_refl Hvalid1) as (hop1 & ? & ? & ?).
  destruct (Hhop2 secondHop eq_refl Hvalid2) as (hop2 & ? & ? & ?).
  by exists intermediate, firstHop, secondHop, hop1, hop2.
Qed.

Lemma singleHopQuotes_loop_outcome params intermediateTokens :
  forall routes (s : state),
    Forall (combined_of_valid_hops params) routes ->
    exists routes' s',
      singleHopQuotes_loop params intermediateTokens routes s = (Normal routes', s') /\
      cache_kept s s' /\
      Forall (combined_of_valid_hops params) routes'.
Proof.
  induction intermediateTokens as [|intermediate rest IH]; intros routes s Hroutes.
  { eexists _, _. split; [done |]. split; [apply cache_kept_refl | done]. }
  cbn [QuoterManager.singleHopQuotes_loop].
  destruct (_ || _); [by apply IH |].
  unfold bindM, try_catchM.
  destruct (singleHopQuote_outcome params intermediate s)
    as (out & s1 & -> & Hkept1 & Hcombined).
  destruct out as [combinedRoute | e].
  - destruct (IH (routes ++ spread_optional combinedRoute) s1)
      as (routes' & s' & -> & Hkept & Hroutes').
    { apply Forall_app. split; [done |].
      destruct combinedRoute as [route|]; [| done].
      apply Forall_singleton. by apply Hcombined. }
    eexists _, _. split; [done |]. split; [| done].
    by eapply cache_kept_trans.
  - cbn [console_log ret].
    match goal with |- context [QuoterManager.singleHopQuotes_loop _ _ _ _ _ _ ?st] =>
      destruct (IH (routes ++ spread_optional None) st)
        as (routes' & s' & -> & Hkept & Hroutes') end.
    { cbn. by rewrite app_nil_r. }
    eexists _, _. split; [done |]. split; [| done].
    eapply cache_kept_trans; [exact Hkept1 |].
    eapply cache_kept_trans; [| exact Hkept].
    split; [done |]. by eexists.
Qed.

Lemma sort_insert_Forall {A} (P : A -> Prop) compare x l :
  P x -> Forall P l -> Forall P (sort_insert compare x l).
Proof.
  intros Hx. induction 1 as [|y l Hy Hl IH]; cbn [sort_insert].
  { by apply Forall_singleton. }
  destruct (Number_gt (compare x y) (of_Z 0)).
  - by apply Forall_cons.
  - apply Forall_cons. split; [done |]. by apply Forall_cons.
Qed.

Lemma Array_sort_Forall {A} (P : A -> Prop) compare l :
  Forall P l -> Forall P (Array_sort compare l).
Proof.
  induction 1 as [|x l Hx Hl IH]; [done |].
  cbn. by apply sort_insert_Forall.
Qed.

Lemma getSingleHopQuotes_outcome params (s : state) :
  exists routes s',
    getSingleHopQuotes params s = (Normal routes, s') /\
    cache_kept s s' /\
    Forall (combined_of_valid_hops params) routes.
Proof.
  unfold QuoterManager.getSingleHopQuotes, bindM.
  destruct (singleHopQuotes_loop_outcome params
              (getCommonIntermediateTokens packageId) [] s)
    as (routes & s' & -> & Hkept & Hroutes); [done |].
  eexists _, _. split; [done |]. split; [done |].
  by apply Array_sort_Forall.
Qed.

Lemma combined_route_composition params route :
  combined_of_valid_hops params route ->
  QuoteResult.isValid route = true /\
  SwapRoute.routeType (QuoteResult.route route) = multi_hop /\
  length (SwapRoute.hops (QuoteResult.route route)) = 2%nat /\
  route_composition_invariant (QuoteParams.tokenIn params)
    (QuoteParams.tokenOut params) (QuoteResult.route route).
Proof.
  intros (X & firstHop & secondHop & hop1 & hop2 & -> & _ & _ & Hhops1 & Hin1 &
          Hout1 & Hhops2 & Hin2 & Hout2).
  cbn. rewrite Hhops1, Hhops2. cbn.
  repeat split; eauto.
  intros [|[|i]] a b; cbn; [| done | done].
  intros [= <-] [= <-]. congruence.
Qed.

(** C9.  [getSingleHopQuotes] always returns, and every quote it returns is
    a multi-hop quote whose first hop starts at the request's [tokenIn], whose
    last hop ends at its [tokenOut], and each of whose hops ends where the
    next one starts. *)
Theorem getSingleHopQuotes_route_composition (params : QuoteParams.t) (s : state) :
  exists routes s',
    getSingleHopQuotes params s = (Normal routes, s') /\
    Forall (fun quote =>
              SwapRoute.routeType (QuoteResult.route quote) = multi_hop /\
              route_composition_invariant (QuoteParams.tokenIn params)
                (QuoteParams.tokenOut params) (QuoteResult.route quote))
           routes.
Proof.
  destruct (getSingleHopQuotes_outcome params s) as (routes & s' & Hrun & _ & Hroutes).
  exists routes, s'. split; [done |].
  eapply Forall_impl; [exact Hroutes |].
  intros route Hroute. cbn beta.
  by destruct (combined_route_composition params route Hroute) as (_ & ? & _ & ?).
Qed.


(** ** The facade *)

Lemma selectBestRoute_in (multiRoute : MultiRouteQuote.t) :
  selectBestRoute multiRoute = createEmptyQuote \/
  In (selectBestRoute multiRoute)
     (spread_optional (MultiRouteQuote.directRoute multiRoute) ++
      MultiRouteQuote.singleHopRoutes multiRoute ++
      MultiRouteQuote.multiHopRoutes multiRoute).
Proof.
  unfold selectBestRoute.
  destruct (List.filter _ _) as [|first rest] eqn:Hfilter; [by left | right].
  destruct (reduce_better_first_maximum calculateRouteScore first rest)
    as (i & Hi & _).
  apply list_elem_of_lookup_2, list_elem_of_In in Hi.
  rewrite <- Hfilter in Hi. by apply filter_In in Hi as [? _].
Qed.

Lemma getMultiRouteQuotes_outcome params maxHops (s : state) :
  exists multiRoute s',
    getMultiRouteQuotes params maxHops s = (Normal multiRoute, s') /\
    cache_kept s s' /\
    MultiRouteQuote.multiHopRoutes multiRoute = [] /\
    forall e w,
      devInspectTransactionBlock
        (get_quote_call (QuoteParams.tokenIn params) (QuoteParams.tokenOut params)
           (VString (QuoteParams.amountIn params))) (world s) = (Throw e, w) ->
      MultiRouteQuote.directRoute multiRoute = None /\
      Forall (combined_of_valid_hops params)
             (MultiRouteQuote.singleHopRoutes multiRoute) /\
      In ("Direct route failed: " +:+
          exn_toString (Error ("Contract quote failed: " +:+ exn_toString e)))
         (console s').
Proof.
  unfold QuoterManager.getMultiRouteQuotes, try_catchM at 1, bindM at 1, try_catchM at 1,
    bindM at 1.
  pose proof (getContractQuote_cases (QuoteParams.tokenIn params)
                (QuoteParams.tokenOut params)
                (VString (QuoteParams.amountIn params)) s) as Hdirect.
  destruct (devInspectTransactionBlock _ _) as [[result | e] w] eqn:Hcall.
  - destruct Hdirect as (directQuote & _ & ->). cbn [ret].
    set (s1 := State (quoteCache s) (console s) w).
    assert (cache_kept s s1) as Hkept1.
    { split; [done |]. exists []. cbn. by rewrite app_nil_r. }
    assert (exists routes s',
              (if Number_ge maxHops (of_Z 2) then getSingleHopQuotes params
               else ret []) s1 = (Normal routes, s') /\ cache_kept s1 s')
      as (routes & s' & Hsingle & Hkept2).
    { destruct (Number_ge _ _).
      - destruct (getSingleHopQuotes_outcome params s1) as (r & s' & ? & ? & _).
        by exists r, s'.
      - exists [], s1. split; [done | apply cache_kept_refl]. }
    unfold bindM. rewrite Hsingle. cbn [ret].
    eexists _, _. split; [reflexivity |].
    split; [exact (cache_kept_trans _ _ _ Hkept1 Hkept2) |].
    split; [by destruct (_ <? _)%nat |]. intros e' w' [=].
  - rewrite Hdirect. cbn [console_log bindM ret].
    unfold bindM at 1. cbn [console_log ret].
    match goal with |- context [(if _ then _ else _) ?st] => set (s1 := st) end.
    assert (cache_kept s s1) as Hkept1.
    { split; [done |]. eexists. cbn. by rewrite <- app_assoc. }
    assert (exists routes s',
              (if Number_ge maxHops (of_Z 2) then getSingleHopQuotes params
               else ret []) s1 = (Normal routes, s') /\ cache_kept s1 s' /\
              Forall (combined_of_valid_hops params) routes)
      as (routes & s' & Hsingle & Hkept2 & Hroutes).
    { destruct (Number_ge _ _).
      - apply getSingleHopQuotes_outcome.
      - exists [], s1. split; [done |]. split; [apply cache_kept_refl | done]. }
    unfold bindM. rewrite Hsingle. cbn [ret].
    eexists _, _. split; [reflexivity |].
    split; [exact (cache_kept_trans _ _ _ Hkept1 Hkept2) |].
    split; [by destruct (_ <? _)%nat |].
    intros e' w' [= <- <-].
    split; [by destruct (_ <? _)%nat |].
    split; [by destruct (_ <? _)%nat |].
    destruct Hkept2 as [_ [logged ->]]. apply in_or_app. left.
    subst s1. cbn [console]. apply in_or_app. right. by left.
Qed.

Lemma getBestQuote_hit params options (s : state) cached :
  (getCachedQuote (getCacheKey params) s).1 = Normal (Some cached) ->
  getBestQuote params options s = (Normal cached, s).
Proof.
  intros Hhit. unfold QuoterManager.getBestQuote, try_catchM, bindM.
  pose proof (getCachedQuote_state (getCacheKey params) s) as Hstate.
  destruct (getCachedQuote _ s) as [out s0]. cbn in Hhit, Hstate. by subst.
Qed.

Lemma getBestQuote_miss params options (s : state) :
  (getCachedQuote (getCacheKey params) s).1 = Normal None ->
  exists multiRoute s1,
    getMultiRouteQuotes params (default (of_Z 3) (QuoteOptions.maxHops options)) s =
      (Normal multiRoute, s1) /\
    let quote :=
      enhanceQuote (selectBestRoute multiRoute)
        (default (of_Z 50) (QuoteOptions.slippageTolerance options))
        (default true (QuoteOptions.includeGasEstimate options)) in
    getBestQuote params options s =
      (Normal quote,
       State (<[getCacheKey params :=
                  {| CacheEntry.quote := quote;
                     CacheEntry.timestamp := Date_now (world s1) |}]>
                (quoteCache s1))
             (console s1) (world s1)).
Proof.
  intros Hmiss.
  destruct (getMultiRouteQuotes_outcome params
              (default (of_Z 3) (QuoteOptions.maxHops options)) s)
    as (multiRoute & s1 & Hmulti & _).
  exists multiRoute, s1. split; [done |]. cbn zeta.
  unfold QuoterManager.getBestQuote, try_catchM, bindM.
  pose proof (getCachedQuote_state (getCacheKey params) s) as Hstate.
  destruct (getCachedQuote _ s) as [out s0]. cbn in Hmiss, Hstate. subst.
  by rewrite Hmulti.
Qed.

Lemma getCachedQuote_outcome key (s : state) :
  (exists cached, (getCachedQuote key s).1 = Normal (Some cached)) \/
  (getCachedQuote key s).1 = Normal None.
Proof.
  unfold QuoterManager.getCachedQuote. destruct (quoteCache s !! key); [| by right].
  destruct (_ <? _); [left | right]; eauto.
Qed.

(** C10.  Whenever [getBestQuote] returns a quote, valid or not, the cache
    then holds it under the request's key in an entry younger than 10000 ms;
    and every later [getBestQuote] for that key, in any state whose cache
    still holds the entry while it is younger than 10000 ms, returns the same
    quote and leaves the state, the world and the console with it, as it was:
    the gateway is not asked. *)
Theorem getBestQuote_caches_result (params : QuoteParams.t)
    (options : QuoteOptions.t) (s s1 : state) (quote : QuoteResult.t) :
  getBestQuote params options s = (Normal quote, s1) ->
  exists entry,
    quoteCache s1 !! getCacheKey params = Some entry /\
    CacheEntry.quote entry = quote /\
    Date_now (world s1) - CacheEntry.timestamp entry < 10000 /\
    forall (options' : QuoteOptions.t) (s2 : state),
      quoteCache s2 !! getCacheKey params = Some entry ->
      Date_now (world s2) - CacheEntry.timestamp entry < 10000 ->
      getBestQuote params options' s2 = (Normal quote, s2).
Proof.
  intros Hrun.
  assert (exists entry,
            quoteCache s1 !! getCacheKey params = Some entry /\
            CacheEntry.quote entry = quote /\
            Date_now (world s1) - CacheEntry.timestamp entry < CACHE_TTL)
    as (entry & Hentry & Hquote & Hfresh).
  { destruct (getCachedQuote_outcome (getCacheKey params) s) as [[cached Hhit] | Hmiss].
    - rewrite (getBestQuote_hit _ _ _ _ Hhit) in Hrun. injection Hrun as -> ->.
      by apply getCachedQuote_Some.
    - destruct (getBestQuote_miss params options s Hmiss)
        as (multiRoute & s' & _ & Hbest).
      cbn zeta in Hbest. rewrite Hbest in Hrun. injection Hrun as <- <-.
      eexists. cbn [quoteCache world]. split; [apply lookup_insert_eq |].
      cbn. split; [done |]. unfold CACHE_TTL. lia. }
  exists entry. repeat split; try done.
  intros options' s2 Hentry2 Hfresh2.
  apply getBestQuote_hit, getCachedQuote_Some. by exists entry.
Qed.

End QuoterManager_facts.

(** The invalid quote an unreachable gateway leads to is cached and served
    again. *)
Lemma getBestQuote_caches_result_witness :
  let run :=
    getBestQuote clock unreachable "0x2" "0xf" A_to_B QuoteOptions.empty (fresh 0) in
  let quote := enhanceQuote createEmptyQuote (of_Z 50) true in
  exists entry,
    quoteCache run.2 !! getCacheKey A_to_B = Some entry /\
    CacheEntry.quote entry = quote /\
    clock (world run.2) - CacheEntry.timestamp entry < 10000 /\
    forall (options' : QuoteOptions.t) (s2 : state),
      quoteCache s2 !! getCacheKey A_to_B = Some entry ->
      clock (world s2) - CacheEntry.timestamp entry < 10000 ->
      getBestQuote clock unreachable "0x2" "0xf" A_to_B options' s2 =
        (Normal quote, s2).
Proof.
  apply (getBestQuote_caches_result clock unreachable "0x2" "0xf" A_to_B
           QuoteOptions.empty (fresh 0)).
  vm_compute. reflexivity.
Defined.

(** ** Scenarios *)

Example multi_hop_assembly :
  exists quote,
    (getSingleHopQuotes two_pools "0x2" "0xf" A_to_B (fresh 0)).1 = Normal [quote] /\
    QuoteResult.amountOut quote = VString "80" /\
    QuoteResult.feeAmount quote = VString "2" /\
    QuoteResult.gasEstimate quote = VString "300000" /\
    QuoteResult.priceImpact quote = "0.30000000000000004" /\
    length (SwapRoute.hops (QuoteResult.route quote)) = 2%nat.
Proof. eexists. split; [vm_compute; reflexivity | done]. Qed.

Example best_quote_through_intermediate :
  exists quote,
    (getBestQuote clock two_pools "0x2" "0xf" A_to_B QuoteOptions.empty (fresh 0)).1 =
      Normal quote /\
    QuoteResult.isValid quote = true /\
    QuoteResult.amountOut quote = VString "80" /\
    SwapRoute.routeType (QuoteResult.route quote) = multi_hop.
Proof. eexists. split; [vm_compute; reflexivity | done]. Qed.

(** Within the ten seconds the second call answers from the cache and leaves
    the state, console and world included, as it found it; after them it asks
    the gateway again. *)
Example cache_hit_then_expiry :
  let run :=
    getBestQuote clock unreachable "0x2" "0xf" A_to_B QuoteOptions.empty (fresh 0) in
  let later (ms : Z) := State (quoteCache run.2) (console run.2) ms in
  clock (world run.2) = 80 /\
  getBestQuote clock unreachable "0x2" "0xf" A_to_B QuoteOptions.empty
    (later 10079) = (run.1, later 10079) /\
  length (console run.2) = 4%nat /\
  length (console (getBestQuote clock unreachable "0x2" "0xf" A_to_B
                     QuoteOptions.empty (later 10080)).2) = 8%nat.
Proof. cbv zeta. repeat split; vm_compute; reflexivity. Qed.

Example selectBestRoute_tie_keeps_first :
  let first := quote_of_amountOut "100" in
  let second := combineHops A_to_B (quote_of_amountOut "70") first "X" in
  let multiRoute routes :=
    {| MultiRouteQuote.directRoute := None;
       MultiRouteQuote.singleHopRoutes := routes;
       MultiRouteQuote.multiHopRoutes := [];
       MultiRouteQuote.bestRoute := createEmptyQuote;
       MultiRouteQuote.alternativeRoutes := [] |} in
  selectBestRoute (multiRoute [first; first; quote_of_amountOut "99"]) = first /\
  selectBestRoute (multiRoute [quote_of_amountOut "99"; first]) = first /\
  selectBestRoute (multiRoute [createEmptyQuote]) = createEmptyQuote /\
  Number_toString (calculateRouteScore first) = "-153" /\
  Number_toString (calculateRouteScore second) = "-406".
Proof. cbv zeta. repeat split; vm_compute; reflexivity. Qed.

(** ** The position [route !== bestRoute] drops *)

Lemma filter_indexed (label : nat -> nat) (routes : list QuoteResult.t) :
  map snd (List.filter (fun entry : nat * QuoteResult.t => QuoteResult.isValid entry.2)
                       (imap (fun i route => (label i, route)) routes)) =
  List.filter (fun route => QuoteResult.isValid route) routes.
Proof.
  revert label. induction routes as [|route routes IH]; intros label; [done |].
  cbn. destruct (QuoteResult.isValid route); cbn; by rewrite <- (IH (label ∘ S)).
Qed.

Lemma reduce_indexed (first : nat * QuoteResult.t) rest :
  (reduce (fun best current : nat * QuoteResult.t =>
             if Number_gt (calculateRouteScore current.2) (calculateRouteScore best.2)
             then current else best) first rest).2 =
  reduce (better calculateRouteScore) first.2 (map snd rest) /\
  In (reduce (fun best current : nat * QuoteResult.t =>
                if Number_gt (calculateRouteScore current.2)
                             (calculateRouteScore best.2)
                then current else best) first rest) (first :: rest).
Proof.
  revert first. induction rest as [|current rest IH]; intros first.
  { split; [done | by left]. }
  unfold reduce in *. cbn [fold_left map].
  destruct (IH (if Number_gt (calculateRouteScore current.2)
                             (calculateRouteScore first.2)
                then current else first)) as [Hsnd Hin].
  split.
  - rewrite Hsnd. f_equal. unfold better. by destruct (Number_gt _ _).
  - destruct Hin as [<- | Hin]; [| right; by right].
    destruct (Number_gt _ _); [right; by left | by left].
Qed.

Lemma selected_position_selects (routes : list QuoteResult.t) (i : nat) :
  selected_position routes = Some i ->
  routes !! i =
    Some (selectBestRoute
            {| MultiRouteQuote.directRoute := None;
               MultiRouteQuote.singleHopRoutes := routes;
               MultiRouteQuote.multiHopRoutes := [];
               MultiRouteQuote.bestRoute := createEmptyQuote;
               MultiRouteQuote.alternativeRoutes := [] |}).
Proof.
  unfold selected_position, selectBestRoute.
  cbn [MultiRouteQuote.directRoute MultiRouteQuote.singleHopRoutes
       MultiRouteQuote.multiHopRoutes spread_optional app].
  rewrite app_nil_r, <- (filter_indexed id routes).
  change (imap (fun i route => (id i, route)) routes) with (imap pair routes).
  destruct (List.filter _ (imap pair routes)) as [|first rest] eqn:Hfilter; [done |].
  intros [= <-]. cbn [map].
  destruct (reduce_indexed first rest) as [Hsnd Hin].
  change (reduce _ first.2 (map snd rest))
    with (reduce (better calculateRouteScore) first.2 (map snd rest)).
  rewrite <- Hsnd, <- Hfilter in *. apply filter_In in Hin as [Hin _].
  apply list_elem_of_In, elem_of_lookup_imap in Hin as (j & route & Heq & Hroute).
  by rewrite Heq.
Qed.

(** * Further properties *)

(** ** The order of numbers, continued *)

Lemma Number_lt_asym a b : Number_lt a b = true -> Number_lt b a = false.
Proof.
  destruct a as [|[]|p], b as [|[]|q]; cbn; try done.
  rewrite bool_decide_eq_true, bool_decide_eq_false.
  intros Hlt. by apply Qcle_not_lt, Qclt_le_weak.
Qed.

Lemma Number_le_refl a : is_NaN a = false -> Number_le a a = true.
Proof. intros Ha. unfold Number_le. by rewrite Ha, Number_lt_irrefl. Qed.

Lemma Number_lt_le a b : Number_lt a b = true -> Number_le a b = true.
Proof.
  intros Hlt. unfold Number_le. rewrite (Number_lt_asym a b Hlt).
  by destruct a, b.
Qed.

(** Two numbers, neither [NaN], compare one way or the other. *)
Lemma Number_lt_total a b :
  is_NaN a = false -> is_NaN b = false ->
  Number_lt a b = false -> Number_le b a = true.
Proof. intros Ha Hb Hlt. unfold Number_le. by rewrite Ha, Hb, Hlt. Qed.

Lemma Number_le_lt_trans a b c :
  Number_le a b = true -> Number_lt b c = true -> Number_lt a c = true.
Proof.
  unfold Number_le.
  destruct a as [|[]|p], b as [|[]|q], c as [|[]|r]; cbn; try done.
  rewrite negb_true_iff, bool_decide_eq_false, !bool_decide_eq_true.
  intros Hpq%Qcnot_lt_le Hqr. by eapply Qcle_lt_trans.
Qed.

Lemma Number_lt_le_trans a b c :
  Number_lt a b = true -> Number_le b c = true -> Number_lt a c = true.
Proof.
  unfold Number_le.
  destruct a as [|[]|p], b as [|[]|q], c as [|[]|r]; cbn; try done.
  rewrite negb_true_iff, bool_decide_eq_false, !bool_decide_eq_true.
  intros Hpq Hqr%Qcnot_lt_le. by eapply Qclt_le_trans.
Qed.

Lemma Number_le_trans a b c :
  Number_le a b = true -> Number_le b c = true -> Number_le a c = true.
Proof.
  unfold Number_le.
  destruct a as [|[]|p], b as [|[]|q], c as [|[]|r]; cbn; try done.
  rewrite !negb_true_iff, !bool_decide_eq_false.
  intros Hpq%Qcnot_lt_le Hqr%Qcnot_lt_le.
  apply Qcle_not_lt. by eapply Qcle_trans.
Qed.

Lemma Number_lt_of_Z a b : Number_lt (of_Z a) (of_Z b) = bool_decide (a < b).
Proof. cbn. apply bool_decide_ext. symmetry. apply Z2Qc_inj_lt. Qed.


(** ** Price impact *)

(** X1.  [analyzePriceImpact] passes the quote's price impact on unchanged,
    warns exactly when the level is above low, and rates a price impact that
    does not parse as a number as extreme.  The level is low below 0.1,
    extreme from 5 on, and it never falls when the price impact grows. *)
Theorem analyzePriceImpact_levels (quote quote' : QuoteResult.t) :
  let impact := parseFloat_string (QuoteResult.priceImpact quote) in
  let impact' := parseFloat_string (QuoteResult.priceImpact quote') in
  let warning := analyzePriceImpact quote in
  PriceImpactWarning.percentage warning = QuoteResult.priceImpact quote /\
  (PriceImpactWarning.shouldWarn warning = false <->
   PriceImpactWarning.level warning = low) /\
  (PriceImpactWarning.level warning = low <->
   Number_lt impact (decimal 1 (-1)) = true) /\
  (PriceImpactWarning.level warning = extreme <->
   Number_lt impact (of_Z 5) = false) /\
  (is_NaN impact = true -> PriceImpactWarning.level warning = extreme) /\
  (Number_le impact impact' = true ->
   (level_rank (PriceImpactWarning.level warning) <=
    level_rank (PriceImpactWarning.level (analyzePriceImpact quote')))%nat).
Proof.
  cbn zeta. unfold analyzePriceImpact.
  set (impact := parseFloat_string (QuoteResult.priceImpact quote)).
  set (impact' := parseFloat_string (QuoteResult.priceImpact quote')).
  assert (Number_lt (decimal 1 (-1)) (of_Z 1) = true) as H01 by (by vm_compute).
  assert (Number_lt (of_Z 1) (of_Z 5) = true) as H15 by (by vm_compute).
  assert (forall a b c, Number_lt a b = true -> Number_lt b c = true ->
                        Number_lt a c = true) as Htrans.
  { intros a b c Hab Hbc. eapply Number_lt_le_trans; [exact Hab |].
    by apply Number_lt_le. }
  assert (forall c, Number_lt impact c = false -> Number_le impact impact' = true ->
                    Number_lt impact' c = false) as Hup.
  { intros c Hc Hle. destruct (Number_lt impact' c) eqn:Hc'; [| done].
    by rewrite (Number_le_lt_trans _ _ _ Hle Hc') in Hc. }
  assert (is_NaN impact = true -> forall c, Number_lt impact c = false) as Hnan
    by (by destruct impact).
  generalize dependent (decimal 1 (-1)). intros tenth H01.
  generalize dependent (of_Z 5). intros five.
  generalize dependent (of_Z 1). intros one H01 H15.
  clearbody impact impact'.
  destruct (Number_lt impact tenth) eqn:H1.
  { pose proof (Htrans _ _ _ H1 H01) as H2. pose proof (Htrans _ _ _ H2 H15) as H3.
    cbn. split_and!; try done.
    - by rewrite H3.
    - intros Hn. by rewrite (Hnan Hn) in H1.
    - lia. }
  destruct (Number_lt impact one) eqn:H2.
  { pose proof (Htrans _ _ _ H2 H15) as H3.
    cbn. split_and!; try done.
    - by rewrite H3.
    - intros Hn. by rewrite (Hnan Hn) in H2.
    - intros Hle. rewrite (Hup _ H1 Hle).
      destruct (Number_lt impact' one); [cbn; lia |].
      destruct (Number_lt impact' five); cbn; lia. }
  destruct (Number_lt impact five) eqn:H3.
  { cbn. split_and!; try done.
    - intros Hn. by rewrite (Hnan Hn) in H3.
    - intros Hle. rewrite (Hup _ H1 Hle), (Hup _ H2 Hle).
      destruct (Number_lt impact' five); cbn; lia. }
  cbn. split_and!; try done.
  intros Hle. by rewrite (Hup _ H1 Hle), (Hup _ H2 Hle), (Hup _ H3 Hle).
Qed.
(** ** Slippage *)

Section slippage.

Local Open Scope Q_scope.

(** A result at or above a positive integer is a Number at or above it, or
    the positive infinity. *)
Lemma Number_of_lower (x : Q) (z : Z) :
  (1 <= z < 2 ^ 53)%Z -> inject_Z z <= x ->
  Number_of x = Infinity false \/
  exists r : Qc, Number_of x = Num r /\ inject_Z z <= this r.
Proof.
  intros Hz Hx.
  pose proof (inject_Z_ge_1 z ltac:(lia)) as H1.
  pose proof (pow2_pos 1024) as Hbig.
  assert (inject_Z z <= round53 x) as Hr.
  { rewrite <- (round53_safe_integer z) by lia. apply round53_mono; [| exact Hx].
    right. apply Qle_trans with (pow2 0); [apply pow2_le; lia | exact H1]. }
  unfold Number_of.
  destruct (Qle_bool (pow2 1024) (round53 x)); [by left |].
  destruct (Qle_bool (round53 x) (- pow2 1024)) eqn:Hneg.
  { apply Qle_bool_iff in Hneg. lra. }
  right. eexists. split; [reflexivity |].
  unfold Q2Qc. cbn [this]. by rewrite Qred_correct.
Qed.

Lemma Math_round_range (r : Qc) (lo hi : Z) :
  inject_Z lo <= this r -> this r <= inject_Z hi ->
  exists t : Z, Math_round (Num r) = of_Z t /\ (lo <= t <= hi)%Z.
Proof.
  intros Hlo Hhi. unfold Math_round. eexists. split; [reflexivity |].
  assert (this (r + Q2Qc (1 # 2))%Qc == this r + (1 # 2)) as Hsum.
  { unfold Qcplus, Q2Qc. cbn [this]. rewrite !Qred_correct. reflexivity. }
  rewrite (Qfloor_comp _ _ Hsum).
  split.
  - rewrite <- (Qfloor_Z lo). apply Qfloor_resp_le. lra.
  - assert (this r + (1 # 2) < inject_Z (hi + 1)) as Hlt.
    { rewrite inject_Z_plus. change (inject_Z 1) with 1. lra. }
    pose proof (Qfloor_le (this r + (1 # 2))) as Hfl.
    assert (inject_Z (Qfloor (this r + (1 # 2))) < inject_Z (hi + 1)) as H by lra.
    rewrite <- Zlt_Qlt in H. lia.
Qed.

(** What [calculateOptimalSlippage] recommends: 50 basis points, raised with
    a price impact above 1, and capped at 500. *)
Lemma calculateOptimalSlippage_tolerance (quote : QuoteResult.t) :
  exists t : Z,
    SlippageConfig.tolerance (calculateOptimalSlippage quote) = of_Z t /\
    (50 <= t <= 500)%Z /\
    (Number_gt (parseFloat_string (QuoteResult.priceImpact quote)) (of_Z 1) = false ->
     t = 50%Z).
Proof.
  unfold calculateOptimalSlippage. cbn [SlippageConfig.tolerance].
  set (impact := parseFloat_string (QuoteResult.priceImpact quote)).
  destruct (Number_gt impact (of_Z 1)) eqn:Hgt.
  2: { exists 50%Z. split; [| split; [lia | done]].
       unfold Math_round, of_Z. do 2 f_equal. }
  assert (exists r : Qc,
            Math_min (Number_add (of_Z 50) (Number_mul impact (of_Z 10))) (of_Z 500) =
              Num r /\ 60 <= this r /\ this r <= 500) as (r & -> & Hlo & Hhi).
  { assert (Number_mul impact (of_Z 10) = Infinity false \/
            exists r1 : Qc, Number_mul impact (of_Z 10) = Num r1 /\ 10 <= this r1)
      as Hmul.
    { destruct impact as [|[]|q]; try done; [by left |].
      unfold Number_gt, Number_lt, of_Z in Hgt. apply bool_decide_eq_true in Hgt.
      unfold Qclt in Hgt. cbn [this Qc_of_Z] in Hgt.
      unfold of_Z. cbn [Number_mul this Qc_of_Z].
      apply (Number_of_lower _ 10); [lia |].
      change (inject_Z 1) with 1 in Hgt. change (inject_Z 10) with 10. lra. }
    assert (Number_add (of_Z 50) (Number_mul impact (of_Z 10)) = Infinity false \/
            exists r2 : Qc,
              Number_add (of_Z 50) (Number_mul impact (of_Z 10)) = Num r2 /\
              60 <= this r2) as Hadd.
    { destruct Hmul as [-> | (r1 & -> & Hr1)]; [by left |].
      unfold of_Z. cbn [Number_add this Qc_of_Z].
      apply (Number_of_lower _ 60); [lia |].
      change (inject_Z 50) with 50. change (inject_Z 60) with 60. lra. }
    destruct Hadd as [-> | (r2 & -> & Hr2)].
    { exists (Qc_of_Z 500). split; [reflexivity |]. cbn [this Qc_of_Z].
      change (inject_Z 500) with 500. lra. }
    unfold Math_min. cbn [is_NaN of_Z orb].
    destruct (Number_lt (of_Z 500) (Num r2)) eqn:Hcap.
    - exists (Qc_of_Z 500). split; [done |]. cbn [this Qc_of_Z].
      change (inject_Z 500) with 500. lra.
    - exists r2. split; [done |]. split; [exact Hr2 |].
      unfold of_Z in Hcap. cbn [Number_lt] in Hcap.
      apply bool_decide_eq_false in Hcap.
      apply Qcnot_lt_le in Hcap. unfold Qcle in Hcap. exact Hcap. }
  destruct (Math_round_range r 60 500) as (t & -> & Ht); [done | done |].
  exists t. split; [done |]. split; [lia | done].
Qed.

Lemma Number_mul_of_Z a b :
  (0 <= a * b < 2 ^ 53)%Z -> Number_mul (of_Z a) (of_Z b) = of_Z (a * b).
Proof.
  intros Hab. unfold of_Z at 1 2. cbn [Number_mul].
  apply Number_of_safe; [done |].
  by rewrite !this_Qc_of_Z, inject_Z_mult.
Qed.

End slippage.

Lemma Math_max_upper a b :
  is_NaN a = false -> is_NaN b = false ->
  is_NaN (Math_max a b) = false /\
  Number_le a (Math_max a b) = true /\ Number_le b (Math_max a b) = true.
Proof.
  intros Ha Hb. unfold Math_max. rewrite Ha, Hb. cbn [orb].
  destruct (Number_lt a b) eqn:Hlt.
  - split; [done |]. split; [by apply Number_lt_le | by apply Number_le_refl].
  - split; [done |]. split; [by apply Number_le_refl | by apply Number_lt_total].
Qed.

(** X2.  The slippage [calculateOptimalSlippage] recommends is a whole number
    of basis points between 50 and 500, below the maximum of 1000 it reports;
    it is 50 unless the price impact parses to a number above 1, so also for
    a price impact that does not parse. *)
Theorem calculateOptimalSlippage_bounds (quote : QuoteResult.t) :
  let config := calculateOptimalSlippage quote in
  exists t : Z,
    SlippageConfig.tolerance config = of_Z t /\
    50 <= t <= 500 /\
    (Number_gt (parseFloat_string (QuoteResult.priceImpact quote)) (of_Z 1) = false ->
     t = 50) /\
    SlippageConfig.maxSlippage config = of_Z 1000 /\
    Number_lt (SlippageConfig.tolerance config) (SlippageConfig.maxSlippage config) =
      true /\
    SlippageConfig.autoSlippage config = true.
Proof.
  cbn zeta.
  destruct (calculateOptimalSlippage_tolerance quote) as (t & Ht & Hrange & Hbase).
  exists t. split_and!; [done | lia | lia | exact Hbase | done | | done].
  rewrite Ht.
  change (SlippageConfig.maxSlippage (calculateOptimalSlippage quote)) with (of_Z 1000).
  rewrite Number_lt_of_Z. apply bool_decide_eq_true. lia.
Qed.

(** X3.  [estimateGasForRoute] charges 100000 and 150000 for each hop: for a
    route of [n] hops, [n] below the [2^32] an array can hold, it returns the
    numeral of [100000 + 150000 * n]. *)
Theorem estimateGasForRoute_formula (route : SwapRoute.t) :
  Z.of_nat (length (SwapRoute.hops route)) < 2 ^ 32 ->
  estimateGasForRoute route =
  numeral (100000 + 150000 * Z.of_nat (length (SwapRoute.hops route))).
Proof.
  intros Hlen. unfold estimateGasForRoute.
  set (n := Z.of_nat (length (SwapRoute.hops route))) in *.
  assert (0 <= n) by lia.
  rewrite Number_mul_of_Z, Number_add_of_Z, Number_toString_of_Z by lia.
  f_equal. lia.
Qed.

(** A route of two hops. *)
Lemma estimateGasForRoute_formula_witness :
  estimateGasForRoute
    (QuoteResult.route
       (combineHops A_to_B (quote_of_amountOut "90") (quote_of_amountOut "80") "X")) =
  numeral (100000 + 150000 *
    Z.of_nat (length (SwapRoute.hops (QuoteResult.route
      (combineHops A_to_B (quote_of_amountOut "90") (quote_of_amountOut "80") "X"))))).
Proof. apply estimateGasForRoute_formula. by vm_compute. Defined.

(** ** The quoter, continued *)

Section QuoterManager_more.

Context {W : Type} (Date_now : W -> Z).
Context (devInspectTransactionBlock : MoveCall.t -> W -> Completion value * W).
Context (packageId factoryId : string).
Context (setTimeout : number -> W -> W).

Local Abbreviation getCachedQuote := (getCachedQuote Date_now).
Local Abbreviation cacheQuote := (cacheQuote Date_now).
Local Abbreviation get_quote_call := (get_quote_call packageId factoryId).
Local Abbreviation getContractQuote :=
  (getContractQuote devInspectTransactionBlock packageId factoryId).
Local Abbreviation getSingleHopQuotes :=
  (getSingleHopQuotes devInspectTransactionBlock packageId factoryId).
Local Abbreviation getMultiRouteQuotes :=
  (getMultiRouteQuotes devInspectTransactionBlock packageId factoryId).
Local Abbreviation getBestQuote :=
  (getBestQuote Date_now devInspectTransactionBlock packageId factoryId).
Local Abbreviation getDetailedQuote :=
  (getDetailedQuote Date_now devInspectTransactionBlock packageId factoryId).
Local Abbreviation simulateSwap :=
  (simulateSwap Date_now devInspectTransactionBlock packageId factoryId).
Local Abbreviation getQuoteWithRetry :=
  (getQuoteWithRetry Date_now devInspectTransactionBlock packageId factoryId
     setTimeout).


(** [getBestQuote] returns: from the cache, or what it made of the routes. *)
Lemma getBestQuote_returns params options (s : state) :
  exists quote s', getBestQuote params options s = (Normal quote, s').
Proof.
  destruct (getCachedQuote_outcome Date_now (getCacheKey params) s) as [[cached Hhit] | Hmiss].
  - eexists _, _. by apply getBestQuote_hit.
  - destruct (getBestQuote_miss Date_now devInspectTransactionBlock packageId factoryId
                params options s Hmiss) as (multiRoute & s1 & _ & Hbest).
    eexists _, _. exact Hbest.
Qed.

(** X6.  [getBestQuote] never raises, whatever the gateway does and whatever
    the cache holds: every failure of a gateway call is caught on the way and
    what is returned is a quote, possibly the invalid empty one. *)
Theorem getBestQuote_never_raises (params : QuoteParams.t)
    (options : QuoteOptions.t) (s : state) :
  exists quote s', getBestQuote params options s = (Normal quote, s').
Proof. apply getBestQuote_returns. Qed.

(** What [getMultiRouteQuotes] returns, in terms of the direct quote it
    found, if any, and the quotes through intermediates. *)
Lemma getMultiRouteQuotes_shape params maxHops (s : state) :
  exists directRoute singleHopQuotes s',
    let allRoutes := spread_optional directRoute ++ singleHopQuotes in
    getMultiRouteQuotes params maxHops s =
      (Normal
         {| MultiRouteQuote.directRoute := directRoute;
            MultiRouteQuote.singleHopRoutes := allRoutes;
            MultiRouteQuote.multiHopRoutes := [];
            MultiRouteQuote.bestRoute :=
              selectBestRoute
                {| MultiRouteQuote.directRoute := None;
                   MultiRouteQuote.singleHopRoutes := allRoutes;
                   MultiRouteQuote.multiHopRoutes := [];
                   MultiRouteQuote.bestRoute := createEmptyQuote;
                   MultiRouteQuote.alternativeRoutes := [] |};
            MultiRouteQuote.alternativeRoutes :=
              Array_sort by_amountOut_descending
                (match selected_position allRoutes with
                 | Some i => delete i allRoutes
                 | None => allRoutes
                 end) |},
       s') /\
    cache_kept s s' /\
    (forall d, directRoute = Some d ->
       QuoteResult.isValid d = true /\
       exists result,
         parseContractQuoteResult result (QuoteParams.tokenIn params)
           (QuoteParams.tokenOut params) (VString (QuoteParams.amountIn params)) =
         Normal d) /\
    Forall (combined_of_valid_hops params) singleHopQuotes /\
    (Number_ge maxHops (of_Z 2) = false -> singleHopQuotes = []).
Proof.
  assert (forall s1 : state, exists routes s',
            (if Number_ge maxHops (of_Z 2) then getSingleHopQuotes params
             else ret []) s1 = (Normal routes, s') /\ cache_kept s1 s' /\
            Forall (combined_of_valid_hops params) routes /\
            (Number_ge maxHops (of_Z 2) = false -> routes = []))
    as Hsingle.
  { intros s1. destruct (Number_ge _ _).
    - destruct (getSingleHopQuotes_outcome devInspectTransactionBlock packageId
                  factoryId params s1) as (r & s' & ? & ? & ?).
      by exists r, s'.
    - exists [], s1. split; [done |]. split; [apply cache_kept_refl | done]. }
  assert (forall (directRoute : option QuoteResult.t) routes,
            (if (0 <? length ((spread_optional directRoute ++ routes) ++ []))%nat
             then
               {| MultiRouteQuote.directRoute := directRoute;
                  MultiRouteQuote.singleHopRoutes := spread_optional directRoute ++ routes;
                  MultiRouteQuote.multiHopRoutes := [];
                  MultiRouteQuote.bestRoute :=
                    selectBestRoute
                      {| MultiRouteQuote.directRoute := None;
                         MultiRouteQuote.singleHopRoutes :=
                           (spread_optional directRoute ++ routes) ++ [];
                         MultiRouteQuote.multiHopRoutes := [];
                         MultiRouteQuote.bestRoute := createEmptyQuote;
                         MultiRouteQuote.alternativeRoutes := [] |};
                  MultiRouteQuote.alternativeRoutes :=
                    Array_sort by_amountOut_descending
                      (match selected_position
                               ((spread_optional directRoute ++ routes) ++ []) with
                       | Some i => delete i ((spread_optional directRoute ++ routes) ++ [])
                       | None => (spread_optional directRoute ++ routes) ++ []
                       end) |}
             else
               {| MultiRouteQuote.directRoute := directRoute;
                  MultiRouteQuote.singleHopRoutes := spread_optional directRoute ++ routes;
                  MultiRouteQuote.multiHopRoutes := [];
                  MultiRouteQuote.bestRoute := createEmptyQuote;
                  MultiRouteQuote.alternativeRoutes := [] |}) =
            {| MultiRouteQuote.directRoute := directRoute;
               MultiRouteQuote.singleHopRoutes := spread_optional directRoute ++ routes;
               MultiRouteQuote.multiHopRoutes := [];
               MultiRouteQuote.bestRoute :=
                 selectBestRoute
                   {| MultiRouteQuote.directRoute := None;
                      MultiRouteQuote.singleHopRoutes :=
                        spread_optional directRoute ++ routes;
                      MultiRouteQuote.multiHopRoutes := [];
                      MultiRouteQuote.bestRoute := createEmptyQuote;
                      MultiRouteQuote.alternativeRoutes := [] |};
               MultiRouteQuote.alternativeRoutes :=
                 Array_sort by_amountOut_descending
                   (match selected_position (spread_optional directRoute ++ routes) with
                    | Some i => delete i (spread_optional directRoute ++ routes)
                    | None => spread_optional directRoute ++ routes
                    end) |}) as Hrecord.
  { intros directRoute routes. rewrite app_nil_r.
    by destruct (spread_optional directRoute ++ routes). }
  unfold QuoterManager.getMultiRouteQuotes, try_catchM at 1, bindM at 1, try_catchM at 1,
    bindM at 1.
  pose proof (getContractQuote_cases devInspectTransactionBlock packageId factoryId
                (QuoteParams.tokenIn params) (QuoteParams.tokenOut params)
                (VString (QuoteParams.amountIn params)) s) as Hdirect.
  destruct (devInspectTransactionBlock _ _) as [[result | e] w] eqn:Hcall.
  - destruct Hdirect as (directQuote & Hparse & ->). cbn [ret].
    set (s1 := State (quoteCache s) (console s) w).
    assert (cache_kept s s1) as Hkept1.
    { split; [done |]. exists []. cbn. by rewrite app_nil_r. }
    destruct (Hsingle s1) as (routes & s' & Hroutes & Hkept2 & Hcombined & Hnone).
    unfold bindM. rewrite Hroutes. cbn [ret MultiRouteQuote.multiHopRoutes].
    rewrite Hrecord.
    eexists _, routes, s'. cbn zeta. split; [reflexivity |].
    split; [exact (cache_kept_trans _ _ _ Hkept1 Hkept2) |].
    split; [| done].
    intros d Hd. destruct (QuoteResult.isValid directQuote) eqn:Hvalid; [| done].
    injection Hd as <-. eauto.
  - rewrite Hdirect. cbn [console_log bindM ret].
    unfold bindM at 1. cbn [console_log ret].
    match goal with |- context [(if _ then _ else _) ?st] => set (s1 := st) end.
    assert (cache_kept s s1) as Hkept1.
    { split; [done |]. eexists. cbn. by rewrite <- app_assoc. }
    destruct (Hsingle s1) as (routes & s' & Hroutes & Hkept2 & Hcombined & Hnone).
    unfold bindM. rewrite Hroutes. cbn [ret MultiRouteQuote.multiHopRoutes].
    rewrite (Hrecord None).
    exists None, routes, s'. cbn zeta. split; [reflexivity |].
    split; [exact (cache_kept_trans _ _ _ Hkept1 Hkept2) |].
    split; [done | done].
Qed.

(** A valid direct quote listed twice is selected as if listed once. *)
Lemma selectBestRoute_direct_twice (d : QuoteResult.t) routes best alternatives :
  QuoteResult.isValid d = true ->
  selectBestRoute
    {| MultiRouteQuote.directRoute := Some d;
       MultiRouteQuote.singleHopRoutes := d :: routes;
       MultiRouteQuote.multiHopRoutes := [];
       MultiRouteQuote.bestRoute := best;
       MultiRouteQuote.alternativeRoutes := alternatives |} =
  selectBestRoute
    {| MultiRouteQuote.directRoute := None;
       MultiRouteQuote.singleHopRoutes := d :: routes;
       MultiRouteQuote.multiHopRoutes := [];
       MultiRouteQuote.bestRoute := createEmptyQuote;
       MultiRouteQuote.alternativeRoutes := [] |}.
Proof.
  intros Hvalid. unfold selectBestRoute.
  cbn [MultiRouteQuote.directRoute MultiRouteQuote.singleHopRoutes
       MultiRouteQuote.multiHopRoutes spread_optional app List.filter].
  rewrite Hvalid. unfold reduce. cbn [fold_left]. cbv zeta.
  assert (Number_gt (calculateRouteScore d) (calculateRouteScore d) = false) as ->
    by apply Number_lt_irrefl.
  done.
Qed.

(** X7.  The quote [getBestQuote] selects is the [bestRoute] that
    [getMultiRouteQuotes] reports: selecting over the returned record, in
    which a direct quote is listed twice, gives the route selected inside;
    on a cache miss [getBestQuote] returns that route, enhanced. *)
Theorem getBestQuote_takes_bestRoute (params : QuoteParams.t)
    (options : QuoteOptions.t) (maxHops : number) (s : state) :
  (exists multiRoute s',
     getMultiRouteQuotes params maxHops s = (Normal multiRoute, s') /\
     selectBestRoute multiRoute = MultiRouteQuote.bestRoute multiRoute) /\
  ((getCachedQuote (getCacheKey params) s).1 = Normal None ->
   exists multiRoute s',
     getMultiRouteQuotes params (default (of_Z 3) (QuoteOptions.maxHops options)) s =
       (Normal multiRoute, s') /\
     (getBestQuote params options s).1 =
       Normal (enhanceQuote (MultiRouteQuote.bestRoute multiRoute)
                 (default (of_Z 50) (QuoteOptions.slippageTolerance options))
                 (default true (QuoteOptions.includeGasEstimate options)))).
Proof.
  assert (forall maxHops, exists multiRoute s',
            getMultiRouteQuotes params maxHops s = (Normal multiRoute, s') /\
            selectBestRoute multiRoute = MultiRouteQuote.bestRoute multiRoute)
    as Hbest.
  { intros hops.
    destruct (getMultiRouteQuotes_shape params hops s)
      as (directRoute & routes & s' & Hmulti & _ & Hdirect & _).
    cbn zeta in Hmulti. eexists _, _. split; [exact Hmulti |].
    cbn [MultiRouteQuote.bestRoute].
    destruct directRoute as [d|]; [| done].
    destruct (Hdirect d eq_refl) as [Hvalid _].
    by apply selectBestRoute_direct_twice. }
  split; [apply Hbest |].
  intros Hmiss.
  destruct (Hbest (default (of_Z 3) (QuoteOptions.maxHops options)))
    as (multiRoute & s' & Hmulti & Hselect).
  exists multiRoute, s'. split; [done |].
  destruct (getBestQuote_miss Date_now devInspectTransactionBlock packageId factoryId
              params options s Hmiss) as (multiRoute' & s1 & Hmulti' & Hquote).
  cbn zeta in Hquote. rewrite Hquote. cbn [fst].
  rewrite Hmulti in Hmulti'. injection Hmulti' as <- <-. by rewrite Hselect.
Qed.

Lemma sort_insert_Permutation {A} (compare : A -> A -> number) x l :
  sort_insert compare x l ≡ₚ x :: l.
Proof.
  induction l as [|y l IH]; [done |]. cbn [sort_insert].
  destruct (Number_gt (compare x y) (of_Z 0)); [| done].
  rewrite IH. apply Permutation_swap.
Qed.

Lemma Array_sort_Permutation {A} (compare : A -> A -> number) l :
  Array_sort compare l ≡ₚ l.
Proof.
  induction l as [|x l IH]; [done |].
  unfold Array_sort in *. cbn [foldr]. by rewrite sort_insert_Permutation, IH.
Qed.

Lemma selected_position_valid (routes : list QuoteResult.t) :
  Forall (fun route => QuoteResult.isValid route = true) routes ->
  routes <> [] -> exists i, selected_position routes = Some i.
Proof.
  intros Hvalid Hne. destruct routes as [|route routes]; [done |].
  apply Forall_cons in Hvalid as [Hroute _].
  unfold selected_position. cbn [imap List.filter snd]. rewrite Hroute. eauto.
Qed.

(** X8.  [getMultiRouteQuotes] never raises, and accounts for every route it
    found once: all its [singleHopRoutes] are valid quotes, a direct quote
    leading them; if there is none, [bestRoute] is the empty quote and there
    are no alternatives; otherwise [bestRoute] with [alternativeRoutes] is a
    rearrangement of [singleHopRoutes]. *)
Theorem getMultiRouteQuotes_accounts_for_routes (params : QuoteParams.t)
    (maxHops : number) (s : state) :
  exists multiRoute s',
    getMultiRouteQuotes params maxHops s = (Normal multiRoute, s') /\
    Forall (fun route => QuoteResult.isValid route = true)
           (MultiRouteQuote.singleHopRoutes multiRoute) /\
    (forall d, MultiRouteQuote.directRoute multiRoute = Some d ->
       head (MultiRouteQuote.singleHopRoutes multiRoute) = Some d) /\
    match MultiRouteQuote.singleHopRoutes multiRoute with
    | [] =>
        MultiRouteQuote.bestRoute multiRoute = createEmptyQuote /\
        MultiRouteQuote.alternativeRoutes multiRoute = []
    | routes =>
        MultiRouteQuote.bestRoute multiRoute ::
        MultiRouteQuote.alternativeRoutes multiRoute ≡ₚ routes
    end.
Proof.
  destruct (getMultiRouteQuotes_shape params maxHops s)
    as (directRoute & routes & s' & Hmulti & _ & Hdirect & Hcombined & _).
  cbn zeta in Hmulti. eexists _, _. split; [exact Hmulti |].
  cbn [MultiRouteQuote.singleHopRoutes MultiRouteQuote.directRoute
       MultiRouteQuote.bestRoute MultiRouteQuote.alternativeRoutes].
  set (allRoutes := spread_optional directRoute ++ routes).
  assert (Forall (fun route => QuoteResult.isValid route = true) allRoutes) as Hvalid.
  { apply Forall_app. split.
    - destruct directRoute as [d|]; [| done]. apply Forall_singleton.
      by destruct (Hdirect d eq_refl).
    - eapply Forall_impl; [exact Hcombined |]. intros route Hroute.
      by destruct (combined_route_composition params route Hroute). }
  split; [done |]. split.
  { intros d ->. done. }
  destruct allRoutes as [|first rest] eqn:Hall; [done |].
  destruct (selected_position_valid (first :: rest) Hvalid) as [i Hi]; [done |].
  rewrite Hi, Array_sort_Permutation.
  symmetry. apply delete_Permutation.
  by apply selected_position_selects.
Qed.

(** X9.  [getSingleHopQuotes] never raises, tries the one intermediate
    [packageId::test_usdc::TEST_USDC], and so returns at most one route, a
    valid one of two hops.  When that token is the request's own [tokenIn] or
    [tokenOut] it returns no route and asks the gateway nothing: the state is
    as it was. *)
Theorem getSingleHopQuotes_single_intermediate (params : QuoteParams.t) (s : state) :
  let usdc := packageId +:+ "::test_usdc::TEST_USDC" in
  exists routes s',
    getSingleHopQuotes params s = (Normal routes, s') /\
    (length routes <= 1)%nat /\
    Forall (fun route =>
              QuoteResult.isValid route = true /\
              length (SwapRoute.hops (QuoteResult.route route)) = 2%nat) routes /\
    (QuoteParams.tokenIn params = usdc \/ QuoteParams.tokenOut params = usdc ->
     routes = [] /\ s' = s).
Proof.
  cbn zeta.
  unfold QuoterManager.getSingleHopQuotes, QuoterManager.getCommonIntermediateTokens.
  unfold bindM at 1. cbn [singleHopQuotes_loop].
  destruct (bool_decide (packageId +:+ "::test_usdc::TEST_USDC" =
                         QuoteParams.tokenIn params) ||
            bool_decide (packageId +:+ "::test_usdc::TEST_USDC" =
                         QuoteParams.tokenOut params)) eqn:Hskip.
  { exists [], s. split; [done |]. split; [cbn; lia |]. split; [done | done]. }
  apply orb_false_iff in Hskip as [Hin Hout].
  apply bool_decide_eq_false in Hin, Hout.
  unfold bindM at 1, try_catchM at 1.
  destruct (singleHopQuote_outcome devInspectTransactionBlock packageId factoryId
              params (packageId +:+ "::test_usdc::TEST_USDC") s)
    as (out & s1 & -> & _ & Hcombined).
  destruct out as [[route|]|e]; cbn.
  - eexists _, _. split; [reflexivity |]. split; [cbn; lia |].
    split; [| by intros [? | ?]].
    apply Forall_singleton.
    by destruct (combined_route_composition params route (Hcombined route eq_refl))
      as (? & _ & ? & _).
  - eexists _, _. split; [reflexivity |]. split; [cbn; lia |].
    split; [done | by intros [? | ?]].
  - eexists _, _. split; [reflexivity |]. split; [cbn; lia |].
    split; [done | by intros [? | ?]].
Qed.

(** X10.  [clearCache] empties the cache: after it every key misses, also
    the key of a quote stored just before, which until then was served; the
    console and the world are not touched. *)
Theorem clearCache_forgets (key key' : string) (quote : QuoteResult.t) (s : state) :
  let s1 := (cacheQuote key quote s).2 in
  let s2 := (clearCache s1).2 in
  getCachedQuote key s1 = (Normal (Some quote), s1) /\
  getCachedQuote key' s2 = (Normal None, s2) /\
  console s2 = console s /\ world s2 = world s.
Proof.
  cbn zeta. split; [| done].
  unfold QuoterManager.getCachedQuote, QuoterManager.cacheQuote.
  cbn [snd quoteCache world]. rewrite lookup_insert_eq.
  cbn [CacheEntry.timestamp CacheEntry.quote]. by rewrite Z.sub_diag.
Qed.

Lemma Number_gt_15_5 impact :
  Number_gt impact (of_Z 15) = true -> Number_gt impact (of_Z 5) = true.
Proof.
  unfold Number_gt. intros H15.
  eapply Number_lt_le_trans; [| apply Number_lt_le; exact H15].
  by vm_compute.
Qed.

(** X11.  [simulateSwap] never raises.  The quote it reports is the one
    [getBestQuote] returns.  It allows the swap exactly when it lists no
    error, which is exactly when the quote is valid, its output does not
    parse to zero and its price impact is not above 15; a price impact above
    15 is also warned about, the only warning there is. *)
Theorem simulateSwap_verdict (params : QuoteParams.t) (s : state) :
  exists result s',
    simulateSwap params s = (Normal result, s') /\
    getBestQuote params QuoteOptions.empty s =
      (Normal (SwapSimulation.quote result), s') /\
    let quote := SwapSimulation.quote result in
    let impact := parseFloat_string (QuoteResult.priceImpact quote) in
    (SwapSimulation.canExecute result = true <-> SwapSimulation.errors result = []) /\
    (SwapSimulation.canExecute result = true <->
     QuoteResult.isValid quote = true /\
     Number_strict_eq (parseInt (QuoteResult.amountOut quote)) (of_Z 0) = false /\
     Number_gt impact (of_Z 15) = false) /\
    SwapSimulation.warnings result =
      (if Number_gt impact (of_Z 5) then ["High price impact detected"] else []) /\
    (Number_gt impact (of_Z 15) = true ->
     SwapSimulation.warnings result = ["High price impact detected"]).
Proof.
  destruct (getBestQuote_returns params QuoteOptions.empty s) as (quote & s' & Hbest).
  unfold QuoterManager.simulateSwap, try_catchM, bindM. rewrite Hbest. cbn [ret].
  eexists _, s'. split; [reflexivity |].
  cbn [SwapSimulation.quote SwapSimulation.canExecute SwapSimulation.errors
       SwapSimulation.warnings].
  split; [done |].
  set (impact := parseFloat_string (QuoteResult.priceImpact quote)).
  pose proof (Number_gt_15_5 impact) as H15.
  destruct (QuoteResult.isValid quote),
    (Number_strict_eq (parseInt (QuoteResult.amountOut quote)) (of_Z 0)),
    (Number_gt impact (of_Z 15)) eqn:Hhigh;
    cbn [negb fst snd app]; cbv zeta;
    (split_and!;
     [intuition congruence | intuition congruence | done |
      intros Htrue; try done; by rewrite (H15 Htrue)]).
Qed.

(** X12.  [getQuoteWithRetry] never retries.  With [maxRetries] above 0 it
    is [getBestQuote]: the first attempt returns, no timer is set.  With any
    other [maxRetries], zero, negative or [NaN], it asks nothing and raises
    [Failed to get quote after ... retries: undefined], the state as it was. *)
Theorem getQuoteWithRetry_first_attempt (fuel : nat) (params : QuoteParams.t)
    (maxRetries : number) (s : state) :
  (Number_lt (of_Z 0) maxRetries = true ->
   exists quote s',
     getBestQuote params QuoteOptions.empty s = (Normal quote, s') /\
     getQuoteWithRetry (S fuel) params maxRetries s = (Normal (Some quote), s')) /\
  (Number_lt (of_Z 0) maxRetries = false ->
   getQuoteWithRetry (S fuel) params maxRetries s =
     (Throw (Error ("Failed to get quote after " +:+ Number_toString maxRetries +:+
                    " retries: undefined")), s)).
Proof.
  unfold QuoterManager.getQuoteWithRetry. cbn [getQuoteWithRetry_loop]. split.
  - intros ->. destruct (getBestQuote_returns params QuoteOptions.empty s)
      as (quote & s' & Hbest).
    exists quote, s'. split; [done |].
    unfold try_catchM, bindM. by rewrite Hbest.
  - by intros ->.
Qed.

(** X13.  [getDetailedQuote] never raises.  Its quote is the one
    [getBestQuote] returns, its analysis and its recommendation are those of
    this quote, and its alternatives, found by asking the gateway afresh, are
    all valid quotes. *)
Theorem getDetailedQuote_returns (params : QuoteParams.t) (s : state) :
  exists detailed s1 s',
    getDetailedQuote params s = (Normal detailed, s') /\
    getBestQuote params QuoteOptions.empty s =
      (Normal (DetailedQuote.quote detailed), s1) /\
    DetailedQuote.priceImpactAnalysis detailed =
      analyzePriceImpact (DetailedQuote.quote detailed) /\
    DetailedQuote.slippageRecommendation detailed =
      calculateOptimalSlippage (DetailedQuote.quote detailed) /\
    (exists multiRoute,
       getMultiRouteQuotes params (of_Z 3) s1 = (Normal multiRoute, s') /\
       DetailedQuote.alternativeRoutes detailed =
         MultiRouteQuote.alternativeRoutes multiRoute) /\
    Forall (fun route => QuoteResult.isValid route = true)
           (DetailedQuote.alternativeRoutes detailed).
Proof.
  destruct (getBestQuote_returns params QuoteOptions.empty s) as (quote & s1 & Hbest).
  destruct (getMultiRouteQuotes_shape params (of_Z 3) s1)
    as (directRoute & routes & s' & Hmulti & _ & Hdirect & Hcombined & _).
  cbn zeta in Hmulti.
  unfold QuoterManager.getDetailedQuote, bindM. rewrite Hbest, Hmulti. cbn [ret].
  eexists _, s1, s'. split; [reflexivity |].
  cbn [DetailedQuote.quote DetailedQuote.priceImpactAnalysis
       DetailedQuote.slippageRecommendation DetailedQuote.alternativeRoutes
       MultiRouteQuote.alternativeRoutes].
  split_and!; try done.
  { eexists. split; [exact Hmulti | done]. }
  apply Array_sort_Forall.
  assert (Forall (fun route => QuoteResult.isValid route = true)
                 (spread_optional directRoute ++ routes)) as Hvalid.
  { apply Forall_app. split.
    - destruct directRoute as [d|]; [| done]. apply Forall_singleton.
      by destruct (Hdirect d eq_refl).
    - eapply Forall_impl; [exact Hcombined |]. intros route Hroute.
      by destruct (combined_route_composition params route Hroute). }
  destruct (selected_position _); [by apply Forall_delete | done].
Qed.

End QuoterManager_more.
(** ** The cache key *)

Lemma app_String c s t : String c s +:+ t = String c (s +:+ t).
Proof. reflexivity. Qed.

Lemma app_empty_l t : "" +:+ t = t.
Proof. reflexivity. Qed.

Lemma app_hyphen_inj s1 : forall s2 r1 r2,
  has_char "-" s1 = false -> has_char "-" s2 = false ->
  s1 +:+ "-" +:+ r1 = s2 +:+ "-" +:+ r2 -> s1 = s2 /\ r1 = r2.
Proof.
  induction s1 as [|c s1 IH]; intros [|c' s2] r1 r2 H1 H2 Heq;
    rewrite ?app_empty_l, ?app_String, ?app_empty_l in Heq.
  - by injection Heq as <-.
  - injection Heq as <- _. by cbn in H2.
  - injection Heq as -> _. by cbn in H1.
  - injection Heq as -> Heq.
    cbn in H1, H2. apply orb_false_iff in H1 as [_ H1], H2 as [_ H2].
    destruct (IH s2 r1 r2 H1 H2 Heq) as [-> ->]. done.
Qed.

(** X14.  The cache key tells requests apart when no token type contains a
    hyphen, as no Move type does: two requests with the same key then have
    the same [tokenIn], [tokenOut] and [amountIn]. *)
Theorem getCacheKey_injective (params params' : QuoteParams.t) :
  has_char "-" (QuoteParams.tokenIn params) = false ->
  has_char "-" (QuoteParams.tokenOut params) = false ->
  has_char "-" (QuoteParams.tokenIn params') = false ->
  has_char "-" (QuoteParams.tokenOut params') = false ->
  getCacheKey params = getCacheKey params' ->
  QuoteParams.tokenIn params = QuoteParams.tokenIn params' /\
  QuoteParams.tokenOut params = QuoteParams.tokenOut params' /\
  QuoteParams.amountIn params = QuoteParams.amountIn params'.
Proof.
  intros Hin Hout Hin' Hout' Hkey. unfold getCacheKey in Hkey.
  apply app_hyphen_inj in Hkey as [Htoken Hrest]; [| done | done].
  apply app_hyphen_inj in Hrest as [Htoken' Hamount]; done.
Qed.

(** Two requests that differ in the pool asked for only. *)
Lemma getCacheKey_injective_witness :
  QuoteParams.tokenIn A_to_B =
    QuoteParams.tokenIn (QuoteParams.make "A" "B" "100" (Some "0x1")) /\
  QuoteParams.tokenOut A_to_B =
    QuoteParams.tokenOut (QuoteParams.make "A" "B" "100" (Some "0x1")) /\
  QuoteParams.amountIn A_to_B =
    QuoteParams.amountIn (QuoteParams.make "A" "B" "100" (Some "0x1")).
Proof.
  apply (getCacheKey_injective A_to_B (QuoteParams.make "A" "B" "100" (Some "0x1")));
    reflexivity.
Defined.

(** With a hyphen in a token the key is ambiguous. *)
Example getCacheKey_collision :
  getCacheKey (QuoteParams.make "a-b" "c" "1" None) =
  getCacheKey (QuoteParams.make "a" "b-c" "1" None).
Proof. reflexivity. Qed.

(** ** The client's [getQuote] *)

Section DLMMClient_facts.

Context {W : Type} (Date_now : W -> Z).
Context (devInspectTransactionBlock : MoveCall.t -> W -> Completion value * W).
Context (PACKAGE_ID FACTORY_ID : string).

Local Abbreviation getQuote :=
  (DLMMClient.getQuote Date_now devInspectTransactionBlock PACKAGE_ID FACTORY_ID).

(** X15.  [DLMMClient.getQuote] never raises.  It makes the quoter on first
    use and keeps it, so that the quote it returns is in that quoter's cache
    afterwards, in an entry younger than 10000 ms; and while the client holds
    that entry and it is younger than 10000 ms, [getQuote] returns the same
    quote for the request and changes nothing. *)
Theorem getQuote_reuses_quoter (params : QuoteParams.t) (c : DLMMClient.state) :
  exists quote c1 quoteCache entry,
    getQuote params c = (Normal quote, c1) /\
    DLMMClient._quoterManager c1 = Some quoteCache /\
    quoteCache !! getCacheKey params = Some entry /\
    CacheEntry.quote entry = quote /\
    Date_now (DLMMClient.world c1) - CacheEntry.timestamp entry < 10000 /\
    forall (c2 : DLMMClient.state) quoteCache2,
      DLMMClient._quoterManager c2 = Some quoteCache2 ->
      quoteCache2 !! getCacheKey params = Some entry ->
      Date_now (DLMMClient.world c2) - CacheEntry.timestamp entry < 10000 ->
      getQuote params c2 = (Normal quote, c2).
Proof.
  assert (forall quote entry (c2 : DLMMClient.state) quoteCache2,
            CacheEntry.quote entry = quote ->
            DLMMClient._quoterManager c2 = Some quoteCache2 ->
            quoteCache2 !! getCacheKey params = Some entry ->
            Date_now (DLMMClient.world c2) - CacheEntry.timestamp entry < 10000 ->
            getQuote params c2 = (Normal quote, c2)) as Hagain.
  { intros quote entry [manager console2 w2] quoteCache2 Hquote Hmanager Hentry Hfresh.
    cbn in Hmanager, Hfresh. subst manager.
    unfold DLMMClient.getQuote, DLMMClient.quoter.
    cbn [DLMMClient._quoterManager DLMMClient.console DLMMClient.world].
    rewrite (getBestQuote_hit Date_now devInspectTransactionBlock PACKAGE_ID FACTORY_ID
               params QuoteOptions.empty _ quote); [done |].
    apply getCachedQuote_Some. exists entry. by cbn. }
  unfold DLMMClient.getQuote.
  destruct (DLMMClient.quoter c) as [quoteCache c0] eqn:Hquoter.
  set (s := QuoterManager.State quoteCache (DLMMClient.console c0) (DLMMClient.world c0)).
  destruct (getCachedQuote_outcome Date_now (getCacheKey params) s)
    as [[cached Hhit] | Hmiss].
  - rewrite (getBestQuote_hit Date_now devInspectTransactionBlock PACKAGE_ID FACTORY_ID
               params QuoteOptions.empty s cached Hhit).
    apply getCachedQuote_Some in Hhit as (entry & Hentry & Hquote & Hfresh).
    eexists cached, _, quoteCache, entry. split; [reflexivity |].
    split; [done |]. split; [done |]. split; [done |]. split; [done |].
    intros c2 quoteCache2. by apply Hagain.
  - destruct (getBestQuote_miss Date_now devInspectTransactionBlock PACKAGE_ID FACTORY_ID
                params QuoteOptions.empty s Hmiss) as (multiRoute & s1 & _ & Hbest).
    cbn zeta in Hbest. rewrite Hbest.
    eexists _, _, _, _. split; [reflexivity |].
    cbn [DLMMClient._quoterManager DLMMClient.world QuoterManager.quoteCache
         QuoterManager.world].
    split; [done |]. split; [apply lookup_insert_eq |]. split; [done |].
    cbn [CacheEntry.timestamp]. split; [lia |].
    intros c2 quoteCache2. by apply Hagain.
Qed.

End DLMMClient_facts.
(** ** The gas estimate of a quote *)

Lemma decimal_digits_nonempty fuel : forall n acc,
  decimal_digits (S fuel) n acc <> "".
Proof.
  induction fuel as [|fuel IH]; intros n acc; cbn [decimal_digits].
  - by destruct (_ =? _).
  - destruct (n / 10 =? 0); [done | apply IH].
Qed.

Lemma nat_numeral_nonempty n : nat_numeral n <> "".
Proof. apply decimal_digits_nonempty. Qed.

Lemma app_nonempty_l s t : s <> "" -> s +:+ t <> "".
Proof. by destruct s. Qed.

Lemma app_nonempty_r s t : t <> "" -> s +:+ t <> "".
Proof. destruct s; [done |]. by rewrite app_String. Qed.

Lemma insert_point_nonempty n digits : digits <> "" -> insert_point n digits <> "".
Proof. by destruct n, digits. Qed.

Lemma format_decimal_nonempty s p : format_decimal s p <> "".
Proof.
  unfold format_decimal. pose proof (nat_numeral_nonempty s) as Hdigits.
  repeat case_match;
    first [by apply insert_point_nonempty
          | apply app_nonempty_l; first [done | by apply insert_point_nonempty]].
Qed.

(** A Number never prints as the empty string. *)
Lemma Number_toString_nonempty a : Number_toString a <> "".
Proof.
  destruct a as [|[]|q]; try done. unfold Number_toString.
  destruct (is_safe_integer q).
  - unfold numeral. destruct (_ <? _); [done | apply nat_numeral_nonempty].
  - apply app_nonempty_r. unfold shortest_decimal.
    destruct (shortest_digits _ _ _ _) as [s p], (strip_zeros _ _ _) as [s' p'].
    apply format_decimal_nonempty.
Qed.

Lemma parsed_gasEstimate_truthy result tokenIn tokenOut amountIn quote :
  parseContractQuoteResult result tokenIn tokenOut amountIn = Normal quote ->
  truthy (QuoteResult.gasEstimate quote) = true.
Proof.
  intros Hparse.
  destruct (parseContractQuoteResult_shape result tokenIn tokenOut amountIn)
    as (quote' & Hquote & Hshape).
  cbn zeta in Hshape. rewrite Hparse in Hquote. injection Hquote as <-.
  revert Hshape.
  destruct (truthy (optional_get _ (Name "returnValues"))); [| by intros ->].
  intros (_ & _ & _ & -> & _).
  unfold returned, or_else.
  destruct (truthy (optional_get _ (Index 0))) eqn:Hpayload; [exact Hpayload | done].
Qed.

Lemma combined_gasEstimate_truthy params route :
  combined_of_valid_hops params route ->
  truthy (QuoteResult.gasEstimate route) = true.
Proof.
  intros (intermediate & firstHop & secondHop & hop1 & hop2 & -> & _).
  cbn [combineHops QuoteResult.gasEstimate truthy].
  apply negb_true_iff, bool_decide_eq_false, Number_toString_nonempty.
Qed.

Section gas_estimate.

Context {W : Type} (Date_now : W -> Z).
Context (devInspectTransactionBlock : MoveCall.t -> W -> Completion value * W).
Context (packageId factoryId : string).

Local Abbreviation getBestQuote :=
  (getBestQuote Date_now devInspectTransactionBlock packageId factoryId).

(** X16.  Every quote [getBestQuote] selects carries a gas estimate of its
    own: a direct quote the gateway's or the default 150000, a combined quote
    the printed sum, the empty quote 0.  So [enhanceQuote] never replaces it,
    and the option [includeGasEstimate] has no effect on what [getBestQuote]
    returns or stores. *)
Theorem getBestQuote_ignores_includeGasEstimate (params : QuoteParams.t)
    (maxHops slippageTolerance : option number)
    (includeGasEstimate includeGasEstimate' : option bool) (s : state) :
  getBestQuote params
    (QuoteOptions.make maxHops slippageTolerance includeGasEstimate) s =
  getBestQuote params
    (QuoteOptions.make maxHops slippageTolerance includeGasEstimate') s.
Proof.
  destruct (getCachedQuote_outcome Date_now (getCacheKey params) s)
    as [[cached Hhit] | Hmiss].
  { by rewrite !(getBestQuote_hit _ _ _ _ _ _ _ cached Hhit). }
  destruct (getBestQuote_miss Date_now devInspectTransactionBlock packageId factoryId
              params (QuoteOptions.make maxHops slippageTolerance includeGasEstimate)
              s Hmiss) as (multiRoute & s1 & Hmulti & ->).
  destruct (getBestQuote_miss Date_now devInspectTransactionBlock packageId factoryId
              params (QuoteOptions.make maxHops slippageTolerance includeGasEstimate')
              s Hmiss) as (multiRoute' & s1' & Hmulti' & ->).
  cbn [QuoteOptions.maxHops QuoteOptions.slippageTolerance
       QuoteOptions.includeGasEstimate] in *.
  rewrite Hmulti in Hmulti'. injection Hmulti' as <- <-.
  assert (truthy (QuoteResult.gasEstimate (selectBestRoute multiRoute)) = true)
    as Hgas.
  { destruct (getMultiRouteQuotes_shape devInspectTransactionBlock packageId factoryId
                params (default (of_Z 3) maxHops) s)
      as (directRoute & routes & s' & Hshape & _ & Hdirect & Hcombined & _).
    cbn zeta in Hshape. rewrite Hmulti in Hshape. injection Hshape as -> _.
    match goal with
    | |- context [selectBestRoute ?m] => destruct (selectBestRoute_in m) as [-> | Hin]
    end; [done |].
    cbn [MultiRouteQuote.directRoute MultiRouteQuote.singleHopRoutes
         MultiRouteQuote.multiHopRoutes] in Hin.
    rewrite app_nil_r in Hin.
    assert (Forall (fun route => truthy (QuoteResult.gasEstimate route) = true)
                   (spread_optional directRoute ++
                    spread_optional directRoute ++ routes)) as Hall.
    { assert (Forall (fun route => truthy (QuoteResult.gasEstimate route) = true)
                     (spread_optional directRoute)) as Hd.
      { destruct directRoute as [d|]; [| done]. apply Forall_singleton.
        destruct (Hdirect d eq_refl) as [_ [result Hparse]].
        by eapply parsed_gasEstimate_truthy. }
      rewrite !Forall_app. split_and!; [done | done |].
      eapply Forall_impl; [exact Hcombined |].
      intros route. apply combined_gasEstimate_truthy. }
    rewrite Forall_forall in Hall. apply Hall. by apply list_elem_of_In. }
  unfold enhanceQuote. rewrite Hgas. by rewrite !andb_false_r.
Qed.

End gas_estimate.
(** ** Helper utilities *)

Lemma String_lt_cases a b :
  (String_lt a b = true /\ String_lt b a = false) \/
  (String_lt a b = false /\ String_lt b a = true) \/
  (String_lt a b = false /\ String_lt b a = false /\ a = b).
Proof.
  unfold String_lt, String.ltb.
  rewrite (String.compare_antisym b a).
  destruct (String.compare a b) eqn:Hcompare; cbn; auto.
  right. right. split; [done |]. split; [done |].
  by apply String.compare_eq_iff.
Qed.

(** X17.  [generatePoolKey] does not depend on the order in which the two
    tokens are given: it lists them in the order of their code units, the
    smaller first, followed by the bin step. *)
Theorem generatePoolKey_symmetric (tokenA tokenB : string) (binStep : number) :
  generatePoolKey tokenA tokenB binStep = generatePoolKey tokenB tokenA binStep /\
  exists first second,
    generatePoolKey tokenA tokenB binStep =
      first +:+ "::" +:+ second +:+ "::" +:+ Number_toString binStep /\
    String_lt second first = false /\
    ((first = tokenA /\ second = tokenB) \/ (first = tokenB /\ second = tokenA)).
Proof.
  unfold generatePoolKey, Array_sort. cbn [foldr sort_insert].
  unfold default_compare.
  destruct (String_lt_cases tokenA tokenB)
    as [[H1 H2] | [[H1 H2] | (H1 & H2 & <-)]]; rewrite ?H1, ?H2; cbn [nth];
    (split; [reflexivity |]); eexists _, _; (split; [reflexivity |]).
  - split; [done | by left].
  - split; [done | by right].
  - split; [done | by left].
Qed.

Section slippage_amount.

Local Open Scope Q_scope.

(** Rounding keeps a number between two integers it lies between. *)
Lemma round53_between (x : Q) (lo hi : Z) :
  (1 <= lo)%Z -> (hi < 2 ^ 53)%Z ->
  inject_Z lo <= x -> x <= inject_Z hi ->
  inject_Z lo <= round53 x /\ round53 x <= inject_Z hi.
Proof.
  intros Hlo Hhi Hx Hx'.
  assert (lo <= hi)%Z as Hle by (rewrite Zle_Qle; lra).
  pose proof (inject_Z_ge_1 lo Hlo) as H1.
  assert (pow2 (-1022) <= 1) as Htiny by (apply (pow2_le (-1022) 0); lia).
  split.
  - rewrite <- (round53_safe_integer lo) by lia.
    apply round53_mono; [right; lra | exact Hx].
  - rewrite <- (round53_safe_integer hi) by lia.
    apply round53_mono; [right; lra | exact Hx'].
Qed.

Lemma calculateSlippageAmount_maximum (amount : string) (a s : Z) :
  parseInt_string amount = of_Z a ->
  (0 <= a < 2 ^ 52)%Z -> (0 <= s <= 10000)%Z ->
  exists M : Z,
    calculateSlippageAmount amount (of_Z s) (Some false) = numeral M /\
    (a <= M <= 2 * a)%Z.
Proof.
  intros Hamount Ha Hs. unfold calculateSlippageAmount.
  change (default true (Some false)) with false. cbv iota.
  rewrite Hamount, Number_add_of_Z by lia.
  unfold Number_div, of_Z.
  replace (Qc_is_zero (Qc_of_Z 10000)) with false by done.
  cbn [this Qc_of_Z].
  pose proof (inject_Z_nonneg s ltac:(lia)) as Hs0.
  assert (inject_Z s <= 10000) as Hs1
    by (change 10000 with (inject_Z 10000); rewrite <- Zle_Qle; lia).
  destruct (round53_between (inject_Z (10000 + s) / inject_Z 10000) 1 2)
    as [Hr1 Hr2]; [lia | lia | |  |].
  { rewrite inject_Z_plus. unfold Qdiv.
    change (/ inject_Z 10000) with (1 # 10000).
    change (inject_Z 10000) with 10000. change (inject_Z 1) with 1. lra. }
  { rewrite inject_Z_plus. unfold Qdiv.
    change (/ inject_Z 10000) with (1 # 10000).
    change (inject_Z 10000) with 10000. change (inject_Z 2) with 2. lra. }
  change (inject_Z 1) with 1 in Hr1. change (inject_Z 2) with 2 in Hr2.
  pose proof (pow2_pos 1024) as Hbig.
  assert (inject_Z (2 ^ 53) < pow2 1024) as Hsafe.
  { rewrite <- pow2_Z by lia. apply Qlt_le_trans with (pow2 54).
    - rewrite !pow2_Z by lia. rewrite <- Zlt_Qlt. lia.
    - apply pow2_le. lia. }
  assert (2 < pow2 1024) as H2.
  { apply Qle_lt_trans with (inject_Z (2 ^ 53)); [| exact Hsafe].
    change 2 with (inject_Z 2). rewrite <- Zle_Qle. lia. }
  rewrite Number_of_Num by lra.
  cbn [Number_mul this Q2Qc Qc_of_Z].
  set (r := round53 (inject_Z (10000 + s) / inject_Z 10000)) in *.
  pose proof (inject_Z_nonneg a ltac:(lia)) as Ha0.
  assert (inject_Z a * Qred r == inject_Z a * r) as Hred by (by rewrite Qred_correct).
  assert (inject_Z a <= round53 (inject_Z a * Qred r) /\
          round53 (inject_Z a * Qred r) <= inject_Z (2 * a)) as [Hv1 Hv2].
  { destruct (Z.eq_dec a 0%Z) as [-> | Hne].
    { rewrite (round53_0 (inject_Z 0 * Qred r)) by ring. by split. }
    pose proof (inject_Z_ge_1 a ltac:(lia)) as Ha1.
    apply round53_between; [lia | lia | |]; rewrite Hred.
    - rewrite <- (Qmult_1_r (inject_Z a)) at 1.
      rewrite !(Qmult_comm (inject_Z a)). by apply Qmult_le_compat_r.
    - rewrite inject_Z_mult. change (inject_Z 2) with 2.
      rewrite (Qmult_comm (inject_Z a)). by apply Qmult_le_compat_r. }
  assert (inject_Z (2 * a) < inject_Z (2 ^ 53)) as H2a by (rewrite <- Zlt_Qlt; lia).
  rewrite Number_of_Num by lra.
  cbn [Math_floor this Q2Qc].
  rewrite (Qfloor_comp _ _ (Qred_correct _)).
  pose proof (Qfloor_resp_le _ _ Hv1) as Hf1.
  pose proof (Qfloor_resp_le _ _ Hv2) as Hf2.
  rewrite Qfloor_Z in Hf1, Hf2.
  eexists. split; [apply Number_toString_of_Z; lia | lia].
Qed.

End slippage_amount.

Lemma calculateSlippageAmount_minimum (amount : string) (slippageBps : number)
    (quote : QuoteResult.t) :
  QuoteResult.amountOut quote = VString amount ->
  calculateSlippageAmount amount slippageBps None =
    calculateMinimumOutput quote slippageBps /\
  calculateSlippageAmount amount slippageBps (Some true) =
    calculateMinimumOutput quote slippageBps.
Proof.
  intros Hamount. unfold calculateSlippageAmount, calculateMinimumOutput.
  by rewrite Hamount.
Qed.

(** X18.  For an amount that is the numeral of an integer
    [0 <= amount < 2^52] and a slippage of [0 <= s <= 10000] basis points,
    [calculateSlippageAmount] returns numerals that bracket the amount: the
    minimum output, also the default, is between 0 and the amount, the
    maximum input between the amount and twice the amount; and the minimum
    output is what [calculateMinimumOutput] gives a quote of that amount. *)
Theorem calculateSlippageAmount_brackets (amount s : Z) :
  0 <= amount < 2 ^ 52 ->
  0 <= s <= 10000 ->
  exists minimum maximum : Z,
    calculateSlippageAmount (numeral amount) (of_Z s) None = numeral minimum /\
    calculateSlippageAmount (numeral amount) (of_Z s) (Some true) = numeral minimum /\
    calculateSlippageAmount (numeral amount) (of_Z s) (Some false) = numeral maximum /\
    0 <= minimum <= amount /\
    amount <= maximum <= 2 * amount /\
    forall quote : QuoteResult.t,
      QuoteResult.amountOut quote = VString (numeral amount) ->
      calculateMinimumOutput quote (of_Z s) = numeral minimum.
Proof.
  intros Hamount Hs.
  assert (parseInt_string (numeral amount) = of_Z amount) as Hparse
    by (apply (parseInt_numeral amount); lia).
  destruct (calculateSlippageAmount_maximum (numeral amount) amount s Hparse Hamount Hs)
    as (maximum & Hmaximum & Hrange).
  assert (forall quote : QuoteResult.t,
            QuoteResult.amountOut quote = VString (numeral amount) ->
            calculateMinimumOutput quote (of_Z s) =
            numeral (Qfloor (round53 (inject_Z amount *
                                      round53 (inject_Z (10000 - s) / 10000))%Q)))
    as Hminimum.
  { intros quote Hquote. apply calculateMinimumOutput_value; [| lia | lia].
    by rewrite Hquote. }
  destruct (calculateSlippageAmount_minimum (numeral amount) (of_Z s)
              (quote_of_amountOut (numeral amount)) eq_refl) as [Hdefault Htrue].
  eexists _, maximum.
  rewrite Hdefault, Htrue, (Hminimum (quote_of_amountOut (numeral amount)) eq_refl).
  split_and!; try done; try lia.
  - destruct (scaled_amount_range amount s ltac:(lia) Hs) as (_ & Hlo & _).
    apply Qfloor_resp_le in Hlo. by change (Qfloor 0) with 0 in Hlo.
  - destruct (scaled_amount_range amount s ltac:(lia) Hs) as (_ & _ & Hhi).
    apply Qfloor_resp_le in Hhi. by rewrite Qfloor_Z in Hhi.
Qed.

(** An amount of 1000000 at 50 basis points. *)
Lemma calculateSlippageAmount_brackets_witness :
  exists minimum maximum : Z,
    calculateSlippageAmount (numeral 1000000) (of_Z 50) None = numeral minimum /\
    calculateSlippageAmount (numeral 1000000) (of_Z 50) (Some true) = numeral minimum /\
    calculateSlippageAmount (numeral 1000000) (of_Z 50) (Some false) = numeral maximum /\
    0 <= minimum <= 1000000 /\
    1000000 <= maximum <= 2 * 1000000 /\
    forall quote : QuoteResult.t,
      QuoteResult.amountOut quote = VString (numeral 1000000) ->
      calculateMinimumOutput quote (of_Z 50) = numeral minimum.
Proof. apply (calculateSlippageAmount_brackets 1000000 50); lia. Defined.

Example calculateSlippageAmount_samples :
  calculateSlippageAmount "1000000" (of_Z 50) None = "995000" /\
  calculateSlippageAmount "1000000" (of_Z 50) (Some false) = "1004999" /\
  calculateSlippageAmount "1" (of_Z 50) (Some false) = "1".
Proof. repeat split; vm_compute; reflexivity. Qed.

(** The Number of a result depends on its value only. *)
Lemma Number_of_comp (x y : Q) : (x == y)%Q -> Number_of x = Number_of y.
Proof.
  intros Hxy. pose proof (round53_comp x y Hxy) as Hround. unfold Number_of.
  assert (Qle_bool (pow2 1024) (round53 x) = Qle_bool (pow2 1024) (round53 y)) as ->.
  { apply eq_true_iff_eq. rewrite !Qle_bool_iff. by rewrite Hround. }
  assert (Qle_bool (round53 x) (- pow2 1024) = Qle_bool (round53 y) (- pow2 1024)) as ->.
  { apply eq_true_iff_eq. rewrite !Qle_bool_iff. by rewrite Hround. }
  repeat case_match; try done. f_equal. apply Qc_is_canon.
  unfold Q2Qc. cbn [this]. by rewrite !Qred_correct.
Qed.

Lemma Number_add_comm a b : Number_add a b = Number_add b a.
Proof.
  destruct a as [|[]|p], b as [|[]|q]; try done. cbn [Number_add].
  apply Number_of_comp. apply Qplus_comm.
Qed.

(** X19.  [calculateTVL] is symmetric in the two reserves; for reserves that
    are numerals of non-negative integers with a sum below [2^53] it is the
    numeral of their sum, and for a reserve that does not start with a number
    it is [NaN]. *)
Theorem calculateTVL_sum (reserveA reserveB : string) :
  calculateTVL reserveA reserveB = calculateTVL reserveB reserveA /\
  (forall a b : Z,
     0 <= a -> 0 <= b -> a + b < 2 ^ 53 ->
     reserveA = numeral a -> reserveB = numeral b ->
     calculateTVL reserveA reserveB = numeral (a + b)) /\
  (is_NaN (parseInt_string reserveA) = true ->
   calculateTVL reserveA reserveB = "NaN").
Proof.
  unfold calculateTVL. split; [by rewrite Number_add_comm |]. split.
  - intros a b Ha Hb Hab -> ->.
    rewrite !parseInt_string_numeral.
    rewrite (Number_of_safe _ a), (Number_of_safe _ b) by (done || lia).
    rewrite Number_add_of_Z by lia. apply Number_toString_of_Z. lia.
  - by destruct (parseInt_string reserveA).
Qed.

(** ** Price impact and basis points *)

Section basis_points.

Local Open Scope Q_scope.

(** An integer number of basis points as a percentage. *)
Lemma bps_as_percentage (bps : Z) :
  (0 <= bps < 2 ^ 53)%Z ->
  exists r : Qc,
    Number_div (of_Z bps) (of_Z 100) = Num r /\
    this r == round53 (inject_Z bps / 100).
Proof.
  intros Hbps. unfold Number_div, of_Z.
  replace (Qc_is_zero (Qc_of_Z 100)) with false by done.
  cbn [this Qc_of_Z]. change (inject_Z 100) with 100.
  pose proof (inject_Z_nonneg bps ltac:(lia)) as H0.
  pose proof (pow2_pos 1024) as Hbig.
  assert (inject_Z bps < pow2 1024) as Hsafe.
  { apply Qlt_le_trans with (pow2 53); [| apply pow2_le; lia].
    rewrite pow2_Z by lia. rewrite <- Zlt_Qlt. lia. }
  assert (0 <= round53 (inject_Z bps / 100) /\
          round53 (inject_Z bps / 100) <= inject_Z bps) as [Hlo Hhi].
  { destruct (Z.eq_dec bps 0%Z) as [-> | Hne]; [by rewrite round53_0 by reflexivity |].
    pose proof (inject_Z_ge_1 bps ltac:(lia)) as H1.
    assert (pow2 (-1022) <= 1 # 100) as Htiny.
    { apply Qle_trans with (pow2 (-7)); [apply pow2_le; lia | by vm_compute]. }
    assert (inject_Z bps / 100 == inject_Z bps * (1 # 100)) as Hdiv by reflexivity.
    split.
    - apply round53_nonneg. rewrite Hdiv. lra.
    - rewrite <- (round53_safe_integer bps) at 2 by lia.
      apply round53_mono; [right |]; rewrite Hdiv; lra. }
  rewrite Number_of_Num by lra.
  eexists. split; [reflexivity |]. unfold Q2Qc. cbn [this]. apply Qred_correct.
Qed.

Lemma bps_as_percentage_mono (b1 b2 : Z) :
  (0 <= b1)%Z -> (b1 <= b2)%Z ->
  round53 (inject_Z b1 / 100) <= round53 (inject_Z b2 / 100).
Proof.
  intros H0 Hle.
  assert (forall b, inject_Z b / 100 == inject_Z b * (1 # 100)) as Hdiv
    by (intros; reflexivity).
  assert (inject_Z b1 <= inject_Z b2) as Hq by (by rewrite <- Zle_Qle).
  apply round53_mono; [| rewrite !Hdiv; lra].
  destruct (Z.eq_dec b1 0%Z) as [-> | Hne]; [by left | right].
  pose proof (inject_Z_ge_1 b1 ltac:(lia)) as H1.
  assert (pow2 (-1022) <= 1 # 100) as Htiny.
  { apply Qle_trans with (pow2 (-7)); [apply pow2_le; lia | by vm_compute]. }
  rewrite Hdiv. lra.
Qed.

End basis_points.

(** X20.  [isPriceImpactAcceptable] never accepts a price impact that does
    not parse as a number.  With the default threshold of 500 basis points it
    accepts exactly the price impacts up to 5, so none that [simulateSwap]
    warns about.  A price impact accepted at a threshold of [b1] basis points
    is accepted at every threshold [b2 >= b1]. *)
Theorem isPriceImpactAcceptable_thresholds (priceImpact : string) :
  let impact := parseFloat_string priceImpact in
  (forall maxImpactBps,
     is_NaN impact = true ->
     isPriceImpactAcceptable priceImpact maxImpactBps = false) /\
  isPriceImpactAcceptable priceImpact None = Number_le impact (of_Z 5) /\
  (isPriceImpactAcceptable priceImpact None = true ->
   Number_gt impact (of_Z 5) = false) /\
  (forall b1 b2 : Z,
     0 <= b1 -> b1 <= b2 -> b2 < 2 ^ 53 ->
     isPriceImpactAcceptable priceImpact (Some (of_Z b1)) = true ->
     isPriceImpactAcceptable priceImpact (Some (of_Z b2)) = true).
Proof.
  cbn zeta. unfold isPriceImpactAcceptable.
  assert (Number_div (of_Z 500) (of_Z 100) = of_Z 5) as H500.
  { unfold Number_div, of_Z.
    replace (Qc_is_zero (Qc_of_Z 100)) with false by done.
    by apply (Number_of_safe _ 5). }
  split_and!.
  - intros maxImpactBps Hnan. by destruct (parseFloat_string priceImpact).
  - change (default (of_Z 500) None) with (of_Z 500). by rewrite H500.
  - change (default (of_Z 500) None) with (of_Z 500). rewrite H500.
    unfold Number_le, Number_gt. intros Hle.
    by repeat (apply andb_true_iff in Hle as [Hle ?%negb_true_iff]).
  - intros b1 b2 H0 Hle Hsafe.
    change (default (of_Z 500) (Some (of_Z b1))) with (of_Z b1).
    change (default (of_Z 500) (Some (of_Z b2))) with (of_Z b2).
    destruct (bps_as_percentage b1) as (r1 & -> & Hr1); [lia |].
    destruct (bps_as_percentage b2) as (r2 & -> & Hr2); [lia |].
    intros Haccepted. eapply Number_le_trans; [exact Haccepted |].
    unfold Number_le. cbn [is_NaN negb andb Number_lt].
    apply negb_true_iff, bool_decide_eq_false, Qcle_not_lt.
    unfold Qcle. rewrite Hr1, Hr2. by apply bps_as_percentage_mono.
Qed.

(** X21.  A whole percentage [p >= 0] with [100 * p < 2^53] becomes the
    whole number [100 * p] of basis points, and converting that back gives
    [p] again: both conversions are exact there. *)
Theorem percentageToBps_round_trip (percentage : Z) :
  0 <= percentage ->
  100 * percentage < 2 ^ 53 ->
  percentageToBps (of_Z percentage) = of_Z (100 * percentage) /\
  bpsToPercentage (percentageToBps (of_Z percentage)) = of_Z percentage.
Proof.
  intros H0 Hsafe.
  assert (percentageToBps (of_Z percentage) = of_Z (100 * percentage)) as ->.
  { unfold percentageToBps. rewrite Number_mul_of_Z by lia. f_equal. lia. }
  split; [done |].
  unfold bpsToPercentage, Number_div, of_Z.
  replace (Qc_is_zero (Qc_of_Z 100)) with false by done.
  apply Number_of_safe; [lia |]. cbn [this Qc_of_Z].
  rewrite inject_Z_mult. change (inject_Z 100) with 100%Q. field.
Qed.

(** 7 percent. *)
Lemma percentageToBps_round_trip_witness :
  percentageToBps (of_Z 7) = of_Z (100 * 7) /\
  bpsToPercentage (percentageToBps (of_Z 7)) = of_Z 7.
Proof. apply (percentageToBps_round_trip 7); lia. Defined.

(** The other way round the conversions are not exact: 7 basis points are
    0.07 percent, which is 7.000000000000001 basis points. *)
Example bpsToPercentage_not_exact :
  Number_toString (percentageToBps (bpsToPercentage (of_Z 7))) = "7.000000000000001".
Proof. vm_compute. reflexivity. Qed.

(** X22.  Bin 0 has the price 1, scaled by [2^64], at every bin step, be it
    zero, negative or not a number. *)
Theorem calculateBinPrice_bin_0 (binStep : number) :
  calculateBinPrice 0 binStep = Normal "18446744073709552000".
Proof. unfold calculateBinPrice. by vm_compute. Qed.
(** ** Token amounts *)

Lemma starts_with_Infinity_digit d rest :
  0 <= d < 10 -> starts_with_Infinity (String (digit_char d) rest) = false.
Proof.
  intros Hd.
  assert (d = 0 \/ d = 1 \/ d = 2 \/ d = 3 \/ d = 4 \/ d = 5 \/ d = 6 \/
          d = 7 \/ d = 8 \/ d = 9) as Hcases by lia.
  repeat (destruct Hcases as [-> | Hcases]; [done |]).
  by subst.
Qed.

(** [parseFloat] reads the numeral of a non-negative integer as the Number
    nearest to it. *)
Lemma parseFloat_string_nat_numeral n :
  0 <= n -> parseFloat_string (nat_numeral n) = decimal n 0.
Proof.
  intros Hn. unfold parseFloat_string.
  destruct (decimal_digits_head (Z.to_nat (Z.log2 n)) n "" Hn) as (d & rest & Hd & Hs).
  fold (nat_numeral n) in Hs.
  destruct (digit_char_plain d Hd) as (Hws & Hminus & Hplus).
  assert (trim_start (nat_numeral n) = nat_numeral n) as ->.
  { rewrite Hs. cbn. by rewrite Hws. }
  assert (read_sign (nat_numeral n) = (false, nat_numeral n)) as ->.
  { rewrite Hs. cbn. by rewrite Hminus, Hplus. }
  assert (starts_with_Infinity (nat_numeral n) = false) as ->
    by (rewrite Hs; by apply starts_with_Infinity_digit).
  rewrite read_nat_numeral by done.
  cbn [default from_option id apply_sign read_exponent].
  unfold id. f_equal; lia.
Qed.

Lemma decimal_integer n : 0 <= n < 2 ^ 53 -> decimal n 0 = of_Z n.
Proof.
  intros Hn. unfold decimal. apply Number_of_safe; [done |].
  change (pow10 0) with 1%Q. ring.
Qed.

Lemma Math_pow_10 d : 0 <= d <= 15 -> Math_pow (of_Z 10) d = of_Z (10 ^ d).
Proof.
  intros Hd. unfold Math_pow.
  destruct (Z.eqb_spec d 0) as [-> | Hne]; [done |].
  unfold of_Z at 1. replace (Qc_is_zero (Qc_of_Z 10)) with false by done.
  cbn [this Qc_of_Z].
  assert (10 ^ d <= 10 ^ 15) by (apply Z.pow_le_mono_r; lia).
  assert (0 < 10 ^ d) by (apply Z.pow_pos_nonneg; lia).
  apply Number_of_safe; [lia |].
  symmetry. apply Zpower_Qpower. lia.
Qed.

Lemma Math_floor_of_Z z : Math_floor (of_Z z) = of_Z z.
Proof. unfold Math_floor, of_Z. cbn [this Qc_of_Z]. by rewrite Qfloor_Z. Qed.

(** *** Numerals of multiples of ten *)

Lemma app_empty_r s : s +:+ "" = s.
Proof. induction s as [|c s IH]; [done |]. by rewrite app_String, IH. Qed.

Lemma append_assoc (s t u : string) : (s +:+ t) +:+ u = s +:+ t +:+ u.
Proof. induction s as [|c s IH]; [done |]. by rewrite !app_String, IH. Qed.

Lemma decimal_digits_acc fuel : forall n acc,
  decimal_digits fuel n acc = decimal_digits fuel n "" +:+ acc.
Proof.
  induction fuel as [|fuel IH]; intros n acc; [done |].
  cbn [decimal_digits]. destruct (n / 10 =? 0); [done |].
  rewrite (IH _ (String _ acc)), (IH _ (String _ "")).
  by rewrite append_assoc.
Qed.

(** With enough fuel for the digits of [n] the fuel does not matter. *)
Lemma decimal_digits_fuel fuel1 : forall fuel2 n acc,
  0 <= n -> n < 10 ^ Z.of_nat (S fuel1) -> n < 10 ^ Z.of_nat (S fuel2) ->
  decimal_digits (S fuel1) n acc = decimal_digits (S fuel2) n acc.
Proof.
  induction fuel1 as [|fuel1 IH]; intros fuel2 n acc Hn H1 H2.
  - change (10 ^ Z.of_nat 1) with 10 in H1.
    assert (n / 10 = 0) as Hq by (apply Z.div_small; lia).
    cbn [decimal_digits]. by rewrite Hq.
  - cbn [decimal_digits]. destruct (Z.eqb_spec (n / 10) 0) as [Hq | Hq]; [done |].
    assert (0 < n / 10) as Hpos.
    { pose proof (Z.div_pos n 10 Hn ltac:(lia)). lia. }
    assert (forall f, n < 10 ^ Z.of_nat (S f) -> n / 10 < 10 ^ Z.of_nat f) as Hdiv.
    { intros f Hf. apply Z.div_lt_upper_bound; [lia |].
      by rewrite Nat2Z.inj_succ, Z.pow_succ_r in Hf by lia. }
    destruct fuel2 as [|fuel2].
    { apply Hdiv in H2. change (10 ^ Z.of_nat 0) with 1 in H2. lia. }
    apply IH; [lia | by apply Hdiv | by apply Hdiv].
Qed.

Lemma decimal_digits_step fuel n acc :
  decimal_digits (S fuel) n acc =
  if n / 10 =? 0 then String (digit_char (n mod 10)) acc
  else decimal_digits fuel (n / 10) (String (digit_char (n mod 10)) acc).
Proof. reflexivity. Qed.

Lemma nat_numeral_times_10 n : 1 <= n -> nat_numeral (10 * n) = nat_numeral n +:+ "0".
Proof.
  intros Hn. unfold nat_numeral.
  pose proof (numeral_fuel (10 * n) ltac:(lia)) as Hfuel.
  assert (3 <= Z.log2 (10 * n)) as Hlog
    by (apply (Z.log2_le_mono 8 (10 * n)); lia).
  rewrite (decimal_digits_step _ (10 * n)).
  assert (10 * n / 10 = n) as -> by (symmetry; apply Z.div_unique with 0; lia).
  assert ((10 * n) mod 10 = 0) as -> by (symmetry; apply Z.mod_unique with n; lia).
  destruct (Z.eqb_spec n 0) as [-> | _]; [lia |].
  destruct (Z.to_nat (Z.log2 (10 * n))) as [|fuel] eqn:Hfuel'; [lia |].
  rewrite (decimal_digits_acc (S fuel) n (String (digit_char 0) "")). f_equal.
  apply decimal_digits_fuel; [lia | | by apply numeral_fuel; lia].
  rewrite !Nat2Z.inj_succ, Z.pow_succ_r in Hfuel by lia.
  rewrite Nat2Z.inj_succ. lia.
Qed.

Lemma zeros_snoc k : zeros (S k) = zeros k +:+ "0".
Proof. induction k as [|k IH]; [done |]. cbn [zeros] in *. by rewrite IH at 1. Qed.

Lemma nat_numeral_times_pow10 n (k : nat) :
  1 <= n -> nat_numeral (n * 10 ^ Z.of_nat k) = nat_numeral n +:+ zeros k.
Proof.
  intros Hn. induction k as [|k IH].
  - rewrite Z.mul_1_r. by rewrite app_empty_r.
  - rewrite Nat2Z.inj_succ, Z.pow_succ_r by lia.
    replace (n * (10 * 10 ^ Z.of_nat k)) with (10 * (n * 10 ^ Z.of_nat k)) by lia.
    assert (0 < 10 ^ Z.of_nat k) by (apply Z.pow_pos_nonneg; lia).
    rewrite nat_numeral_times_10 by nia.
    by rewrite IH, zeros_snoc, append_assoc.
Qed.

Lemma string_length_app s t : string_length (s +:+ t) = string_length s + string_length t.
Proof.
  induction s as [|c s IH]; [done |].
  rewrite app_String. cbn [string_length]. rewrite IH. lia.
Qed.

Lemma string_length_nonneg s : 0 <= string_length s.
Proof. induction s; cbn [string_length]; lia. Qed.

Lemma string_length_zeros k : string_length (zeros k) = Z.of_nat k.
Proof. induction k as [|k IH]; [done |]. cbn [zeros string_length]. lia. Qed.

Lemma insert_point_app s t :
  insert_point (Z.to_nat (string_length s)) (s +:+ t) = s +:+ String "." t.
Proof.
  induction s as [|c s IH]; [done |].
  rewrite !app_String. cbn [string_length].
  pose proof (string_length_nonneg s).
  replace (Z.to_nat (1 + string_length s)) with (S (Z.to_nat (string_length s))) by lia.
  cbn [insert_point]. by rewrite IH.
Qed.

(** An integer below [2^53] to six places. *)
Lemma Number_toFixed_integer a :
  0 <= a < 2 ^ 53 -> Number_toFixed (of_Z a) 6 = nat_numeral a +:+ ".000000".
Proof.
  intros Ha. unfold Number_toFixed, of_Z.
  assert (Qc_is_neg (Qc_of_Z a) = false) as ->.
  { unfold Qc_is_neg. apply bool_decide_eq_false, Qcle_not_lt.
    rewrite <- Z2Qc_inj_le. lia. }
  cbn [this Qc_of_Z].
  assert (Qabs (inject_Z a) = inject_Z a) as ->.
  { unfold Qabs, inject_Z. by rewrite Z.abs_eq by lia. }
  assert (Qle_bool (pow10 21) (inject_Z a) = false) as ->.
  { destruct (Qle_bool _ _) eqn:Hle; [| done]. apply Qle_bool_iff in Hle.
    change (pow10 21) with (inject_Z (10 ^ 21)) in Hle.
    rewrite <- Zle_Qle in Hle. lia. }
  change (Z.of_nat 6) with 6.
  assert (Qfloor (inject_Z a * pow10 6 + (1 # 2)) = a * 10 ^ 6) as ->.
  { change (pow10 6) with (inject_Z (10 ^ 6)).
    rewrite <- inject_Z_mult.
    assert (inject_Z (a * 10 ^ 6) <= inject_Z (a * 10 ^ 6) + (1 # 2))%Q as Hlo by lra.
    assert (inject_Z (a * 10 ^ 6) + (1 # 2) < inject_Z (a * 10 ^ 6 + 1))%Q as Hhi.
    { rewrite inject_Z_plus. change (inject_Z 1) with 1%Q. lra. }
    apply Qfloor_resp_le in Hlo. rewrite Qfloor_Z in Hlo.
    pose proof (Qfloor_le (inject_Z (a * 10 ^ 6) + (1 # 2))) as Hfl.
    assert (inject_Z (Qfloor (inject_Z (a * 10 ^ 6) + (1 # 2))) <
            inject_Z (a * 10 ^ 6 + 1))%Q as H by lra.
    rewrite <- Zlt_Qlt in H. lia. }
  change (Z.of_nat 6) with 6. change (6 =? 0) with false. cbv iota.
  rewrite app_empty_l.
  destruct (Z.eq_dec a 0) as [-> | Hne]; [done |].
  change (10 ^ 6) with (10 ^ Z.of_nat 6).
  rewrite nat_numeral_times_pow10 by lia.
  rewrite !string_length_app, !string_length_zeros. change (Z.of_nat 6) with 6.
  destruct (decimal_digits_head (Z.to_nat (Z.log2 a)) a "") as (d & rest & _ & Hs);
    [lia |].
  fold (nat_numeral a) in Hs.
  assert (1 <= string_length (nat_numeral a)) as Hlen.
  { rewrite Hs. cbn [string_length]. pose proof (string_length_nonneg rest). lia. }
  destruct (Z.leb_spec (string_length (nat_numeral a) + 6) 6); [lia |].
  rewrite string_length_app, string_length_zeros. change (Z.of_nat 6) with 6.
  replace (string_length (nat_numeral a) + 6 - 6)
    with (string_length (nat_numeral a)) by lia.
  apply (insert_point_app (nat_numeral a) (zeros 6)).
Qed.

(** X23.  Token amounts survive the round trip on whole tokens: for a whole
    number of tokens [n >= 0] and [0 <= decimals <= 15] decimals with
    [n * 10^decimals < 2^53], [parseTokenAmount] turns the numeral of [n]
    into the numeral of [n * 10^decimals] raw units, and [formatTokenAmount]
    turns that back into [n] with six zeros after the point. *)
Theorem parseTokenAmount_formatTokenAmount (n decimals : Z) :
  0 <= n ->
  0 <= decimals <= 15 ->
  n * 10 ^ decimals < 2 ^ 53 ->
  parseTokenAmount (numeral n) (Some decimals) = numeral (n * 10 ^ decimals) /\
  formatTokenAmount (parseTokenAmount (numeral n) (Some decimals)) (Some decimals) =
    numeral n +:+ ".000000".
Proof.
  intros Hn Hd Hsafe.
  assert (0 < 10 ^ decimals) as Hpow by (apply Z.pow_pos_nonneg; lia).
  assert (n < 2 ^ 53) as Hn' by nia.
  assert (numeral n = nat_numeral n) as Hnumeral
    by (unfold numeral; destruct (Z.ltb_spec n 0); [lia | done]).
  assert (parseTokenAmount (numeral n) (Some decimals) = numeral (n * 10 ^ decimals))
    as ->.
  { unfold parseTokenAmount. change (default 9 (Some decimals)) with decimals.
    rewrite Hnumeral, parseFloat_string_nat_numeral, decimal_integer by lia.
    rewrite Math_pow_10, Number_mul_of_Z, Math_floor_of_Z by lia.
    apply Number_toString_of_Z. nia. }
  split; [done |].
  unfold formatTokenAmount. change (default 9 (Some decimals)) with decimals.
  rewrite parseInt_string_numeral, (Number_of_safe _ (n * 10 ^ decimals)) by (done || nia).
  rewrite Math_pow_10 by lia.
  assert (Number_div (of_Z (n * 10 ^ decimals)) (of_Z (10 ^ decimals)) = of_Z n) as ->.
  { unfold Number_div, of_Z.
    assert (Qc_is_zero (Qc_of_Z (10 ^ decimals)) = false) as ->.
    { apply bool_decide_eq_false. intros Hzero%Z2Qc_inj. lia. }
    apply Number_of_safe; [lia |]. cbn [this Qc_of_Z].
    rewrite inject_Z_mult. field.
    change 0%Q with (inject_Z 0). rewrite inject_Z_injective. lia. }
  rewrite Hnumeral. apply Number_toFixed_integer. lia.
Qed.

(** Five tokens of nine decimals. *)
Lemma parseTokenAmount_formatTokenAmount_witness :
  parseTokenAmount (numeral 5) (Some 9) = numeral (5 * 10 ^ 9) /\
  formatTokenAmount (parseTokenAmount (numeral 5) (Some 9)) (Some 9) =
    numeral 5 +:+ ".000000".
Proof. apply (parseTokenAmount_formatTokenAmount 5 9); lia. Defined.

(** Fractions of a token are read through binary arithmetic: 4.35 tokens of
    two decimals are 434 units; what is no number is [NaN] both ways; and
    amounts print with six places, a half rounding up. *)
Example parseTokenAmount_samples :
  parseTokenAmount "2.5" None = "2500000000" /\
  parseTokenAmount "4.35" (Some 2) = "434" /\
  parseTokenAmount "abc" None = "NaN" /\
  formatTokenAmount "abc" None = "NaN" /\
  formatTokenAmount "1500000000" None = "1.500000" /\
  formatTokenAmount "1234567" None = "0.001235" /\
  formatTokenAmount "-1" None = "-0.000000".
Proof. repeat split; vm_compute; reflexivity. Qed.
(** ** Regular expressions *)

Lemma app_eq_empty s t : s +:+ t = "" -> s = "" /\ t = "".
Proof. by destruct s. Qed.

Lemma in_language_empty r s : in_language r s -> s = "" -> nullable r = true.
Proof.
  induction 1 as [| | r1 r2 s1 s2 _ IH1 _ IH2 | r1 r2 s _ IH | r1 r2 s _ IH
                 | | r s1 s2 _ _ _ _]; intros Hs; cbn [nullable]; try done.
  - apply app_eq_empty in Hs as [-> ->]. by rewrite IH1, IH2.
  - by rewrite IH.
  - rewrite IH by done. apply orb_true_r.
Qed.

Lemma nullable_in r : nullable r = true <-> in_language r "".
Proof.
  split; [| intros H; by eapply in_language_empty].
  induction r as [| | member | r1 IH1 r2 IH2 | r1 IH1 r2 IH2 | r IH];
    cbn [nullable]; try done.
  - intros _. constructor.
  - intros [H1 H2]%andb_true_iff.
    change "" with ("" +:+ ""). constructor; auto.
  - intros [H | H]%orb_true_iff; [apply in_Alt_l | apply in_Alt_r]; auto.
  - intros _. constructor.
Qed.

Lemma derivative_sound c r : forall s,
  in_language (derivative c r) s -> in_language r (String c s).
Proof.
  induction r as [| | member | r1 IH1 r2 IH2 | r1 IH1 r2 IH2 | r IH];
    intros s H; cbn [derivative] in H.
  - inversion H.
  - inversion H.
  - destruct (member c) eqn:Hc; inversion H; subst. by constructor.
  - assert (forall s, in_language (Seq (derivative c r1) r2) s ->
                      in_language (Seq r1 r2) (String c s)) as Hseq.
    { intros s' H'. inversion H' as [| | ? ? s1 s2 H1 H2 | | | |]; subst.
      rewrite <- app_String. constructor; auto. }
    destruct (nullable r1) eqn:Hnull; [| by apply Hseq].
    inversion H as [| | | ? ? ? H' | ? ? ? H' | |]; subst; [by apply Hseq |].
    rewrite <- (app_empty_l (String c s)). constructor; [| auto].
    by apply nullable_in.
  - inversion H as [| | | ? ? ? H' | ? ? ? H' | |]; subst;
      [apply in_Alt_l | apply in_Alt_r]; auto.
  - inversion H as [| | ? ? s1 s2 H1 H2 | | | |]; subst.
    rewrite <- app_String. constructor; auto.
Qed.

Lemma derivative_complete r s' :
  in_language r s' -> forall c s, s' = String c s -> in_language (derivative c r) s.
Proof.
  induction 1 as [| member c' Hc | r1 r2 s1 s2 H1 IH1 H2 IH2 | r1 r2 s' _ IH
                 | r1 r2 s' _ IH | | r s1 s2 H1 IH1 H2 IH2];
    intros c s Hs; cbn [derivative]; try done.
  - injection Hs as -> <-. rewrite Hc. constructor.
  - destruct s1 as [|c1 s1].
    + rewrite app_empty_l in Hs.
      rewrite (proj2 (nullable_in r1) H1). apply in_Alt_r. auto.
    + rewrite app_String in Hs. injection Hs as -> <-.
      assert (in_language (Seq (derivative c r1) r2) (s1 +:+ s2)) as Hseq
        by (constructor; auto).
      destruct (nullable r1); [by apply in_Alt_l | done].
  - apply in_Alt_l. auto.
  - apply in_Alt_r. auto.
  - destruct s1 as [|c1 s1].
    + rewrite app_empty_l in Hs. by apply IH2.
    + rewrite app_String in Hs. injection Hs as -> <-. constructor; auto.
Qed.

(** The test by derivatives decides the language. *)
Lemma RegExp_test_in r s : RegExp_test r s = true <-> in_language r s.
Proof.
  revert r. induction s as [|c s IH]; intros r; cbn [RegExp_test].
  - apply nullable_in.
  - rewrite IH. split; [apply derivative_sound |].
    intros H. by eapply derivative_complete.
Qed.

Lemma in_Seq_iff r1 r2 s :
  in_language (Seq r1 r2) s <->
  exists s1 s2, s = s1 +:+ s2 /\ in_language r1 s1 /\ in_language r2 s2.
Proof.
  split.
  - intros H. inversion H; subst. eauto.
  - intros (s1 & s2 & -> & H1 & H2). by constructor.
Qed.

Lemma in_Class_iff member s :
  in_language (Class member) s <-> exists c, s = String c "" /\ member c = true.
Proof.
  split.
  - intros H. inversion H; subst. eauto.
  - intros (c & -> & Hc). by constructor.
Qed.

Lemma in_Literal l s : in_language (Literal l) s <-> s = l.
Proof.
  revert s. induction l as [|c l IH]; intros s; cbn [Literal].
  - split; [intros H; by inversion H | intros ->; constructor].
  - rewrite in_Seq_iff. split.
    + intros (s1 & s2 & -> & (c' & -> & Hc)%in_Class_iff & ->%IH).
      apply Ascii.eqb_eq in Hc as ->. done.
    + intros ->. exists (String c ""), l. split; [done |]. split; [| by apply IH].
      constructor. apply Ascii.eqb_refl.
Qed.

Lemma in_Star_Class member s :
  in_language (Star (Class member)) s <-> all_chars member s = true.
Proof.
  split.
  - remember (Star (Class member)) as r eqn:Hr. intros H.
    induction H as [| | | | | | r' s1 s2 H1 _ H2 IH2]; try done.
    injection Hr as ->. inversion H1; subst.
    rewrite app_String, app_empty_l. cbn [all_chars]. rewrite IH2 by done.
    by apply andb_true_iff.
  - induction s as [|c s IH]; cbn [all_chars]; [constructor |].
    intros [Hc Hs]%andb_true_iff.
    change (String c s) with (String c "" +:+ s). constructor; [by constructor | auto].
Qed.

Lemma in_Repeat_Class n member : forall s,
  in_language (Repeat n (Class member)) s <->
  String.length s = n /\ all_chars member s = true.
Proof.
  induction n as [|n IH]; intros s; cbn [Repeat].
  - split.
    + intros H. by inversion H.
    + intros [Hlen _]. destruct s; [constructor | done].
  - rewrite in_Seq_iff. split.
    + intros (s1 & s2 & -> & (c & -> & Hc)%in_Class_iff & [Hlen Hall]%IH).
      rewrite app_String, app_empty_l. cbn [String.length all_chars].
      by rewrite Hlen, Hc, Hall.
    + intros [Hlen Hall]. destruct s as [|c s]; [done |].
      cbn [String.length all_chars] in Hlen, Hall.
      apply andb_true_iff in Hall as [Hc Hall]. injection Hlen as Hlen.
      exists (String c ""), s. split; [done |]. split; [by constructor |].
      by apply IH.
Qed.

Lemma in_identifier s :
  in_language (Seq (Class identifier_start) (Star (Class identifier_part))) s <->
  is_identifier s = true.
Proof.
  rewrite in_Seq_iff. split.
  - intros (s1 & s2 & -> & (c & -> & Hc)%in_Class_iff & Hrest%in_Star_Class).
    rewrite app_String, app_empty_l. cbn [is_identifier]. by rewrite Hc, Hrest.
  - destruct s as [|c s]; [done |]. cbn [is_identifier].
    intros [Hc Hs]%andb_true_iff.
    exists (String c ""), s. split; [done |].
    split; [by constructor | by apply in_Star_Class].
Qed.

(** ** Addresses and coin types *)

(** X24.  [isValidSuiAddress] accepts exactly the strings [0x] followed by
    64 hexadecimal digits, so only strings of 66 characters. *)
Theorem isValidSuiAddress_shape (address : string) :
  (isValidSuiAddress address = true <->
   exists digits,
     address = "0x" +:+ digits /\
     String.length digits = 64%nat /\ all_chars hex_digit digits = true) /\
  (isValidSuiAddress address = true -> String.length address = 66%nat).
Proof.
  assert (isValidSuiAddress address = true <->
          exists digits,
            address = "0x" +:+ digits /\
            String.length digits = 64%nat /\ all_chars hex_digit digits = true)
    as Hshape.
  { unfold isValidSuiAddress. rewrite RegExp_test_in, in_Seq_iff. split.
    - intros (s1 & s2 & -> & ->%in_Literal & Hdigits%in_Repeat_Class). eauto.
    - intros (digits & -> & Hdigits). exists "0x", digits.
      split; [done |]. split; [by apply in_Literal | by apply in_Repeat_Class]. }
  split; [exact Hshape |].
  intros (digits & -> & Hlen & _)%Hshape.
  rewrite !app_String, app_empty_l. cbn [String.length]. by rewrite Hlen.
Qed.
Lemma in_Plus_Class member s :
  in_language (Plus (Class member)) s <-> s <> "" /\ all_chars member s = true.
Proof.
  unfold Plus. rewrite in_Seq_iff. split.
  - intros (s1 & s2 & -> & (c & -> & Hc)%in_Class_iff & Hrest%in_Star_Class).
    rewrite app_String, app_empty_l. cbn [all_chars]. by rewrite Hc, Hrest.
  - intros [Hne Hall]. destruct s as [|c s]; [done |].
    cbn [all_chars] in Hall. apply andb_true_iff in Hall as [Hc Hall].
    exists (String c ""), s. split; [done |].
    split; [by constructor | by apply in_Star_Class].
Qed.

Lemma isValidCoinType_parts (coinType : string) :
  isValidCoinType coinType = true <->
  exists package module name,
    coinType = "0x" +:+ package +:+ "::" +:+ module +:+ "::" +:+ name /\
    package <> "" /\ all_chars hex_digit package = true /\
    is_identifier module = true /\ is_identifier name = true.
Proof.
  unfold isValidCoinType. cbv zeta. rewrite RegExp_test_in. split.
  - intros (s0 & t0 & -> & ->%in_Literal &
            (package & t1 & -> & [Hne Hhex]%in_Plus_Class &
             (s2 & t2 & -> & ->%in_Literal &
              (module & t3 & -> & Hmodule%in_identifier &
               (s4 & name & -> & ->%in_Literal & Hname%in_identifier
               )%in_Seq_iff)%in_Seq_iff)%in_Seq_iff)%in_Seq_iff)%in_Seq_iff.
    exists package, module, name. done.
  - intros (package & module & name & -> & Hne & Hhex & Hmodule & Hname).
    apply in_Seq; [by apply in_Literal |].
    apply in_Seq; [by apply in_Plus_Class |].
    apply in_Seq; [by apply in_Literal |].
    apply in_Seq; [by apply in_identifier |].
    apply in_Seq; [by apply in_Literal | by apply in_identifier].
Qed.

Lemma all_chars_has_char member c s :
  member c = false -> all_chars member s = true -> has_char c s = false.
Proof.
  intros Hc. induction s as [|d s IH]; cbn [all_chars has_char]; [done |].
  intros [Hd Hs]%andb_true_iff. rewrite IH by done.
  destruct (Ascii.eqb_spec c d) as [<- |]; [congruence | done].
Qed.

Lemma is_identifier_all_chars s :
  is_identifier s = true -> s <> "" /\ all_chars identifier_part s = true.
Proof.
  destruct s as [|c s]; [done |]. cbn [is_identifier all_chars].
  intros [Hc Hs]%andb_true_iff. split; [done |]. rewrite Hs, andb_true_r.
  unfold identifier_start in Hc. unfold identifier_part.
  apply orb_true_iff in Hc as [[Hc | Hc]%orb_true_iff | Hc]; rewrite Hc;
    by rewrite ?orb_true_r.
Qed.

Lemma split_from_piece piece s :
  has_char ":" s = false -> split_from "::" 0 piece s = [piece +:+ s].
Proof.
  revert piece. induction s as [|c s IH]; intros piece; cbn [has_char split_from].
  - by rewrite app_empty_r.
  - intros [Hc Hs]%orb_false_iff.
    cbn [starts_with]. rewrite Hc. cbn [andb].
    rewrite IH by done. by rewrite append_assoc, app_String, app_empty_l.
Qed.

Lemma split_from_separator piece s rest :
  has_char ":" s = false ->
  split_from "::" 0 piece (s +:+ "::" +:+ rest) =
  (piece +:+ s) :: split_from "::" 0 "" rest.
Proof.
  revert piece. induction s as [|c s IH]; intros piece; cbn [has_char].
  - intros _. rewrite app_empty_l, app_empty_r, !app_String, app_empty_l. done.
  - intros [Hc Hs]%orb_false_iff. rewrite app_String.
    cbn [split_from starts_with]. rewrite Hc. cbn [andb].
    rewrite IH by done. by rewrite append_assoc, app_String, app_empty_l.
Qed.

Lemma String_split_coin_type address module name :
  has_char ":" address = false -> has_char ":" module = false ->
  has_char ":" name = false ->
  String_split "::" (address +:+ "::" +:+ module +:+ "::" +:+ name) =
  [address; module; name].
Proof.
  intros Haddress Hmodule Hname. unfold String_split.
  rewrite split_from_separator by done.
  rewrite split_from_separator by done.
  rewrite split_from_piece by done.
  by rewrite !app_empty_l.
Qed.

Lemma getTokenSymbol_parts package module name :
  all_chars hex_digit package = true ->
  is_identifier module = true -> is_identifier name = true ->
  getTokenSymbol ("0x" +:+ package +:+ "::" +:+ module +:+ "::" +:+ name) = name.
Proof.
  intros Hhex [_ Hmodule]%is_identifier_all_chars
         [Hne Hname]%is_identifier_all_chars.
  unfold getTokenSymbol. cbv zeta.
  rewrite <- (append_assoc "0x" package).
  rewrite String_split_coin_type.
  - cbn [last]. by rewrite bool_decide_eq_false_2.
  - rewrite !app_String, app_empty_l. cbn [has_char].
    by rewrite (all_chars_has_char hex_digit).
  - by apply (all_chars_has_char identifier_part).
  - by apply (all_chars_has_char identifier_part).
Qed.

(** X25.  [isValidCoinType] accepts exactly the strings
    [0x<package>::<module>::<name>] whose package is one or more hexadecimal
    digits and whose module and name are identifiers. *)
Theorem isValidCoinType_shape (coinType : string) :
  isValidCoinType coinType = true <->
  exists package module name,
    coinType = "0x" +:+ package +:+ "::" +:+ module +:+ "::" +:+ name /\
    package <> "" /\ all_chars hex_digit package = true /\
    is_identifier module = true /\ is_identifier name = true.
Proof. apply isValidCoinType_parts. Qed.

(** X26.  On a coin type that [isValidCoinType] accepts, [getTokenSymbol]
    returns the identifier after the last [::], never the fallback
    [UNKNOWN] for want of a part. *)
Theorem getTokenSymbol_of_valid_coin_type (coinType : string) :
  isValidCoinType coinType = true ->
  exists prefix name,
    coinType = prefix +:+ "::" +:+ name /\
    is_identifier name = true /\
    getTokenSymbol coinType = name.
Proof.
  intros (package & module & name & -> & _ & Hhex & Hmodule & Hname
         )%isValidCoinType_parts.
  exists ("0x" +:+ package +:+ "::" +:+ module), name.
  split; [by rewrite !append_assoc |]. split; [done |].
  by apply getTokenSymbol_parts.
Qed.

Lemma getTokenSymbol_of_valid_coin_type_witness :
  isValidCoinType "0x2::sui::SUI" = true /\
  exists prefix name,
    "0x2::sui::SUI" = prefix +:+ "::" +:+ name /\
    is_identifier name = true /\
    getTokenSymbol "0x2::sui::SUI" = name.
Proof.
  split; [reflexivity |].
  apply (getTokenSymbol_of_valid_coin_type "0x2::sui::SUI"). reflexivity.
Defined.

(** X27.  When the package id is [0x] followed by hexadecimal digits, every
    intermediate token the quoter routes through is a coin type that
    [isValidCoinType] accepts, and its symbol is [TEST_USDC]. *)
Theorem getCommonIntermediateTokens_valid (package : string) (token : string) :
  package <> "" -> all_chars hex_digit package = true ->
  token ∈ QuoterManager.getCommonIntermediateTokens ("0x" +:+ package) ->
  isValidCoinType token = true /\ getTokenSymbol token = "TEST_USDC".
Proof.
  intros Hne Hhex ->%list_elem_of_singleton.
  assert ("0x" +:+ package +:+ "::test_usdc::TEST_USDC" =
          "0x" +:+ package +:+ "::" +:+ "test_usdc" +:+ "::" +:+ "TEST_USDC")
    as Htoken by reflexivity.
  rewrite append_assoc, Htoken. split.
  - apply isValidCoinType_parts. by exists package, "test_usdc", "TEST_USDC".
  - by apply getTokenSymbol_parts.
Qed.

Lemma getCommonIntermediateTokens_valid_witness :
  isValidCoinType "0x2::test_usdc::TEST_USDC" = true /\
  getTokenSymbol "0x2::test_usdc::TEST_USDC" = "TEST_USDC".
Proof.
  apply (getCommonIntermediateTokens_valid "2"); [done | reflexivity |].
  apply list_elem_of_singleton. reflexivity.
Defined.

(** * Further properties of the quoting engine and the bin price *)

(** ** Combining two hops *)

Lemma Math_max_cases a b :
  is_NaN a = false -> is_NaN b = false ->
  Math_max a b = a \/ Math_max a b = b.
Proof.
  intros Ha Hb. unfold Math_max. rewrite Ha, Hb. cbn [orb].
  destruct (Number_lt a b); auto.
Qed.

(** C1, amended.  For every pair of hop quotes, the quote [combineHops]
    makes of them has the second hop's [amountOut].  Its [feeAmount] and
    [gasEstimate] are the sums of the two hops' fees and gas estimates taken
    in Number arithmetic and printed: for numerals of non-negative integers
    with a sum below [2^53] the numeral of the integer sum, for numerals of
    any non-negative integers the printed sum of the nearest Numbers, and
    [NaN] when a field does not start with a number.  Its [priceImpact] is
    the printed Number sum (plain addition, no compounding) of the two parsed
    price impacts, the numeral of the integer sum when both are numerals of
    non-negative integers with a sum below [2^53].  Its hops are the first
    hop's followed by the second's, with route type multi-hop, and its
    [slippageTolerance] is [Math.max] of the two tolerances: one of the two
    and at least both when neither is [NaN]. *)
Theorem combineHops_fields (originalParams : QuoteParams.t)
    (firstHop secondHop : QuoteResult.t) (intermediate : string) :
  let combined := combineHops originalParams firstHop secondHop intermediate in
  let sum_int (f : QuoteResult.t -> value) :=
    Number_add (parseInt (f firstHop)) (parseInt (f secondHop)) in
  let sums_integers (f : QuoteResult.t -> value) :=
    forall a b : Z,
      0 <= a -> 0 <= b -> a + b < 2 ^ 53 ->
      f firstHop = VString (numeral a) -> f secondHop = VString (numeral b) ->
      f combined = VString (numeral (a + b)) in
  let sums_Numbers (f : QuoteResult.t -> value) :=
    forall a b : Z,
      f firstHop = VString (numeral a) -> f secondHop = VString (numeral b) ->
      f combined =
        VString (Number_toString
                   (Number_add (Number_of (inject_Z a)) (Number_of (inject_Z b)))) in
  let sum_NaN (f : QuoteResult.t -> value) :=
    is_NaN (parseInt (f firstHop)) || is_NaN (parseInt (f secondHop)) = true ->
    f combined = VString "NaN" in
  QuoteResult.amountOut combined = QuoteResult.amountOut secondHop /\
  (QuoteResult.feeAmount combined =
     VString (Number_toString (sum_int QuoteResult.feeAmount)) /\
   sums_integers QuoteResult.feeAmount /\
   sums_Numbers QuoteResult.feeAmount /\
   sum_NaN QuoteResult.feeAmount) /\
  (QuoteResult.gasEstimate combined =
     VString (Number_toString (sum_int QuoteResult.gasEstimate)) /\
   sums_integers QuoteResult.gasEstimate /\
   sums_Numbers QuoteResult.gasEstimate /\
   sum_NaN QuoteResult.gasEstimate) /\
  (QuoteResult.priceImpact combined =
     Number_toString
       (Number_add (parseFloat_string (QuoteResult.priceImpact firstHop))
                   (parseFloat_string (QuoteResult.priceImpact secondHop))) /\
   forall a b : Z,
     0 <= a -> 0 <= b -> a + b < 2 ^ 53 ->
     QuoteResult.priceImpact firstHop = numeral a ->
     QuoteResult.priceImpact secondHop = numeral b ->
     QuoteResult.priceImpact combined = numeral (a + b)) /\
  SwapRoute.hops (QuoteResult.route combined) =
    SwapRoute.hops (QuoteResult.route firstHop) ++
    SwapRoute.hops (QuoteResult.route secondHop) /\
  SwapRoute.routeType (QuoteResult.route combined) = multi_hop /\
  (QuoteResult.slippageTolerance combined =
     Math_max (QuoteResult.slippageTolerance firstHop)
              (QuoteResult.slippageTolerance secondHop) /\
   (is_NaN (QuoteResult.slippageTolerance firstHop) = false ->
    is_NaN (QuoteResult.slippageTolerance secondHop) = false ->
    (QuoteResult.slippageTolerance combined = QuoteResult.slippageTolerance firstHop \/
     QuoteResult.slippageTolerance combined = QuoteResult.slippageTolerance secondHop) /\
    Number_le (QuoteResult.slippageTolerance firstHop)
              (QuoteResult.slippageTolerance combined) = true /\
    Number_le (QuoteResult.slippageTolerance secondHop)
              (QuoteResult.slippageTolerance combined) = true)).
Proof.
  cbn zeta. cbn [combineHops QuoteResult.amountOut QuoteResult.feeAmount
    QuoteResult.gasEstimate QuoteResult.priceImpact QuoteResult.route
    QuoteResult.slippageTolerance SwapRoute.hops SwapRoute.routeType].
  assert (forall x y : number, is_NaN x || is_NaN y = true ->
                               Number_toString (Number_add x y) = "NaN") as Hnan.
  { intros [| |] [| |]; by cbn. }
  assert (forall a b : Z,
            0 <= a -> 0 <= b -> a + b < 2 ^ 53 ->
            Number_toString
              (Number_add (parseInt (VString (numeral a)))
                          (parseInt (VString (numeral b)))) = numeral (a + b))
    as Hexact.
  { intros a b Ha Hb Hab.
    by rewrite !parseInt_numeral, Number_add_of_Z, Number_toString_of_Z by lia. }
  split; [done |].
  split; [| split; [| split; [| split; [done | split; [done |]]]]].
  - split; [done |]. split; [| split].
    + intros a b Ha Hb Hab -> ->. f_equal. by apply Hexact.
    + intros a b -> ->. unfold parseInt. cbn [ToString].
      by rewrite !parseInt_string_numeral.
    + intros H. f_equal. by apply Hnan.
  - split; [done |]. split; [| split].
    + intros a b Ha Hb Hab -> ->. f_equal. by apply Hexact.
    + intros a b -> ->. unfold parseInt. cbn [ToString].
      by rewrite !parseInt_string_numeral.
    + intros H. f_equal. by apply Hnan.
  - split; [done |].
    intros a b Ha Hb Hab -> ->. unfold numeral at 1 2.
    destruct (Z.ltb_spec a 0), (Z.ltb_spec b 0); try lia.
    rewrite !parseFloat_string_nat_numeral, !decimal_integer by lia.
    by rewrite Number_add_of_Z, Number_toString_of_Z by lia.
  - split; [done |]. intros H1 H2.
    split; [by apply Math_max_cases |]. by apply Math_max_upper.
Qed.

(** C1 as stated fails: the fees [2^53] and 1 add up to [2^53] again, a fee
    that is no number makes the sum [NaN], and the price impacts 0.1 and 0.2
    add up to 0.30000000000000004; all in hops that are valid. *)
Lemma combineHops_sums_not_exact :
  let firstHop := quote_of_response "90" "0.1" "9007199254740992" "150000" in
  let secondHop := quote_of_response "80" "0.2" "1" "150000" in
  let malformed := quote_of_response "90" "0.1" "abc" "150000" in
  QuoteResult.isValid firstHop = true /\
  QuoteResult.isValid secondHop = true /\
  QuoteResult.isValid malformed = true /\
  QuoteResult.feeAmount firstHop = VString (numeral 9007199254740992) /\
  QuoteResult.feeAmount secondHop = VString (numeral 1) /\
  QuoteResult.feeAmount (combineHops A_to_B firstHop secondHop "X") =
    VString (numeral 9007199254740992) /\
  QuoteResult.feeAmount (combineHops A_to_B firstHop secondHop "X") <>
    VString (numeral (9007199254740992 + 1)) /\
  QuoteResult.feeAmount (combineHops A_to_B malformed secondHop "X") =
    VString "NaN" /\
  QuoteResult.priceImpact (combineHops A_to_B firstHop secondHop "X") =
    "0.30000000000000004".
Proof. cbv zeta. repeat split; vm_compute; (reflexivity || discriminate). Qed.

(** ** Selecting the best route *)

Section reduce_NaN.
Context {A : Type} (score : A -> number).

(** A first candidate whose score is [NaN] is never beaten. *)
Lemma reduce_better_NaN first rest :
  is_NaN (score first) = true -> reduce (better score) first rest = first.
Proof.
  intros Hnan. induction rest as [|x rest IH] using rev_ind; [done |].
  rewrite reduce_snoc, IH. unfold better.
  destruct (score first); [| done | done]. by destruct (score x).
Qed.

(** A candidate whose score is [NaN] never beats another. *)
Lemma reduce_better_not_NaN first rest :
  is_NaN (score first) = false ->
  is_NaN (score (reduce (better score) first rest)) = false.
Proof.
  intros Hfirst. induction rest as [|x rest IH] using rev_ind; [done |].
  rewrite reduce_snoc. unfold better at 1.
  destruct (Number_gt (score x) _) eqn:Hgt; [| done].
  unfold Number_gt in Hgt. by destruct (score x), (score (reduce _ _ _)).
Qed.

End reduce_NaN.

Lemma Number_add_NaN a b :
  is_NaN a || is_NaN b = true -> is_NaN (Number_add a b) = true.
Proof. by destruct a, b. Qed.

Lemma Number_sub_NaN a b :
  is_NaN a || is_NaN b = true -> is_NaN (Number_sub a b) = true.
Proof. by destruct a, b. Qed.

Lemma Number_mul_NaN a b :
  is_NaN a || is_NaN b = true -> is_NaN (Number_mul a b) = true.
Proof. by destruct a, b. Qed.

(** C2, amended.  [selectBestRoute] keeps the candidates with
    [isValid = true], in the order direct, single-hop, multi-hop.  If none is
    left it returns the empty quote.  The score of a quote is, in Number
    arithmetic, [amountOut - (feeAmount + gasEstimate * 0.001) -
    priceImpact * 1000] of its parsed fields, [NaN] when a field does not
    parse.  If the first candidate scores [NaN] it is returned.  Otherwise
    the candidate at some position [i] is returned whose score is a number,
    at least the score of every candidate that scores a number, and above
    the score of every such candidate before [i]: of the candidates that
    score a number, the first of maximal score. *)
Theorem selectBestRoute_first_maximum (multiRoute : MultiRouteQuote.t) :
  let candidates :=
    List.filter (fun route => QuoteResult.isValid route)
      (spread_optional (MultiRouteQuote.directRoute multiRoute) ++
       MultiRouteQuote.singleHopRoutes multiRoute ++
       MultiRouteQuote.multiHopRoutes multiRoute) in
  let best := selectBestRoute multiRoute in
  match candidates with
  | [] => best = createEmptyQuote
  | first :: _ =>
      if is_NaN (calculateRouteScore first) then best = first
      else
        exists i,
          candidates !! i = Some best /\
          is_NaN (calculateRouteScore best) = false /\
          forall j q,
            candidates !! j = Some q ->
            is_NaN (calculateRouteScore q) = false ->
            Number_le (calculateRouteScore q) (calculateRouteScore best) = true /\
            ((j < i)%nat ->
             Number_lt (calculateRouteScore q) (calculateRouteScore best) = true)
  end /\
  (forall quote : QuoteResult.t,
     calculateRouteScore quote =
       Number_sub
         (Number_sub (parseInt (QuoteResult.amountOut quote))
            (Number_add (parseInt (QuoteResult.feeAmount quote))
               (Number_mul (parseInt (QuoteResult.gasEstimate quote))
                           (decimal 1 (-3)))))
         (Number_mul (parseFloat_string (QuoteResult.priceImpact quote))
                     (of_Z 1000))) /\
  (forall quote : QuoteResult.t,
     is_NaN (parseInt (QuoteResult.amountOut quote)) ||
     is_NaN (parseInt (QuoteResult.feeAmount quote)) ||
     is_NaN (parseInt (QuoteResult.gasEstimate quote)) ||
     is_NaN (parseFloat_string (QuoteResult.priceImpact quote)) = true ->
     is_NaN (calculateRouteScore quote) = true).
Proof.
  cbn zeta. split; [| split; [done |]].
  - unfold selectBestRoute.
    destruct (List.filter _ _) as [|first rest]; [done |].
    change (reduce _ first rest)
      with (reduce (better calculateRouteScore) first rest).
    destruct (is_NaN (calculateRouteScore first)) eqn:Hfirst.
    { by apply reduce_better_NaN. }
    destruct (reduce_better_first_maximum calculateRouteScore first rest)
      as (i & Hi & Hall).
    pose proof (reduce_better_not_NaN calculateRouteScore first rest Hfirst) as Hbest.
    exists i. split; [done |]. split; [done |].
    intros j q Hq Hnum. destruct (Hall j q Hq) as [Hgt Hge].
    unfold Number_gt in Hgt. unfold Number_le. rewrite Hnum, Hbest, Hgt.
    split; [done |]. intros Hj. specialize (Hge Hj).
    unfold Number_ge, Number_le in Hge. rewrite Hnum, Hbest in Hge.
    cbn [negb andb] in Hge. by apply negb_false_iff in Hge.
  - intros quote Hnan. unfold calculateRouteScore.
    apply Number_sub_NaN, orb_true_iff.
    apply orb_true_iff in Hnan as [Hnan | Hnan];
      [left | right; apply Number_mul_NaN; by rewrite Hnan].
    apply Number_sub_NaN, orb_true_iff.
    apply orb_true_iff in Hnan as [Hnan | Hnan];
      [| right; apply Number_add_NaN, orb_true_iff; right;
         apply Number_mul_NaN; by rewrite Hnan].
    apply orb_true_iff in Hnan as [Hnan | Hnan]; [by left | right].
    apply Number_add_NaN. by rewrite Hnan.
Qed.

(** C2 as stated fails.  A valid quote whose fee is no number scores [NaN];
    listed first it is returned, although the quote after it scores -61, and
    listed second it is passed over.  And of two valid quotes that differ in
    [amountOut] only, by one unit above [2^53], the first, of the smaller
    output, is returned: the scores are the same Number. *)
Lemma selectBestRoute_not_maximum :
  let malformed := quote_of_response "100" "0" "abc" "150000" in
  let good := quote_of_response "90" "0" "1" "150000" in
  let smaller := quote_of_response "9007199254740992" "0" "0" "0" in
  let larger := quote_of_response "9007199254740993" "0" "0" "0" in
  (QuoteResult.isValid malformed = true /\ QuoteResult.isValid good = true /\
   is_NaN (calculateRouteScore malformed) = true /\
   Number_toString (calculateRouteScore good) = "-61" /\
   selectBestRoute (candidates_only [malformed; good]) = malformed /\
   selectBestRoute (candidates_only [good; malformed]) = good) /\
  (QuoteResult.isValid smaller = true /\ QuoteResult.isValid larger = true /\
   QuoteResult.amountOut smaller = VString (numeral 9007199254740992) /\
   QuoteResult.amountOut larger = VString (numeral (9007199254740992 + 1)) /\
   QuoteResult.feeAmount larger = QuoteResult.feeAmount smaller /\
   QuoteResult.gasEstimate larger = QuoteResult.gasEstimate smaller /\
   QuoteResult.priceImpact larger = QuoteResult.priceImpact smaller /\
   Number_strict_eq (calculateRouteScore smaller) (calculateRouteScore larger) = true /\
   selectBestRoute (candidates_only [smaller; larger]) = smaller /\
   smaller <> larger).
Proof. cbv zeta. repeat split; vm_compute; (reflexivity || discriminate). Qed.

(** ** A direct route that fails *)

Section direct_failure.

Context {W : Type} (Date_now : W -> Z).
Context (devInspectTransactionBlock : MoveCall.t -> W -> Completion value * W).
Context (packageId factoryId : string).

Local Abbreviation getCachedQuote := (getCachedQuote Date_now).
Local Abbreviation get_quote_call := (get_quote_call packageId factoryId).
Local Abbreviation getContractQuote :=
  (getContractQuote devInspectTransactionBlock packageId factoryId).
Local Abbreviation getSingleHopQuotes :=
  (getSingleHopQuotes devInspectTransactionBlock packageId factoryId).
Local Abbreviation getMultiRouteQuotes :=
  (getMultiRouteQuotes devInspectTransactionBlock packageId factoryId).
Local Abbreviation getBestQuote :=
  (getBestQuote Date_now devInspectTransactionBlock packageId factoryId).

(** With its one intermediate [getSingleHopQuotes] finds one route at most. *)
Lemma getSingleHopQuotes_at_most_one params (s : state) :
  exists routes s',
    getSingleHopQuotes params s = (Normal routes, s') /\
    (routes = [] \/
     exists route, routes = [route] /\ combined_of_valid_hops params route).
Proof.
  unfold QuoterManager.getSingleHopQuotes, QuoterManager.getCommonIntermediateTokens.
  unfold bindM at 1. cbn [singleHopQuotes_loop].
  destruct (_ || _); [exists [], s; split; [done | by left] |].
  unfold bindM at 1, try_catchM at 1.
  destruct (singleHopQuote_outcome devInspectTransactionBlock packageId factoryId
              params (packageId +:+ "::test_usdc::TEST_USDC") s)
    as (out & s1 & -> & _ & Hcombined).
  destruct out as [[route|]|e]; cbn.
  - eexists _, _. split; [reflexivity |]. right. exists route. split; [done |].
    by apply Hcombined.
  - eexists _, _. split; [reflexivity |]. by left.
  - eexists _, _. split; [reflexivity |]. by left.
Qed.

(** What [getMultiRouteQuotes] does once the direct call has thrown. *)
Lemma getMultiRouteQuotes_direct_failure params maxHops (s : state) e w routes s1 :
  devInspectTransactionBlock
    (get_quote_call (QuoteParams.tokenIn params) (QuoteParams.tokenOut params)
       (VString (QuoteParams.amountIn params))) (world s) = (Throw e, w) ->
  (if Number_ge maxHops (of_Z 2) then getSingleHopQuotes params else ret [])
    (State (quoteCache s)
       (console s ++
        ["Error getting contract quote: " +:+ exn_toString e;
         "Direct route failed: " +:+
         exn_toString (Error ("Contract quote failed: " +:+ exn_toString e))])
       w) = (Normal routes, s1) ->
  exists multiRoute,
    getMultiRouteQuotes params maxHops s = (Normal multiRoute, s1) /\
    MultiRouteQuote.directRoute multiRoute = None /\
    MultiRouteQuote.singleHopRoutes multiRoute = routes /\
    MultiRouteQuote.multiHopRoutes multiRoute = [].
Proof.
  intros Hthrow Hsingle.
  unfold QuoterManager.getMultiRouteQuotes, try_catchM at 1, bindM at 1, try_catchM at 1,
    bindM at 1.
  pose proof (getContractQuote_cases devInspectTransactionBlock packageId factoryId
                (QuoteParams.tokenIn params) (QuoteParams.tokenOut params)
                (VString (QuoteParams.amountIn params)) s) as Hdirect.
  rewrite Hthrow in Hdirect. rewrite Hdirect.
  cbn [console_log bindM ret]. unfold bindM at 1. cbn [console_log ret].
  unfold bindM. cbn [quoteCache console world].
  rewrite <- app_assoc. cbn [app].
  match goal with
  | |- context [(if Number_ge maxHops (of_Z 2) then ?f else ?g) ?st] =>
      assert ((if Number_ge maxHops (of_Z 2) then f else g) st =
              (Normal routes, s1)) as -> by exact Hsingle
  end.
  cbn [ret]. eexists. split; [reflexivity |]. by destruct (_ <? _)%nat.
Qed.

(** C3, amended.  When the cache has no fresh entry and the gateway call of
    the direct route throws, [getBestQuote] does not raise: the failure is
    logged by [getContractQuote], caught in [getMultiRouteQuotes] and logged
    there as the warning [Direct route failed:].  The routes through an
    intermediate are then sought, when [maxHops] (3 unless given) is at least
    2, and [getBestQuote] returns, and caches under the request's key: the
    multi-hop quote found, enhanced, a valid route from [tokenIn] to
    [tokenOut] (with one intermediate to try there is one at most, so it is
    the best); or, if none is found, the empty quote, enhanced, with
    [isValid = false]. *)
Theorem getBestQuote_absorbs_direct_failure (params : QuoteParams.t)
    (options : QuoteOptions.t) (s : state) (e : exn) (w : W) :
  (getCachedQuote (getCacheKey params) s).1 = Normal None ->
  devInspectTransactionBlock
    (get_quote_call (QuoteParams.tokenIn params) (QuoteParams.tokenOut params)
       (VString (QuoteParams.amountIn params))) (world s) = (Throw e, w) ->
  let warned :=
    State (quoteCache s)
      (console s ++
       ["Error getting contract quote: " +:+ exn_toString e;
        "Direct route failed: " +:+
        exn_toString (Error ("Contract quote failed: " +:+ exn_toString e))])
      w in
  let maxHops := default (of_Z 3) (QuoteOptions.maxHops options) in
  let enhanced quote :=
    enhanceQuote quote
      (default (of_Z 50) (QuoteOptions.slippageTolerance options))
      (default true (QuoteOptions.includeGasEstimate options)) in
  exists routes s1 quote,
    (if Number_ge maxHops (of_Z 2) then getSingleHopQuotes params else ret [])
      warned = (Normal routes, s1) /\
    getBestQuote params options s =
      (Normal quote,
       State (<[getCacheKey params :=
                  {| CacheEntry.quote := quote;
                     CacheEntry.timestamp := Date_now (world s1) |}]>
                (quoteCache s1))
             (console s1) (world s1)) /\
    ((routes = [] /\ quote = enhanced createEmptyQuote /\
      QuoteResult.isValid quote = false) \/
     (exists route,
        routes = [route] /\ quote = enhanced route /\
        selectBestRoute (candidates_only routes) = route /\
        QuoteResult.isValid quote = true /\
        SwapRoute.routeType (QuoteResult.route quote) = multi_hop /\
        route_composition_invariant (QuoteParams.tokenIn params)
          (QuoteParams.tokenOut params) (QuoteResult.route quote))).
Proof.
  intros Hmiss Hthrow warned maxHops enhanced.
  assert (exists routes s1,
            (if Number_ge maxHops (of_Z 2) then getSingleHopQuotes params
             else ret []) warned = (Normal routes, s1) /\
            (routes = [] \/
             exists route, routes = [route] /\ combined_of_valid_hops params route))
    as (routes & s1 & Hsingle & Hroutes).
  { destruct (Number_ge _ _).
    - apply getSingleHopQuotes_at_most_one.
    - exists [], warned. split; [done | by left]. }
  destruct (getMultiRouteQuotes_direct_failure params maxHops s e w routes s1
              Hthrow Hsingle) as (multiRoute & Hmulti & Hdirect & Hsingles & Hnone).
  destruct (getBestQuote_miss Date_now devInspectTransactionBlock packageId factoryId
              params options s Hmiss) as (multiRoute' & s1' & Hmulti' & Hbest).
  fold maxHops in Hmulti'. rewrite Hmulti in Hmulti'. injection Hmulti' as <- <-.
  cbn zeta in Hbest. fold (enhanced (selectBestRoute multiRoute)) in Hbest.
  exists routes, s1, (enhanced (selectBestRoute multiRoute)).
  split; [done |]. split; [done |].
  unfold selectBestRoute. rewrite Hdirect, Hsingles, Hnone.
  destruct Hroutes as [-> | (route & -> & Hroute)]; [by left | right].
  destruct (combined_route_composition params route Hroute)
    as (Hvalid & Htype & _ & Hinvariant).
  exists route. cbn [spread_optional app List.filter candidates_only
    MultiRouteQuote.directRoute MultiRouteQuote.singleHopRoutes
    MultiRouteQuote.multiHopRoutes].
  rewrite Hvalid. cbn [reduce fold_left]. done.
Qed.

End direct_failure.

(** C3 as stated fails: with a gateway whose every call fails in transport,
    [getBestQuote] returns the invalid empty quote instead of raising. *)
Lemma getBestQuote_swallows_transport_failure :
  exists quote,
    (getBestQuote clock unreachable "0x2" "0xf" A_to_B QuoteOptions.empty
       (fresh 0)).1 = Normal quote /\
    QuoteResult.isValid quote = false /\
    QuoteResult.amountOut quote = VString "0".
Proof. eexists. split; [vm_compute; reflexivity | done]. Qed.

(** A gateway that fails on the pair A/B and answers for the two pools
    through USDC, asked at time 0 with an empty cache: the quote through USDC
    is returned. *)
Lemma getBestQuote_absorbs_direct_failure_witness :
  let gateway := two_pools_direct_unreachable in
  let warned :=
    State (quoteCache (fresh 0))
      (console (fresh 0) ++
       ["Error getting contract quote: " +:+ exn_toString (Error "fetch failed");
        "Direct route failed: " +:+
        exn_toString (Error ("Contract quote failed: " +:+
                             exn_toString (Error "fetch failed")))])
      40 in
  let maxHops := default (of_Z 3) (QuoteOptions.maxHops QuoteOptions.empty) in
  let enhanced quote :=
    enhanceQuote quote
      (default (of_Z 50) (QuoteOptions.slippageTolerance QuoteOptions.empty))
      (default true (QuoteOptions.includeGasEstimate QuoteOptions.empty)) in
  exists routes s1 quote,
    (if Number_ge maxHops (of_Z 2)
     then getSingleHopQuotes gateway "0x2" "0xf" A_to_B else ret [])
      warned = (Normal routes, s1) /\
    getBestQuote clock gateway "0x2" "0xf" A_to_B QuoteOptions.empty (fresh 0) =
      (Normal quote,
       State (<[getCacheKey A_to_B :=
                  {| CacheEntry.quote := quote;
                     CacheEntry.timestamp := clock (world s1) |}]>
                (quoteCache s1))
             (console s1) (world s1)) /\
    ((routes = [] /\ quote = enhanced createEmptyQuote /\
      QuoteResult.isValid quote = false) \/
     (exists route,
        routes = [route] /\ quote = enhanced route /\
        selectBestRoute (candidates_only routes) = route /\
        QuoteResult.isValid quote = true /\
        SwapRoute.routeType (QuoteResult.route quote) = multi_hop /\
        route_composition_invariant (QuoteParams.tokenIn A_to_B)
          (QuoteParams.tokenOut A_to_B) (QuoteResult.route quote))).
Proof.
  apply (getBestQuote_absorbs_direct_failure clock two_pools_direct_unreachable
           "0x2" "0xf" A_to_B QuoteOptions.empty (fresh 0) (Error "fetch failed") 40);
    reflexivity.
Defined.

(** There the route through USDC is what is returned. *)
Example getBestQuote_falls_back_to_multi_hop :
  exists quote,
    (getBestQuote clock two_pools_direct_unreachable "0x2" "0xf" A_to_B
       QuoteOptions.empty (fresh 0)).1 = Normal quote /\
    QuoteResult.isValid quote = true /\
    QuoteResult.amountOut quote = VString "80" /\
    SwapRoute.routeType (QuoteResult.route quote) = multi_hop.
Proof. eexists. split; [vm_compute; reflexivity | done]. Qed.

(** ** Minimum output, strictly *)

Section minimum_output_strict.

Local Open Scope Q_scope.

Local Abbreviation multiplier s := (round53 (inject_Z (10000 - s) / 10000)).

(** In the normal range rounding lowers a number by at most one part in
    2^53. *)
Lemma round53_lower x :
  pow2 (-1022) <= x -> x * (1 - pow2 (-53)) <= round53 x.
Proof.
  intros Hx. pose proof (pow2_pos (-1022)) as Hp.
  rewrite round53_eq by lra. rewrite ulp_exponent_normal by exact Hx.
  destruct (ilog2_spec x) as [Hlo _]; [lra |].
  set (e := ilog2 x) in *.
  pose proof (pow2_pos (e - 52)) as Hu.
  destruct (rne_bounds (x / pow2 (e - 52))) as [Hr _].
  assert (pow2 (e - 52) == 2 * (pow2 e * pow2 (-53))) as Hulp.
  { rewrite <- pow2_add, <- pow2_succ. replace (e + -53 + 1)%Z with (e - 52)%Z by lia.
    reflexivity. }
  pose proof (pow2_pos (-53)) as H53.
  apply Qle_trans with ((x / pow2 (e - 52) - (1 # 2)) * pow2 (e - 52)).
  - setoid_replace ((x / pow2 (e - 52) - (1 # 2)) * pow2 (e - 52))
      with (x - (1 # 2) * pow2 (e - 52)) using relation Qeq by (field; lra).
    rewrite Hulp. nra.
  - apply Qmult_le_compat_r; [exact Hr | lra].
Qed.

(** From 10001 on, one basis point more lowers the floor. *)
Lemma scaled_amount_strict a s1 s2 :
  (10001 <= a < 2 ^ 53)%Z -> (0 <= s1)%Z -> (s1 < s2)%Z -> (s2 <= 10000)%Z ->
  (Qfloor (round53 (inject_Z a * multiplier s2)) <
   Qfloor (round53 (inject_Z a * multiplier s1)))%Z.
Proof.
  intros Ha Hs1 Hs Hs2.
  assert (10001 <= inject_Z a) as HA
    by (change 10001 with (inject_Z 10001); rewrite <- Zle_Qle; lia).
  assert (pow2 (-1022) <= 1 # 10001) as Htiny.
  { apply Qle_trans with (pow2 (-14)); [apply pow2_le; lia | by vm_compute]. }
  assert ((1 # 10001) <= multiplier 9999) as H9999 by (by vm_compute).
  pose proof (multiplier_mono s1 9999 ltac:(lia)) as Hm1.
  assert (1 <= inject_Z a * multiplier s1) as Hx1.
  { apply Qle_trans with (inject_Z a * (1 # 10001)); [lra |].
    rewrite !(Qmult_comm (inject_Z a)). apply Qmult_le_compat_r; lra. }
  assert (1 <= round53 (inject_Z a * multiplier s1)) as Hy1.
  { rewrite <- round53_1. apply round53_mono; [right; lra | exact Hx1]. }
  set (y1 := round53 (inject_Z a * multiplier s1)) in *.
  set (y2 := round53 (inject_Z a * multiplier s2)).
  enough (y2 + 1 <= y1) as Hstep.
  { pose proof (Qfloor_le y2) as Hf2.
    assert (inject_Z (Qfloor y2 + 1) <= y1) as Hle.
    { rewrite inject_Z_plus. change (inject_Z 1) with 1. lra. }
    apply Qfloor_resp_le in Hle. rewrite Qfloor_Z in Hle. lia. }
  destruct (Z.eq_dec s2 10000%Z) as [-> | Hne].
  { assert (y2 == 0) as ->; [| lra].
    subst y2. rewrite (round53_0 (inject_Z a * multiplier 10000)); [reflexivity |].
    rewrite multiplier_10000. ring. }
  (* both multipliers are normal: the bounds of one part in 2^53 apply *)
  set (r1 := inject_Z (10000 - s1) / 10000).
  set (r2 := inject_Z (10000 - s2) / 10000).
  assert (1 # 10000 <= r2) as Hr2.
  { subst r2. unfold Qdiv. change (/ 10000) with (1 # 10000).
    pose proof (inject_Z_ge_1 (10000 - s2) ltac:(lia)). lra. }
  assert (r2 <= 1) as Hr2'.
  { subst r2. unfold Qdiv. change (/ 10000) with (1 # 10000).
    assert (inject_Z (10000 - s2) <= 10000)
      by (change 10000 with (inject_Z 10000); rewrite <- Zle_Qle; lia).
    lra. }
  assert (r2 + (1 # 10000) <= r1) as Hr1.
  { subst r1 r2. unfold Qdiv. change (/ 10000) with (1 # 10000).
    assert (inject_Z (10000 - s2) + 1 <= inject_Z (10000 - s1)).
    { change 1 with (inject_Z 1). rewrite <- inject_Z_plus, <- Zle_Qle. lia. }
    lra. }
  assert (pow2 (-1022) <= 1 # 10000) as Htiny'.
  { apply Qle_trans with (pow2 (-14)); [apply pow2_le; lia | by vm_compute]. }
  pose proof (round53_lower r1 ltac:(lra)) as Hm1lo.
  pose proof (round53_upper r2 ltac:(lra)) as Hm2hi.
  fold r1 r2 in y1, y2, Hx1, Hm1. 
  set (m1 := round53 r1) in *. set (m2 := round53 r2) in *.
  set (u := pow2 (-53)) in *.
  assert (u == 1 # 9007199254740992) as Hu by reflexivity.
  set (A := inject_Z a) in *.
  assert (0 <= m2) as Hm2pos by (apply round53_nonneg; lra).
  (* the products, bounded through [A * r1] and [A * r2] *)
  assert (A * r1 * (1 - u) <= A * m1) as HP1.
  { rewrite <- Qmult_assoc, !(Qmult_comm A). apply Qmult_le_compat_r; lra. }
  assert (A * m2 <= A * r2 * (1 + u)) as HP2.
  { rewrite <- Qmult_assoc, !(Qmult_comm A). apply Qmult_le_compat_r; lra. }
  assert (A * r2 <= A) as HP2'.
  { rewrite <- (Qmult_1_r A) at 2. rewrite !(Qmult_comm A).
    apply Qmult_le_compat_r; lra. }
  assert (0 <= A * r2) as HP2pos by (apply Qmult_le_0_compat; lra).
  assert (A * r2 + A * (1 # 10000) <= A * r1) as HP1'.
  { rewrite <- Qmult_plus_distr_r, !(Qmult_comm A).
    apply Qmult_le_compat_r; lra. }
  pose proof (round53_lower (A * m1) ltac:(lra)) as Hy1lo. fold y1 u in Hy1lo.
  assert (y2 <= A * m2 * (1 + u)) as Hy2hi.
  { destruct (Qeq_dec (A * m2) 0) as [H0 | H0].
    - subst y2. rewrite (round53_0 _ H0). rewrite H0. lra.
    - apply round53_upper.
      apply Qle_trans with (1 * (1 # 10001)); [lra |].
      apply Qle_trans with (A * (1 # 10001)).
      { apply Qmult_le_compat_r; lra. }
      rewrite !(Qmult_comm A). apply Qmult_le_compat_r; [| lra].
      apply Qle_trans with (multiplier 9999); [exact H9999 |].
      apply multiplier_mono. lia. }
  set (P1 := A * r1) in *. set (P2 := A * r2) in *.
  set (X1 := A * m1) in *. set (X2 := A * m2) in *.
  assert (P1 * (1 - u) * (1 - u) <= y1) as Hlow.
  { apply Qle_trans with (X1 * (1 - u)); [| exact Hy1lo].
    apply Qmult_le_compat_r; lra. }
  assert (0 <= X2) as HX2 by (apply Qmult_le_0_compat; lra).
  assert (y2 <= P2 * (1 + u) * (1 + u)) as Hhigh.
  { apply Qle_trans with (X2 * (1 + u)); [exact Hy2hi |].
    apply Qmult_le_compat_r; lra. }
  clearbody P1 P2 X1 X2 y1 y2 A u. 
  rewrite Hu in *. lra.
Qed.

End minimum_output_strict.

(** C4, amended.  For a quote whose [amountOut] is the numeral of an integer
    [0 <= amountOut < 2^53] and slippages [0 <= s1 <= s2 <= 10000] in basis
    points, [calculateMinimumOutput] prints the floor of
    [amountOut * ((10000 - s) / 10000)], the quotient and the product each
    rounded to a Number; the value at [s1] is at least the value at [s2], and
    strictly above it when [s1 < s2] and [amountOut] is at least 10001; at
    slippage [0] it is [amountOut]; and it is strictly below [amountOut] once
    [amountOut > 0] and the slippage is positive. *)
Theorem calculateMinimumOutput_monotone
    (quote : QuoteResult.t) (amountOut s1 s2 : Z) :
  QuoteResult.amountOut quote = VString (numeral amountOut) ->
  0 <= amountOut < 2 ^ 53 ->
  0 <= s1 -> s1 <= s2 -> s2 <= 10000 ->
  let scaled (s : Z) :=
    round53 (inject_Z amountOut * round53 (inject_Z (10000 - s) / 10000))%Q in
  exists m1 m2,
    calculateMinimumOutput quote (of_Z s1) = numeral m1 /\
    calculateMinimumOutput quote (of_Z s2) = numeral m2 /\
    m1 = Qfloor (scaled s1) /\
    m2 = Qfloor (scaled s2) /\
    m2 <= m1 /\
    (10001 <= amountOut -> s1 < s2 -> m2 < m1) /\
    calculateMinimumOutput quote (of_Z 0) = numeral amountOut /\
    (0 < amountOut -> 0 < s2 -> m2 < amountOut).
Proof.
  intros Hnumeral Ha Hs1 Hs Hs2 scaled.
  assert (parseInt (QuoteResult.amountOut quote) = of_Z amountOut) as Hquote
    by (rewrite Hnumeral; by apply parseInt_numeral).
  exists (Qfloor (scaled s1)), (Qfloor (scaled s2)).
  rewrite !(calculateMinimumOutput_value quote amountOut) by (done || lia).
  fold (scaled s1) (scaled s2) (scaled 0).
  pose proof (inject_Z_nonneg amountOut ltac:(lia)) as Ha0.
  destruct (scaled_amount_range amountOut s2 Ha ltac:(lia)) as (Hx & _ & _).
  split; [done |]. split; [done |]. split; [done |]. split; [done |].
  split; [| split; [| split]].
  - apply Qfloor_resp_le. apply round53_mono; [exact Hx |].
    pose proof (multiplier_mono s1 s2 ltac:(lia)). nra.
  - intros Hlarge Hstrict. apply scaled_amount_strict; lia.
  - f_equal. transitivity (Qfloor (inject_Z amountOut)); [| apply Qfloor_Z].
    apply Qfloor_comp.
    rewrite <- (round53_safe_integer amountOut Ha). apply round53_comp.
    rewrite multiplier_0. ring.
  - intros Hpos Hs0.
    assert (scaled s2 < inject_Z amountOut)%Q as Hlt.
    { pose proof (inject_Z_ge_1 amountOut ltac:(lia)) as Ha1.
      destruct Hx as [Hx | Hx]; [unfold scaled; rewrite (round53_0 _ Hx); lra |].
      eapply Qle_lt_trans; [apply round53_upper, Hx |].
      pose proof (multiplier_mono 1 s2 ltac:(lia)) as Hm.
      assert (round53 (inject_Z (10000 - 1) / 10000) * (1 + pow2 (-53)) < 1)%Q
        as Hbelow by (by vm_compute).
      pose proof (pow2_pos (-53)).
      set (m := round53 (inject_Z (10000 - s2) / 10000)) in *.
      set (c := round53 (inject_Z (10000 - 1) / 10000)) in *.
      assert (m * (1 + pow2 (-53)) <= c * (1 + pow2 (-53)))%Q by nra.
      nra. }
    rewrite Zlt_Qlt. eapply Qle_lt_trans; [apply Qfloor_le | exact Hlt].
Qed.

(** A quote of 20000 at slippages of 50 and 51 basis points. *)
Lemma calculateMinimumOutput_monotone_witness :
  let scaled (s : Z) :=
    round53 (inject_Z 20000 * round53 (inject_Z (10000 - s) / 10000))%Q in
  exists m1 m2,
    calculateMinimumOutput (quote_of_amountOut "20000") (of_Z 50) = numeral m1 /\
    calculateMinimumOutput (quote_of_amountOut "20000") (of_Z 51) = numeral m2 /\
    m1 = Qfloor (scaled 50) /\
    m2 = Qfloor (scaled 51) /\
    m2 <= m1 /\
    (10001 <= 20000 -> 50 < 51 -> m2 < m1) /\
    calculateMinimumOutput (quote_of_amountOut "20000") (of_Z 0) = numeral 20000 /\
    (0 < 20000 -> 0 < 51 -> m2 < 20000).
Proof.
  apply (calculateMinimumOutput_monotone (quote_of_amountOut "20000") 20000 50 51);
    [reflexivity | lia | lia | lia | lia].
Defined.

(** C4 as stated fails: with [amountOut = 100] the slippages 1 and 2 both
    give 99, with [amountOut = 10000] the slippages 1810 and 1811 both give
    8189, and with [amountOut = 0] slippage 50 gives 0, which is not below
    [amountOut].  Nor is the result the floor of the exact quotient: for
    [amountOut = 50] at 4200 basis points it is 28, where
    [50 * 5800 / 10000 = 29]. *)
Lemma calculateMinimumOutput_not_strict :
  calculateMinimumOutput (quote_of_amountOut "100") (of_Z 1) = "99" /\
  calculateMinimumOutput (quote_of_amountOut "100") (of_Z 2) = "99" /\
  calculateMinimumOutput (quote_of_amountOut "10000") (of_Z 1810) = "8189" /\
  calculateMinimumOutput (quote_of_amountOut "10000") (of_Z 1811) = "8189" /\
  calculateMinimumOutput (quote_of_amountOut "0") (of_Z 50) = "0" /\
  calculateMinimumOutput (quote_of_amountOut "50") (of_Z 4200) = "28" /\
  50 * (10000 - 4200) / 10000 = 29.
Proof. repeat split; vm_compute; reflexivity. Qed.

(** ** How a Number's notation starts *)

Lemma digit_char_in_range d : 0 <= d < 10 -> in_range "0" "9" (digit_char d) = true.
Proof.
  intros Hd.
  assert (d = 0 \/ d = 1 \/ d = 2 \/ d = 3 \/ d = 4 \/ d = 5 \/ d = 6 \/ d = 7 \/
          d = 8 \/ d = 9) as Hcases by lia.
  repeat (destruct Hcases as [-> | Hcases]; [reflexivity |]).
  by subst.
Qed.

Lemma decimal_digits_starts fuel : forall n acc,
  starts_with_digit acc = true \/ fuel <> O ->
  starts_with_digit (decimal_digits fuel n acc) = true.
Proof.
  induction fuel as [|fuel IH]; intros n acc Hacc; cbn [decimal_digits].
  { by destruct Hacc. }
  assert (starts_with_digit (String (digit_char (n mod 10)) acc) = true) as Hhead.
  { cbn [starts_with_digit]. apply digit_char_in_range. by apply Z.mod_pos_bound. }
  destruct (n / 10 =? 0); [done |]. apply IH. by left.
Qed.

Lemma nat_numeral_starts n : starts_with_digit (nat_numeral n) = true.
Proof. apply decimal_digits_starts. by right. Qed.

Lemma starts_with_digit_app s t :
  starts_with_digit s = true -> starts_with_digit (s +:+ t) = true.
Proof. by destruct s. Qed.

Lemma insert_point_starts n digits :
  starts_with_digit digits = true ->
  starts_with_digit (insert_point (S n) digits) = true.
Proof. by destruct digits. Qed.

Lemma format_decimal_starts s p : starts_with_digit (format_decimal s p) = true.
Proof.
  unfold format_decimal. pose proof (nat_numeral_starts s) as Hdigits.
  set (digits := nat_numeral s) in *. set (n := string_length digits + p).
  destruct (_ && _); [by apply starts_with_digit_app |].
  destruct (Z.ltb_spec 0 n) as [Hn |]; cbn [andb].
  - destruct (n <=? 21).
    + destruct (Z.to_nat n) as [|n'] eqn:Hnat; [lia |]. by apply insert_point_starts.
    + destruct ((-6 <? n) && (n <=? 0)); [done |].
      apply starts_with_digit_app.
      destruct (_ =? 1); [done | by apply insert_point_starts].
  - destruct ((-6 <? n) && (n <=? 0)); [done |].
    apply starts_with_digit_app.
    destruct (_ =? 1); [done | by apply insert_point_starts].
Qed.

(** Only [NaN] prints as [NaN]. *)
Lemma Number_toString_NaN a : Number_toString a = "NaN" -> a = NaN.
Proof.
  destruct a as [|[]|q]; [done | done | done |]. unfold Number_toString.
  assert (forall s, starts_with_digit s = true -> s <> "NaN") as Hdigit.
  { intros s Hs ->. done. }
  destruct (is_safe_integer q).
  - unfold numeral. destruct (_ <? _); [done |].
    intros H. by destruct (Hdigit _ (nat_numeral_starts (Qnum q))).
  - unfold shortest_decimal.
    destruct (shortest_digits _ _ _ _) as [s p], (strip_zeros _ _ _) as [s' p'].
    pose proof (format_decimal_starts s' p') as Hstart.
    destruct (Qc_is_neg q); [done |]. rewrite app_empty_l.
    intros H. by destruct (Hdigit _ Hstart).
Qed.

(** ** Bin price for a bin step that is not positive *)

Lemma Math_pow_1 n : Math_pow (of_Z 1) n = of_Z 1.
Proof.
  unfold Math_pow. destruct (n =? 0); [done |].
  unfold of_Z at 1. replace (Qc_is_zero (Qc_of_Z 1)) with false by done.
  apply Number_of_safe; [lia |]. cbn [this Qc_of_Z]. apply Qpower_1.
Qed.

(** C5, amended.  For every bin index and every bin step [<= 0],
    [calculateBinPrice] validates nothing and raises no error: it completes
    normally and returns the notation of
    [(1 + binStep / 10000) ^ binId * 2^64] as computed in Number arithmetic
    with that bin step, never the notation of [NaN].  With the bin step 0
    this is [2^64] for every bin; with the bin step -10000, where the base
    is 0, it is 0 for the bins above 0 and [Infinity] for those below. *)
Theorem calculateBinPrice_returns (binId : Z) (binStep : number) :
  Number_le binStep (of_Z 0) = true ->
  let base := Number_add (of_Z 1) (Number_div binStep (of_Z 10000)) in
  let price := Number_mul (Math_pow base binId) (Math_pow (of_Z 2) 64) in
  calculateBinPrice binId binStep = Normal (Number_toString price) /\
  is_NaN price = false /\
  Number_toString price <> "NaN" /\
  (binStep = of_Z 0 -> Number_toString price = "18446744073709552000") /\
  (binStep = of_Z (-10000) ->
   Number_toString price =
     if binId =? 0 then "18446744073709552000"
     else if 0 <? binId then "0" else "Infinity").
Proof.
  intros Hstep base price.
  assert (is_NaN price = false) as Hprice.
  { apply scaled_by_2_64_not_NaN, Math_pow_not_NaN.
    destruct binStep as [|negative|q]; [done | done |].
    unfold base, Number_div, of_Z.
    replace (Qc_is_zero (Qc_of_Z 10000)) with false by done.
    pose proof (is_NaN_Number_of (this q / this (Qc_of_Z 10000))) as Hquotient.
    destruct (Number_of _); [done | done |].
    cbn [Number_add]. apply is_NaN_Number_of. }
  split; [done |]. split; [done |]. split; [| split].
  - intros Hnan. apply Number_toString_NaN in Hnan. by rewrite Hnan in Hprice.
  - intros ->. subst price base.
    assert (Number_add (of_Z 1) (Number_div (of_Z 0) (of_Z 10000)) = of_Z 1) as ->.
    { unfold Number_div, of_Z.
      replace (Qc_is_zero (Qc_of_Z 10000)) with false by done.
      rewrite (Number_of_safe _ 0) by (lia || reflexivity).
      apply (Number_add_of_Z 1 0). lia. }
    rewrite Math_pow_1. by vm_compute.
  - intros ->. subst price base.
    assert (exists q,
              Number_add (of_Z 1) (Number_div (of_Z (-10000)) (of_Z 10000)) = Num q /\
              Qc_is_zero q = true) as (q & -> & Hq)
      by (eexists; split; [vm_compute; reflexivity | by vm_compute]).
    unfold Math_pow at 1. rewrite Hq.
    destruct (binId =? 0); [by vm_compute |].
    destruct (0 <? binId); by vm_compute.
Qed.

(** Bin 10 at the bin step -5000, where the base is a half. *)
Lemma calculateBinPrice_returns_witness :
  let base := Number_add (of_Z 1) (Number_div (of_Z (-5000)) (of_Z 10000)) in
  let price := Number_mul (Math_pow base 10) (Math_pow (of_Z 2) 64) in
  calculateBinPrice 10 (of_Z (-5000)) = Normal (Number_toString price) /\
  is_NaN price = false /\
  Number_toString price <> "NaN" /\
  (of_Z (-5000) = of_Z 0 -> Number_toString price = "18446744073709552000") /\
  (of_Z (-5000) = of_Z (-10000) ->
   Number_toString price =
     if 10 =? 0 then "18446744073709552000"
     else if 0 <? 10 then "0" else "Infinity").
Proof. apply (calculateBinPrice_returns 10 (of_Z (-5000))). reflexivity. Defined.

(** C5 as stated fails: bin 0 at the bin step 0 yields [2^64], and bin 1 at
    the bin step -5000, where the base is 0.5, yields [2^63], each returned
    as a string of the 17 digits that tell the Number apart; bin 10 at that
    bin step yields [2^54]. *)
Lemma calculateBinPrice_no_DomainError :
  calculateBinPrice 0 (of_Z 0) = Normal "18446744073709552000" /\
  calculateBinPrice 1 (of_Z (-5000)) = Normal "9223372036854776000" /\
  calculateBinPrice 10 (of_Z (-5000)) = Normal "18014398509481984".
Proof. repeat split; vm_compute; reflexivity. Qed.
